(** * GoDoc2Anki: the HTML tree projection (package HTMLTrees) and the
      download / process / upload pipeline (cmd/GoStdLib.go).

    The Go code works on [*html.Node] values linked by five pointers and
    carrying an attribute slice.  The model keeps that picture: nodes and
    attribute backing arrays live in a store, a pointer is an index into it
    ([None] is Go's nil), an allocation appends.  Loops over sibling chains
    may not terminate on a cyclic store, so they carry fuel. *)

From stdpp Require Import base option list gmap strings.
From Stdlib Require Import ZArith Lia Ascii.

Set Warnings "-clear-no-such-hyp".
Open Scope string_scope.
Open Scope nat_scope.
Open Scope list_scope.
Open Scope stdpp_scope.

(** ** Outcomes of a Go computation *)

Inductive fatal_error :=
  | HtmlParseFailed
  | NoNodesFound                       (* doc_src_add_prefix *)
  | NoMatchingAttribute                (* GetHtmlAttribute *)
  | TooFewDeckParts (deck : string)    (* Task.ImportPath *)
  | UnexpectedAmountOfFuncHeaders (functions headers : nat)
  | UnexpectedAmountOfTypeHeaders (types headers : nat)
  | BadStatus (status : Z)             (* HtmlDownloader *)
  | DeckRequestFailed
  | DeckCreationFailed (deck : string)
  | UploadFailed (status : Z)
  | RenderFailed.                      (* HTMLString *)

Inductive result (A : Type) : Type :=
  | Ok (a : A)
  | Panic                    (* nil dereference or index out of range *)
  | Fatal (e : fatal_error)  (* log.Fatal: the process exits *)
  | Timeout.                 (* the fuel of the model ran out *)
Arguments Ok {A} a.
Arguments Panic {A}.
Arguments Fatal {A} e.
Arguments Timeout {A}.

#[global] Instance result_ret : MRet result := fun _ a => Ok a.
#[global] Instance result_bind : MBind result := fun _ _ f r =>
  match r with
  | Ok a => f a
  | Panic => Panic
  | Fatal e => Fatal e
  | Timeout => Timeout
  end.

Definition of_option {A} (o : option A) : result A :=
  match o with Some a => Ok a | None => Panic end.

(** ** The document tree: golang.org/x/net/html's Node in a store *)

(** A non-nil pointer: the index of its target in the store. *)
Abbreviation loc := nat (only parsing).

Inductive NodeType :=
  | ErrorNode | TextNode | DocumentNode | ElementNode
  | CommentNode | DoctypeNode | RawNode.

Definition is_TextNode (t : NodeType) : bool :=
  match t with TextNode => true | _ => false end.

Record Attribute := mkAttribute {
  AttrNamespace : string;
  Key : string;
  Val : string
}.

Record Node := mkNode {
  Parent : option loc;
  FirstChild : option loc;
  LastChild : option loc;
  PrevSibling : option loc;
  NextSibling : option loc;
  Type_ : NodeType;
  DataAtom : N;
  Data : string;
  Namespace : string;
  Attr : option loc        (* the slice: nil, or its backing array *)
}.

Record Store := mkStore {
  nodes : list Node;
  arrays : list (list Attribute)
}.

Definition with_Parent (v : option loc) (n : Node) : Node :=
  mkNode v (FirstChild n) (LastChild n) (PrevSibling n) (NextSibling n)
         (Type_ n) (DataAtom n) (Data n) (Namespace n) (Attr n).
Definition with_FirstChild (v : option loc) (n : Node) : Node :=
  mkNode (Parent n) v (LastChild n) (PrevSibling n) (NextSibling n)
         (Type_ n) (DataAtom n) (Data n) (Namespace n) (Attr n).
Definition with_LastChild (v : option loc) (n : Node) : Node :=
  mkNode (Parent n) (FirstChild n) v (PrevSibling n) (NextSibling n)
         (Type_ n) (DataAtom n) (Data n) (Namespace n) (Attr n).
Definition with_PrevSibling (v : option loc) (n : Node) : Node :=
  mkNode (Parent n) (FirstChild n) (LastChild n) v (NextSibling n)
         (Type_ n) (DataAtom n) (Data n) (Namespace n) (Attr n).
Definition with_NextSibling (v : option loc) (n : Node) : Node :=
  mkNode (Parent n) (FirstChild n) (LastChild n) (PrevSibling n) v
         (Type_ n) (DataAtom n) (Data n) (Namespace n) (Attr n).
Definition with_Data (v : string) (n : Node) : Node :=
  mkNode (Parent n) (FirstChild n) (LastChild n) (PrevSibling n) (NextSibling n)
         (Type_ n) (DataAtom n) v (Namespace n) (Attr n).

(** [*p] for a non-nil pointer [p]. *)
Definition node_at (σ : Store) (p : loc) : result Node :=
  of_option (nodes σ !! p).

(** [p.field = v], written [update p (with_field v)]. *)
Definition update (p : loc) (f : Node → Node) (σ : Store) : result Store :=
  n ← node_at σ p;
  Ok (mkStore (<[p := f n]> (nodes σ)) (arrays σ)).

(** The elements of a slice; a nil slice has none. *)
Definition slice_of (σ : Store) (s : option loc) : option (list Attribute) :=
  match s with
  | None => Some []
  | Some a => arrays σ !! a
  end.

Definition zero_Attribute : Attribute := mkAttribute "" "" "".

(** [make([]html.Attribute, n)] *)
Definition make_attr (n : nat) (σ : Store) : loc * Store :=
  (length (arrays σ),
   mkStore (nodes σ) (arrays σ ++ [replicate n zero_Attribute])).

(** [copy(dst, src)]: the first [min (len dst) (len src)] elements. *)
Definition copy_attr (dst : option loc) (src : list Attribute) (σ : Store)
  : result Store :=
  match dst with
  | None => Ok σ
  | Some a =>
      d ← of_option (arrays σ !! a);
      let k := Nat.min (length d) (length src) in
      Ok (mkStore (nodes σ) (<[a := take k src ++ drop k d]> (arrays σ)))
  end.

(** [&html.Node{...}] *)
Definition new_node (n : Node) (σ : Store) : loc * Store :=
  (length (nodes σ), mkStore (nodes σ ++ [n]) (arrays σ)).

(** [node.Attr[i].Val = v] *)
Definition set_AttrVal (node : loc) (i : nat) (v : string) (σ : Store)
  : result Store :=
  n ← node_at σ node;
  a ← of_option (Attr n);
  arr ← of_option (arrays σ !! a);
  x ← of_option (arr !! i);
  Ok (mkStore (nodes σ)
        (<[a := <[i := mkAttribute (AttrNamespace x) (Key x) v]> arr]>
           (arrays σ))).

Fixpoint foldM {A B} (f : A → B → result B) (l : list A) (b : B) : result B :=
  match l with
  | [] => Ok b
  | x :: l => b ← f x b; foldM f l b
  end.

Module HTMLTrees.

(** Flat copy of a node: all pointers nil, a backing array of its own.
    [Namespace] is not among the fields the composite literal sets. *)
Definition Copy (node : loc) (σ : Store) : result (loc * Store) :=
  n ← node_at σ node;
  src ← of_option (slice_of σ (Attr n));
  let '(attr, σ1) :=
    if bool_decide (0 < length src)
    then let '(a, σ') := make_attr (length src) σ in (Some a, σ')
    else (None, σ) in
  σ2 ← copy_attr attr src σ1;
  Ok (new_node (mkNode None None None None None
                       (Type_ n) (DataAtom n) (Data n) "" attr) σ2).

Section rec.
(** The selection closure.  It receives the pointer, may read the tree
    and may keep state of its own (the memo table of [DeepCopySubtrees]);
    it does not write to the tree. *)
Context {St : Type}.
Variable sel : loc → Store → St → result (bool * St).

(** The loop of [rec]: [c] is the loop variable, [prev] the local.
    The first call below is [rec(c, cur, sel)] with its read of
    [c.FirstChild]; the exit sets [cpy.LastChild]. *)
Fixpoint rec_loop (fuel : nat) (c : option loc) (cpy : loc)
    (prev : option loc) (σ : Store) (s : St) : result (Store * St) :=
  match fuel with
  | 0 => Timeout
  | S fuel =>
    match c with
    | None =>
        σ' ← update cpy (with_LastChild prev) σ;
        Ok (σ', s)
    | Some c =>
        '(b, s) ← sel c σ s;
        nc ← node_at σ c;
        if b || is_TextNode (Type_ nc) then
          '(cur, σ) ← Copy c σ;
          σ ← update cur (with_Parent (Some cpy)) σ;
          ncpy ← node_at σ cpy;
          σ ← match FirstChild ncpy with
              | None => update cpy (with_FirstChild (Some cur)) σ
              | Some _ => Ok σ
              end;
          σ ← match prev with
              | Some p =>
                  σ ← update cur (with_PrevSibling (Some p)) σ;
                  update p (with_NextSibling (Some cur)) σ
              | None => Ok σ
              end;
          nc ← node_at σ c;
          '(σ, s) ← rec_loop fuel (FirstChild nc) cur None σ s;
          nc ← node_at σ c;
          rec_loop fuel (NextSibling nc) cpy (Some cur) σ s
        else
          rec_loop fuel (NextSibling nc) cpy prev σ s
    end
  end.

Definition rec (fuel : nat) (root cpy : loc) (σ : Store) (s : St)
  : result (Store * St) :=
  nr ← node_at σ root;
  rec_loop fuel (FirstChild nr) cpy None σ s.

(** returns a deep copy of root containing only nodes fulfilling [sel] *)
Definition DeepCopyFunc (fuel : nat) (root : loc) (σ : Store) (s : St)
  : result (loc * Store * St) :=
  '(newRoot, σ) ← Copy root σ;
  '(σ, s) ← rec fuel root newRoot σ s;
  Ok (newRoot, σ, s).
End rec.

(** A Go predicate without state of its own, given by its value on each
    node pointer. *)
Definition pure_sel (p : loc → bool) : loc → Store → unit → result (bool * unit) :=
  fun l _ s => Ok (p l, s).

(** returns a deep copy of root's html tree *)
Definition DeepCopy (fuel : nat) (root : loc) (σ : Store) : result (loc * Store) :=
  '(newRoot, σ) ← Copy root σ;
  let sel := pure_sel (fun _ => true) in
  '(σ, _) ← rec sel fuel root newRoot σ ();
  Ok (newRoot, σ).

(** The memo table of [DeepCopySubtrees]: a Go map keyed by node pointer,
    shared by the marking loop and the [lookup] closure. *)
Abbreviation Cache := (gmap nat bool) (only parsing).

(** [for c := node.FirstChild; c != nil; c = c.NextSibling
       { stack = append(stack, c) }] *)
Fixpoint push_children (fuel : nat) (σ : Store) (c : option loc)
    (stack : list loc) : result (list loc) :=
  match fuel with
  | 0 => Timeout
  | S fuel =>
    match c with
    | None => Ok stack
    | Some c =>
        nc ← node_at σ c;
        push_children fuel σ (NextSibling nc) (stack ++ [c])
    end
  end.

(** The first loop of [DeepCopySubtrees]: every node of the given
    subtrees is entered in the cache as relevant. *)
Fixpoint mark (fuel : nat) (σ : Store) (stack : list loc) (cache : Cache)
  : result Cache :=
  match fuel with
  | 0 => Timeout
  | S fuel =>
    match stack with
    | [] => Ok cache
    | node :: stack =>
        let cache := <[node := true]> cache in
        n ← node_at σ node;
        stack ← push_children fuel σ (FirstChild n) stack;
        mark fuel σ stack cache
    end
  end.

(** The closure [lookup]: a node is relevant when the cache says so, or
    else when one of its children is; the answer is cached. *)
Fixpoint lookup (fuel : nat) (σ : Store) (root : option loc) (cache : Cache)
  : result (bool * Cache) :=
  match fuel with
  | 0 => Timeout
  | S fuel =>
    match root with
    | None => Ok (false, cache)
    | Some root =>
        match cache !! root with
        | Some res => Ok (res, cache)
        | None =>
            n ← node_at σ root;
            lookup_children fuel σ root (FirstChild n) cache
        end
    end
  end
with lookup_children (fuel : nat) (σ : Store) (root : loc) (c : option loc)
    (cache : Cache) : result (bool * Cache) :=
  match fuel with
  | 0 => Timeout
  | S fuel =>
    match c with
    | None => Ok (false, <[root := false]> cache)
    | Some c =>
        '(res, cache) ← lookup fuel σ (Some c) cache;
        if (res : bool) then Ok (true, <[root := true]> cache)
        else
          nc ← node_at σ c;
          lookup_children fuel σ root (NextSibling nc) cache
    end
  end.

(** returns a deep copy of the root tree; a node is omitted iff it is not
    matched by the selector and no node of its subtree is.  [selector] is
    the [Select] method of the compiled selector; the closure [lookup] is
    the same as in [DeepCopySubtrees]. *)
Definition DeepCopySelector (fuel : nat) (root : loc)
    (selector : Store → loc → list loc) (σ : Store) : result (loc * Store) :=
  let nodes := selector σ root in
  let cache : Cache := foldl (λ cache node, <[node := true]> cache) ∅ nodes in
  let lookup := λ (l : loc) (σ : Store) (cache : Cache),
                  lookup fuel σ (Some l) cache in
  '(newRoot, σ, _) ← DeepCopyFunc lookup fuel root σ cache;
  Ok (newRoot, σ).

(** returns a deep copy of the root tree; a node is omitted iff it is not
    in any of the given subtrees and no node of its subtree is *)
Definition DeepCopySubtrees (fuel : nat) (root : loc) (subtrees : list loc)
    (σ : Store) : result (loc * Store) :=
  cache ← mark fuel σ subtrees ∅;
  let lookup := λ (l : loc) (σ : Store) (cache : Cache),
                  lookup fuel σ (Some l) cache in
  '(newRoot, σ, _) ← DeepCopyFunc lookup fuel root σ cache;
  Ok (newRoot, σ).

(** Run [f] on all nodes in the given tree.  What [f] returns is dropped,
    so the error result is always nil and is left out. *)
Fixpoint Modify (fuel : nat) (f : loc → Store → result Store)
    (node : option loc) (σ : Store) : result Store :=
  match fuel with
  | 0 => Timeout
  | S fuel =>
    match node with
    | None => Ok σ
    | Some node =>
        σ ← f node σ;
        n ← node_at σ node;
        Modify_children fuel f (FirstChild n) σ
    end
  end
with Modify_children (fuel : nat) (f : loc → Store → result Store)
    (c : option loc) (σ : Store) : result Store :=
  match fuel with
  | 0 => Timeout
  | S fuel =>
    match c with
    | None => Ok σ
    | Some c =>
        σ ← Modify fuel f (Some c) σ;
        nc ← node_at σ c;
        Modify_children fuel f (NextSibling nc) σ
    end
  end.

End HTMLTrees.

(** ** cmd/GoStdLib.go: tasks *)

(** The error values the pipeline makes.  [fmt.Errorf] prints the task
    (its deck and the error it carried) and wraps the cause. *)
#[warnings="-register-all"]
Inductive error :=
  | TransportError (detail : string)
  | DownloadFailed (deck : string) (carried : option error) (cause : error)
  | ReadBodyFailed (deck : string) (carried : option error) (cause : error).

Record Note := mkNote {
  DeckName : string;
  ModelName : string;
  Identifier : string;
  Declaration : string;
  Implementation : string
}.

Record Task := mkTask {
  url : string;
  deck : string;
  html : list Byte.byte;
  notes : list Note;
  err : option error
}.

Definition NewTask (url deck : string) : Task := mkTask url deck [] [] None.

Definition AddNote (front back impl : string) (t : Task) : Task :=
  mkTask (url t) (deck t) (html t)
         (notes t ++ [mkNote (deck t) "Golang" front back impl]) (err t).

Definition with_err (e : error) (t : Task) : Task :=
  mkTask (url t) (deck t) (html t) (notes t) (Some e).
Definition with_html (h : list Byte.byte) (t : Task) : Task :=
  mkTask (url t) (deck t) h (notes t) (err t).

Definition is_colon (c : ascii) : bool := Ascii.eqb c ":"%char.

(** [strings.Cut(s, "::")] *)
Fixpoint Cut (s : string) : option (string * string) :=
  match s with
  | EmptyString => None
  | String c s' =>
      match s' with
      | String c' rest =>
          if is_colon c && is_colon c' then Some (EmptyString, rest)
          else '(before, after) ← Cut s'; Some (String c before, after)
      | EmptyString => None
      end
  end.

(** [strings.ReplaceAll(s, "::", ".")] *)
Fixpoint ReplaceAll (s : string) : string :=
  match s with
  | EmptyString => EmptyString
  | String c s' =>
      match s' with
      | String c' rest =>
          if is_colon c && is_colon c' then String "."%char (ReplaceAll rest)
          else String c (ReplaceAll s')
      | EmptyString => s
      end
  end.

(** The libraries the pipeline calls: net/url, x/net/html, the css
    selector package, regexp, and the Unicode tables behind
    [strings.ToLower]; [MatchingNodes] is a function of package HTMLTrees
    that is not among the sources at hand. *)
Class Externals := {
  URL : Type;
  url_Parse : string → option URL;
  url_ResolveReference : option URL → URL → result URL;
  url_String : URL → string;
  html_Parse : list Byte.byte → option (loc * Store);
  html_Render : Store → loc → option string;
  css_Select : string → Store → loc → list loc;
  Regexp : Type;
  regexp_MustCompile : string → result Regexp;
  regexp_ReplaceAllString : Regexp → string → string → string;
  MatchingNodes : Store → loc → Regexp → list loc;
  (* strings.Map(unicode.ToLower, s) *)
  unicode_ToLower : string → string
}.

(** Every byte of the string is below 128 (utf8.RuneSelf). *)
Fixpoint ascii_only (s : string) : bool :=
  match s with
  | EmptyString => true
  | String c s => (nat_of_ascii c <? 128) && ascii_only s
  end.

(** The letters A to Z, byte by byte. *)
Definition lower (c : ascii) : ascii :=
  let n := nat_of_ascii c in
  if (65 <=? n) && (n <=? 90) then ascii_of_nat (n + 32) else c.
Fixpoint lower_bytes (s : string) : string :=
  match s with
  | EmptyString => EmptyString
  | String c s' => String (lower c) (lower_bytes s')
  end.

(** [strings.ToLower]: a string of ASCII bytes has its letters A to Z
    lowered byte by byte; on any other string [unicode.ToLower] is mapped
    over the runes, which also lowers the capitals outside of ASCII. *)
Definition ToLower `{Externals} (s : string) : string :=
  if ascii_only s then lower_bytes s else unicode_ToLower s.

(** [strings.SplitN(t.deck, "::", 3)] has three parts when the deck has
    two separators; the third part is the rest. *)
Definition ImportPath `{Externals} (t : Task) : result string :=
  match Cut (deck t) with
  | Some (_, rest) =>
      match Cut rest with
      | Some (_, rest) => Ok (ToLower (ReplaceAll rest))
      | None => Fatal (TooFewDeckParts (deck t))
      end
  | None => Fatal (TooFewDeckParts (deck t))
  end.

(** ** HtmlDownloader *)

(** What one [http.Get] and the following [io.ReadAll] give. *)
Inductive http_response :=
  | GetFailed (e : error)
  | Response (StatusCode : Z) (body : error + list Byte.byte).

Inductive worker_end :=
  | Waiting                 (* blocked on the empty input channel *)
  | Exited (e : fatal_error)
  | Unanswered (t : Task).  (* the script of the world ran out *)

Definition emit (t : Task) (r : list Task * worker_end) : list Task * worker_end :=
  (t :: r.1, r.2).

(** The loop [Outer] of a worker holding [task]; [world] answers the
    requests in turn, [inq] is what the worker will receive from [in].
    The result is what it sends to [out], in order. *)
Fixpoint HtmlDownloader_loop (world : list http_response) (task : Task)
    (inq : list Task) : list Task * worker_end :=
  match world with
  | [] => ([], Unanswered task)
  | GetFailed e :: world =>
      let task := with_err (DownloadFailed (deck task) (err task) e) task in
      emit task (HtmlDownloader_loop world task inq)          (* continue *)
  | Response code body :: world =>
      if (code =? 200)%Z then
        match body with
        | inl e =>
            let task := with_err (ReadBodyFailed (deck task) (err task) e) task in
            emit task (HtmlDownloader_loop world task inq)    (* continue *)
        | inr h =>
            let task := with_html h task in
            emit task
              match inq with
              | [] => ([], Waiting)
              | task :: inq => HtmlDownloader_loop world task inq
              end
        end
      else if (code =? 429)%Z then
        HtmlDownloader_loop world task inq                    (* continue Outer *)
      else ([], Exited (BadStatus code))
  end.

Definition HtmlDownloader (world : list http_response) (inq : list Task)
  : list Task * worker_end :=
  match inq with
  | [] => ([], Waiting)
  | task :: inq => HtmlDownloader_loop world task inq
  end.

(** ** HtmlProcessor *)

Section HtmlProcessor.
Context `{Externals}.

(** render node to HTML string *)
Definition HTMLString (σ : Store) (node : loc) : result string :=
  match html_Render σ node with
  | Some s => Ok s
  | None => Fatal RenderFailed
  end.

Definition GetHtmlAttribute (σ : Store) (node : loc) (f : Attribute → bool)
  : result Attribute :=
  n ← node_at σ node;
  attrs ← of_option (slice_of σ (Attr n));
  match find f attrs with
  | Some attr => Ok attr
  | None => Fatal NoMatchingAttribute
  end.

Definition GetHtmlAttributeByKey (σ : Store) (node : loc) (key : string)
  : result Attribute :=
  GetHtmlAttribute σ node (λ attr, String.eqb (Key attr) key).

(** The closure handed to [Modify]: local hrefs to global hrefs.  The
    counter is incremented in the loop body and again in the for clause. *)
Fixpoint href_loop (fuel : nat) (base : option URL) (node : loc) (i : nat)
    (σ : Store) : result Store :=
  match fuel with
  | 0 => Timeout
  | S fuel =>
      n ← node_at σ node;
      attrs ← of_option (slice_of σ (Attr n));
      if bool_decide (i < length attrs) then
        attr ← of_option (attrs !! i);
        σ ← (if String.eqb (Key attr) "href" then
               match url_Parse (Val attr) with
               | Some link =>
                   target ← url_ResolveReference base link;
                   set_AttrVal node i (url_String target) σ
               | None => Ok σ
               end
             else Ok σ);
        let i := i + 1 in
        href_loop fuel base node (i + 1) σ
      else Ok σ
  end.

Definition absolute_hrefs (fuel : nat) (base : option URL) (node : loc)
    (σ : Store) : result Store :=
  href_loop fuel base node 0 σ.

Definition doc_src_add_prefix (root : loc) (name : string) (σ : Store)
  : result Store :=
  let nodes := css_Select "a.Documentation-source" σ root in
  if bool_decide (length nodes = 0) then Fatal NoNodesFound
  else
    foldM (λ node σ,
             n ← node_at σ node;
             fc ← of_option (FirstChild n);
             nfc ← node_at σ fc;
             update fc (with_Data (name +:+ "." +:+ Data nfc)) σ)
          nodes σ.

(** append deck importPath as prefix to variable name *)
Definition prefix_ids (span_selector : string) (block : loc) (task : Task)
    (σ : Store) : result Store :=
  foldM (λ span σ,
           id ← GetHtmlAttributeByKey σ span "id";
           pattern ← regexp_MustCompile ("(?P<id>" +:+ Val id +:+ ")");
           foldM (λ node σ,
                    n ← node_at σ node;
                    ip ← ImportPath task;
                    update node
                      (with_Data (regexp_ReplaceAllString pattern (Data n)
                                    (ip +:+ ".${id}"))) σ)
                 (MatchingNodes σ span pattern) σ)
        (css_Select span_selector σ block) σ.

(** [c.NextSibling.NextSibling] for a non-nil [c] *)
Definition skip_one (σ : Store) (c : loc) : result (option loc) :=
  nc ← node_at σ c;
  next ← of_option (NextSibling nc);
  nnext ← node_at σ next;
  Ok (NextSibling nnext).

(** find following <p>...</p>: the loop
    [for c := block.NextSibling.NextSibling; c != nil && c.Data == "p";
         c = c.NextSibling.NextSibling] *)
Fixpoint paragraphs_from (fuel : nat) (σ : Store) (c : option loc)
    (nodes : list loc) : result (list loc) :=
  match fuel with
  | 0 => Timeout
  | S fuel =>
    match c with
    | None => Ok nodes
    | Some c =>
        nc ← node_at σ c;
        if String.eqb (Data nc) "p" then
          let nodes := nodes ++ [c] in
          c ← skip_one σ c;
          paragraphs_from fuel σ c nodes
        else Ok nodes
    end
  end.

Definition following_paragraphs (fuel : nat) (σ : Store) (block : loc)
  : result (list loc) :=
  c ← skip_one σ block;
  paragraphs_from fuel σ c [block].

(** The body of the loops over variables and over constants; the two
    loops differ in their selectors only. *)
Definition declaration_card (fuel : nat) (root : loc) (span_selector : string)
    (block : loc) (st : Store * Task) : result (Store * Task) :=
  let '(σ, task) := st in
  σ ← prefix_ids span_selector block task σ;
  nodes ← following_paragraphs fuel σ block;
  '(cpy, σ) ← HTMLTrees.DeepCopySubtrees fuel root nodes σ;
  front ← HTMLString σ cpy;
  Ok (σ, AddNote front front "" task).

Definition declaration_cards (fuel : nat) (root : loc)
    (block_selector span_selector : string) (st : Store * Task)
  : result (Store * Task) :=
  foldM (declaration_card fuel root span_selector)
        (css_Select block_selector st.1 root) st.

(** The body of the loops over functions and over types. *)
Definition paired_card (fuel : nat) (root : loc) (container header : loc)
    (st : Store * Task) : result (Store * Task) :=
  let '(σ, task) := st in
  ip ← ImportPath task;
  σ ← doc_src_add_prefix header ip σ;
  '(cpy, σ) ← HTMLTrees.DeepCopySubtrees fuel root [container] σ;
  back ← HTMLString σ cpy;
  '(cpy, σ) ← HTMLTrees.DeepCopySubtrees fuel root [header] σ;
  front ← HTMLString σ cpy;
  Ok (σ, AddNote front back "" task).

(** [for i := 0; i < len(containers); i++ {
       container := containers[i]; header := headers[i]; ... }],
    with [n] iterations to go. *)
Fixpoint paired_loop (fuel : nat) (root : loc) (containers headers : list loc)
    (n i : nat) (st : Store * Task) : result (Store * Task) :=
  match n with
  | 0 => Ok st
  | S n =>
      container ← of_option (containers !! i);
      header ← of_option (headers !! i);
      st ← paired_card fuel root container header st;
      paired_loop fuel root containers headers n (i + 1) st
  end.

Definition paired_cards (fuel : nat) (root : loc)
    (container_selector header_selector : string)
    (mismatch : nat → nat → fatal_error) (st : Store * Task)
  : result (Store * Task) :=
  let containers := css_Select container_selector st.1 root in
  let headers := css_Select header_selector st.1 root in
  if bool_decide (length headers ≠ length containers)
  then Fatal (mismatch (length containers) (length headers))
  else paired_loop fuel root containers headers (length containers) 0 st.

Definition function_cards (fuel : nat) (root : loc) :=
  paired_cards fuel root "div.Documentation-function"
    "div.Documentation-function h4.Documentation-functionHeader"
    UnexpectedAmountOfFuncHeaders.

Definition type_cards (fuel : nat) (root : loc) :=
  paired_cards fuel root "div.Documentation-type"
    "div.Documentation-type h4.Documentation-typeHeader"
    UnexpectedAmountOfTypeHeaders.

(** The body of the loop of [HtmlProcessor] for one task; [Ok] is the
    task sent to [out]. *)
Definition process (fuel : nat) (task : Task) : result Task :=
  '(root, σ) ← match html_Parse (html task) with
               | Some r => Ok r
               | None => Fatal HtmlParseFailed
               end;
  let base := url_Parse (url task) in
  σ ← HTMLTrees.Modify fuel (absolute_hrefs fuel base) (Some root) σ;
  st ← declaration_cards fuel root
         "section.Documentation-variables div.Documentation-declaration"
         "span[data-kind='variable']" (σ, task);
  st ← declaration_cards fuel root
         "section.Documentation-constants div.Documentation-declaration"
         "span[data-kind='constant']" st;
  st ← function_cards fuel root st;
  st ← type_cards fuel root st;
  Ok st.2.

(** A worker: [for task := range in { ...; out <- task }]. *)
Fixpoint HtmlProcessor (fuel : nat) (inq : list Task)
  : list Task * result unit :=
  match inq with
  | [] => ([], Ok ())
  | task :: inq =>
      match process fuel task with
      | Ok task =>
          let '(out, e) := HtmlProcessor fuel inq in (task :: out, e)
      | Panic => ([], Panic)
      | Fatal e => ([], Fatal e)
      | Timeout => ([], Timeout)
      end
  end.
End HtmlProcessor.

(** ** NoteUploader *)

(** [*errors.RestErr] of the ankiconnect client. *)
Record RestErr := mkRestErr { StatusCode : Z }.

Inductive call :=
  | Decks_Create (deck : string)
  | Notes_Add (note : Note).

Inductive uploader_end :=
  | Drained                       (* blocked on the empty input channel *)
  | Died (e : fatal_error)
  | Silent.                       (* the script of the service ran out *)

(** The loop [Outer] over the notes of a task; [answers] are the results
    of the calls of [client.Notes.Add], in turn. *)
Fixpoint upload (answers : list (option RestErr)) (notes : list Note)
  : list call * (uploader_end + list (option RestErr)) :=
  match notes with
  | [] => ([], inr answers)
  | note :: rest =>
      match answers with
      | [] => ([], inl Silent)
      | a :: answers =>
          let r :=
            match a with
            | None => upload answers rest
            | Some e =>
                if (StatusCode e =? 200)%Z then upload answers rest
                else if (StatusCode e =? 500)%Z then upload answers notes
                else ([], inl (Died (UploadFailed (StatusCode e))))
            end in
          (Notes_Add note :: r.1, r.2)
      end
  end.

(** The loop over the tasks, with the deck list fetched at the start. *)
Fixpoint NoteUploader_loop (decks : list string)
    (answers : list (option RestErr)) (inq : list Task)
  : list call * uploader_end :=
  match inq with
  | [] => ([], Drained)
  | task :: inq =>
      let upload_and_go_on answers :=
        match upload answers (notes task) with
        | (calls, inl e) => (calls, e)
        | (calls, inr answers) =>
            let r := NoteUploader_loop decks answers inq in (calls ++ r.1, r.2)
        end in
      if bool_decide (deck task ∈ decks) then upload_and_go_on answers
      else
        match answers with
        | [] => ([], Silent)
        | a :: answers =>
            match a with
            | Some _ => ([Decks_Create (deck task)],
                         Died (DeckCreationFailed (deck task)))
            | None =>
                let r := upload_and_go_on answers in
                (Decks_Create (deck task) :: r.1, r.2)
            end
        end
  end.

(** [getAll] is the result of [client.Decks.GetAll()]. *)
Definition NoteUploader (getAll : option (list string))
    (answers : list (option RestErr)) (inq : list Task)
  : list call * uploader_end :=
  match getAll with
  | None => ([], Died DeckRequestFailed)
  | Some decks => NoteUploader_loop decks answers inq
  end.

(** ** Reading a tree off the store

    What [rec] sees of a tree is its FirstChild / NextSibling skeleton, so
    a tree is read as a forest in that form: a node, the forest of its
    children, the forest of its later siblings. *)

Record Content := mkContent {
  cType : NodeType;
  cAtom : N;
  cData : string;
  cAttr : list Attribute
}.

Definition content_of (n : Node) (attrs : list Attribute) : Content :=
  mkContent (Type_ n) (DataAtom n) (Data n) attrs.

Inductive forest :=
  | fnil
  | fcons (addr : loc) (c : Content) (children siblings : forest).

Definition head_addr (f : forest) : option loc :=
  match f with fnil => None | fcons a _ _ _ => Some a end.

Fixpoint reify_chain (fuel : nat) (σ : Store) (c : option loc) : option forest :=
  match fuel with
  | 0 => None
  | S fuel =>
    match c with
    | None => Some fnil
    | Some l =>
        n ← nodes σ !! l;
        attrs ← slice_of σ (Attr n);
        kids ← reify_chain fuel σ (FirstChild n);
        rest ← reify_chain fuel σ (NextSibling n);
        Some (fcons l (content_of n attrs) kids rest)
    end
  end.

(** The tree under [root]; the siblings of [root] are not part of it. *)
Definition reify (fuel : nat) (σ : Store) (root : loc) : option forest :=
  n ← nodes σ !! root;
  attrs ← slice_of σ (Attr n);
  kids ← reify_chain fuel σ (FirstChild n);
  Some (fcons root (content_of n attrs) kids fnil).

(** The same without node identities: tags, text, attributes, order. *)
Inductive doc :=
  | dnil
  | dcons (c : Content) (children siblings : doc).

Fixpoint erase (f : forest) : doc :=
  match f with
  | fnil => dnil
  | fcons _ c kids rest => dcons c (erase kids) (erase rest)
  end.

(** What the loop of [rec] keeps of a sibling chain, for a relevance test
    [R] on nodes; the test sees the identity of the node and the forest of
    its children. *)
Fixpoint prune (R : loc → forest → bool) (f : forest) : forest :=
  match f with
  | fnil => fnil
  | fcons a c kids rest =>
      if R a kids || is_TextNode (cType c)
      then fcons a c (prune R kids) (prune R rest)
      else prune R rest
  end.

(** The root is copied whatever the test says. *)
Definition project (R : loc → forest → bool) (t : forest) : forest :=
  match t with
  | fnil => fnil
  | fcons a c kids _ => fcons a c (prune R kids) fnil
  end.

Module Examples.
Import HTMLTrees.

Definition elem (tag : string) (parent first last prev next : option loc)
    (attr : option loc) : Node :=
  mkNode parent first last prev next ElementNode 0 tag "" attr.
Definition text (s : string) (parent prev next : option loc) : Node :=
  mkNode parent None None prev next TextNode 0 s "" None.

(** <div class=c href=/x><span>hi</span><p></p></div> *)
Definition store_div : Store :=
  mkStore
    [ elem "div" None (Some 1) (Some 3) None None (Some 0);
      elem "span" (Some 0) (Some 2) (Some 2) None (Some 3) None;
      text "hi" (Some 1) None None;
      elem "p" (Some 0) None None (Some 1) None None ]
    [ [mkAttribute "" "class" "c"; mkAttribute "" "href" "/x"] ].

(** <section><div class=decl></div></section>: a declaration block that
    is the last child of its parent. *)
Definition store_last_block : Store :=
  mkStore
    [ elem "section" None (Some 1) (Some 1) None None None;
      elem "div" (Some 0) None None None None None ]
    [].

(** A declaration block, a spacer, and a paragraph that is the last
    child. *)
Definition store_last_paragraph : Store :=
  mkStore
    [ elem "section" None (Some 1) (Some 3) None None None;
      elem "div" (Some 0) None None None (Some 2) None;
      text " " (Some 0) (Some 1) (Some 3);
      elem "p" (Some 0) None None (Some 2) None None ]
    [].

(** <div><span><b></b></span></div> *)
Definition store_nested : Store :=
  mkStore
    [ elem "div" None (Some 1) (Some 1) None None None;
      elem "span" (Some 0) (Some 2) (Some 2) None None None;
      elem "b" (Some 1) None None None None None ]
    [].

(** <p>hi</p> *)
Definition store_text : Store :=
  mkStore
    [ elem "p" None (Some 1) (Some 1) None None None;
      text "hi" (Some 0) None None ]
    [].

(** A page with one function: the document node, the container
    div.Documentation-function, its header h4.Documentation-functionHeader,
    the link a.Documentation-source and the text of the link. *)
Definition store_page : Store :=
  mkStore
    [ mkNode None (Some 1) (Some 1) None None DocumentNode 0 "" "" None;
      elem "div" (Some 0) (Some 2) (Some 2) None None None;
      elem "h4" (Some 1) (Some 3) (Some 3) None None None;
      elem "a" (Some 2) (Some 4) (Some 4) None None None;
      text "Println" (Some 3) None None ]
    [].

(** The libraries on [store_page]: every payload parses to the page, the
    selectors find the nodes named above, a reference is resolved by
    putting the base in front of it, the rendering of a node is its
    [Data]; the decks of the examples are ASCII, so that the Unicode
    lowering is not called. *)
#[local] Instance page_externals : Externals := {|
  URL := string;
  url_Parse := Some;
  url_ResolveReference := λ base link, Ok (default "" base +:+ link);
  url_String := id;
  html_Parse := λ _, Some (0, store_page);
  html_Render := λ σ l, Data <$> nodes σ !! l;
  css_Select := λ sel _ _,
    if String.eqb sel "div.Documentation-function" then [1]
    else if String.eqb sel
              "div.Documentation-function h4.Documentation-functionHeader"
    then [2]
    else if String.eqb sel "a.Documentation-source" then [3]
    else [];
  Regexp := string;
  regexp_MustCompile := Ok;
  regexp_ReplaceAllString := λ _ src _, src;
  MatchingNodes := λ _ _ _, [];
  unicode_ToLower := id
|}.

(** A declaration block, a spacer, a paragraph and a spacer. *)
Definition store_block : Store :=
  mkStore
    [ elem "section" None (Some 1) (Some 4) None None None;
      elem "div" (Some 0) None None None (Some 2) None;
      text " " (Some 0) (Some 1) (Some 3);
      elem "p" (Some 0) None None (Some 2) (Some 4) None;
      text " " (Some 0) (Some 3) None ]
    [].

(** The libraries on [store_block]: the selector of the variable blocks
    finds the div, the other selectors find nothing. *)
#[local] Instance block_externals : Externals := {|
  URL := string;
  url_Parse := Some;
  url_ResolveReference := λ base link, Ok (default "" base +:+ link);
  url_String := id;
  html_Parse := λ _, Some (0, store_block);
  html_Render := λ σ l, Data <$> nodes σ !! l;
  css_Select := λ sel _ _,
    if String.eqb sel
         "section.Documentation-variables div.Documentation-declaration"
    then [1] else [];
  Regexp := string;
  regexp_MustCompile := Ok;
  regexp_ReplaceAllString := λ _ src _, src;
  MatchingNodes := λ _ _ _, [];
  unicode_ToLower := id
|}.

(** The libraries on a page without declarations: as above, but no
    selector finds a node. *)
#[local] Instance blank_externals : Externals := {|
  URL := string;
  url_Parse := Some;
  url_ResolveReference := λ base link, Ok (default "" base +:+ link);
  url_String := id;
  html_Parse := λ _, Some (0, store_div);
  html_Render := λ σ l, Data <$> nodes σ !! l;
  css_Select := λ _ _ _, [];
  Regexp := string;
  regexp_MustCompile := Ok;
  regexp_ReplaceAllString := λ _ src _, src;
  MatchingNodes := λ _ _ _, [];
  unicode_ToLower := id
|}.

(** A task whose download failed once and then succeeded: it carries the
    error of the first attempt and the payload of the second. *)
Definition task_retried : Task :=
  mkTask "https://pkg.go.dev/fmt" "Go::std::fmt" [Byte.x3c] []
         (Some (DownloadFailed "Go::std::fmt" None (TransportError "timeout"))).
End Examples.

(** ** Well-formed sibling chains *)

Fixpoint addrs (f : forest) : list loc :=
  match f with
  | fnil => []
  | fcons a _ kids rest => a :: addrs kids ++ addrs rest
  end.

Inductive forest_at (σ : Store) : forest → Prop :=
  | forest_at_nil : forest_at σ fnil
  | forest_at_cons a n attrs kids rest :
      nodes σ !! a = Some n →
      slice_of σ (Attr n) = Some attrs →
      FirstChild n = head_addr kids →
      NextSibling n = head_addr rest →
      forest_at σ kids →
      forest_at σ rest →
      forest_at σ (fcons a (content_of n attrs) kids rest).

(** Every entry of [l] is still there in [l']. *)
Definition preserves {A} (l l' : list A) : Prop :=
  ∀ i x, l !! i = Some x → l' !! i = Some x.

(** * The vocabulary of the statements *)

Section vocabulary.
Import HTMLTrees.

Definition ptr_in (b e : nat) (p : option loc) : Prop :=
  match p with None => True | Some q => b ≤ q < e end.

Definition node_in (b e ba ea : nat) (n : Node) : Prop :=
  ptr_in b e (Parent n) ∧ ptr_in b e (FirstChild n) ∧ ptr_in b e (LastChild n) ∧
  ptr_in b e (PrevSibling n) ∧ ptr_in b e (NextSibling n) ∧ ptr_in ba ea (Attr n).

(** The nodes from [b] on only point to nodes from [b] on and to backing
    arrays from [ba] on, and nothing dangles. *)
Definition closed_above (b ba : nat) (σ : Store) : Prop :=
  ∀ l n, b ≤ l → nodes σ !! l = Some n →
    node_in b (length (nodes σ)) ba (length (arrays σ)) n.

(** The cells from [b] up to [e] only point to each other, and to the
    backing arrays from [ba] up to [ea]. *)
Definition closed_region (b e ba ea : nat) (σ : Store) : Prop :=
  ∀ l n, b ≤ l < e → nodes σ !! l = Some n → node_in b e ba ea n.

Fixpoint all_nodes (P : loc → forest → Prop) (f : forest) : Prop :=
  match f with
  | fnil => True
  | fcons a _ kids rest => P a kids ∧ all_nodes P kids ∧ all_nodes P rest
  end.

(** Fuel that suffices for the loops that walk a forest. *)
Fixpoint depth (f : forest) : nat :=
  match f with
  | fnil => 1
  | fcons _ _ kids rest => S (S (depth kids) `max` depth rest)
  end.

Fixpoint last_sibling (f : forest) (d : option loc) : option loc :=
  match f with
  | fnil => d
  | fcons a _ _ rest => last_sibling rest (Some a)
  end.

(** The pointers that [reify] does not follow.  In the sibling chain [f]
    under [parent], after the sibling [prev], every node points back to
    its parent and to the sibling before it, and to the last of its
    children. *)
Fixpoint links_ok (σ : Store) (parent prev : option loc) (f : forest) : Prop :=
  match f with
  | fnil => True
  | fcons a _ kids rest =>
      (∃ n, nodes σ !! a = Some n ∧ Parent n = parent ∧ PrevSibling n = prev ∧
            LastChild n = last_sibling kids None) ∧
      links_ok σ (Some a) None kids ∧
      links_ok σ parent (Some a) rest
  end.

(** The statements of the loop body of [rec] from [Copy(c)] to the
    linking of [prev], as one step. *)
Definition link (c cpy : loc) (prev : option loc) (σ : Store)
  : result (loc * Store) :=
  '(cur, σ) ← Copy c σ;
  σ ← update cur (with_Parent (Some cpy)) σ;
  ncpy ← node_at σ cpy;
  σ ← match FirstChild ncpy with
      | None => update cpy (with_FirstChild (Some cur)) σ
      | Some _ => Ok σ
      end;
  σ ← match prev with
      | Some p =>
          σ ← update cur (with_PrevSibling (Some p)) σ;
          update p (with_NextSibling (Some cur)) σ
      | None => Ok σ
      end;
  Ok (cur, σ).

Definition prev_ok (b : nat) (σ : Store) (cpy : loc) (ncpy : Node) (prev : option loc)
  : Prop :=
  match prev with
  | None => FirstChild ncpy = None
  | Some p =>
      is_Some (FirstChild ncpy) ∧ b ≤ p ∧ p ≠ cpy ∧
      ∃ np, nodes σ !! p = Some np ∧ NextSibling np = None
  end.

(** The closure [sel] computes the relevance test [R]: on a node of the
    store [σ0] that satisfies [D], in any store that still has the cells
    of [σ0], from a state that satisfies [Inv], it returns what [R] says
    of the node and its children and keeps [Inv]. *)
Definition computes {St : Type} (sel : loc → Store → St → result (bool * St))
    (σ0 : Store) (R : loc → forest → bool) (Inv : St → Prop)
    (D : loc → forest → Prop) : Prop :=
  ∀ l n kids σ s,
    D l kids →
    nodes σ0 !! l = Some n → FirstChild n = head_addr kids →
    forest_at σ0 kids →
    Inv s →
    preserves (nodes σ0) (nodes σ) → preserves (arrays σ0) (arrays σ) →
    ∃ s', sel l σ s = Ok (R l kids, s') ∧ Inv s'.

(** The text-type nodes of a sibling chain, each with the text-type nodes
    below it. *)
Fixpoint texts (f : forest) : forest :=
  match f with
  | fnil => fnil
  | fcons a c kids rest =>
      if is_TextNode (cType c) then fcons a c (texts kids) (texts rest)
      else texts rest
  end.

Fixpoint no_text (f : forest) : bool :=
  match f with
  | fnil => true
  | fcons _ c _ rest => negb (is_TextNode (cType c)) && no_text rest
  end.

(** The tree that is left when no node is relevant: the root and the
    text-type nodes that hang from it through text-type nodes only. *)
Definition root_with_texts (t : forest) : forest :=
  match t with
  | fnil => fnil
  | fcons a c kids _ => fcons a c (texts kids) fnil
  end.

Definition root_only (t : forest) : Prop :=
  match t with fcons _ _ fnil fnil => True | _ => False end.

(** The tree under the new root for a stateless predicate, when the
    run returns. *)
Definition projection (fuel : nat) (p : loc → bool) (σ : Store) (root : loc)
  : option forest :=
  match DeepCopyFunc (pure_sel p) fuel root σ () with
  | Ok (newRoot, σ', _) => reify fuel σ' newRoot
  | _ => None
  end.

(** C2 as it is stated: with a predicate that accepts no node the
    projection is a root without children. *)
Definition reject_all_gives_root_only (fuel : nat) (σ : Store) (root : loc)
  : Prop :=
  ∀ t', projection fuel (λ _, false) σ root = Some t' → root_only t'.

(** Some node of the forest satisfies [p]. *)
Fixpoint any_node (p : loc → bool) (f : forest) : bool :=
  match f with
  | fnil => false
  | fcons a _ kids rest => p a || any_node p kids || any_node p rest
  end.

(** C1 as it is stated, in predicate mode: the projection keeps a node
    under its kept parent iff the predicate accepts it, or it is a text
    node, or the predicate accepts a node below it. *)
Definition includes_as_stated (fuel : nat) (p : loc → bool) (σ : Store)
    (root : loc) : Prop :=
  ∀ t t',
    reify fuel σ root = Some t →
    projection fuel p σ root = Some t' →
    erase t' = erase (project (λ a kids, p a || any_node p kids) t).

(** Some node of the forest is in [M]. *)
Fixpoint touches (M : list loc) (f : forest) : bool :=
  match f with
  | fnil => false
  | fcons a _ kids rest =>
      bool_decide (a ∈ M) || touches M kids || touches M rest
  end.

(** The forest of the children of the node [d] of the forest. *)
Fixpoint children_of (d : loc) (f : forest) : option forest :=
  match f with
  | fnil => None
  | fcons a _ kids rest =>
      if decide (a = d) then Some kids
      else match children_of d kids with
           | Some ks => Some ks
           | None => children_of d rest
           end
  end.

(** The nodes of the subtrees of the designated nodes. *)
Definition subtree_cells (subtrees : list loc) (t : forest) : list loc :=
  subtrees ≫= λ d,
    match children_of d t with
    | Some ks => d :: addrs ks
    | None => []
    end.

(** Relevance in designated-set mode: the node lies in a designated
    subtree, or a node below it does. *)
Definition in_or_above (M : list loc) (a : loc) (kids : forest) : bool :=
  bool_decide (a ∈ M) || touches M kids.

(** The node [l] of the store with the forest of its children. *)
Definition tree_at (σ : Store) (l : loc) (ks : forest) : Prop :=
  ∃ n, nodes σ !! l = Some n ∧ FirstChild n = head_addr ks ∧ forest_at σ ks.

(** The top-level nodes of a forest, each with its children. *)
Fixpoint tops (f : forest) : list (loc * forest) :=
  match f with
  | fnil => []
  | fcons a _ kids rest => (a, kids) :: tops rest
  end.

Definition cells (work : list (loc * forest)) : list loc :=
  work ≫= λ w, w.1 :: addrs w.2.

(** What the memo table holds: every marked node as relevant, and for
    any other node of [σ0] it has an entry for, the relevance of the
    node. *)
Definition cache_ok (σ0 : Store) (M : list loc) (cache : gmap nat bool)
  : Prop :=
  (∀ l, l ∈ M → cache !! l = Some true) ∧
  (∀ l b n kids,
     cache !! l = Some b →
     nodes σ0 !! l = Some n → FirstChild n = head_addr kids →
     forest_at σ0 kids →
     b = in_or_above M l kids).

Definition pointers (n : Node) : list (option loc) :=
  [Parent n; FirstChild n; LastChild n; PrevSibling n; NextSibling n].

(** The cells a holder of the pointer [p] can get to. *)
Inductive reachable (σ : Store) (p : loc) : loc → Prop :=
  | reachable_refl : reachable σ p p
  | reachable_step q r n :
      reachable σ p q → nodes σ !! q = Some n → Some r ∈ pointers n →
      reachable σ p r.

(** A rewrite in place of the node [l]: [l.Data = v] or
    [l.Attr[i].Val = v]. *)
Inductive rewrite_at (σ : Store) (l : loc) (σ' : Store) : Prop :=
  | rewrite_Data v : update l (with_Data v) σ = Ok σ' → rewrite_at σ l σ'
  | rewrite_AttrVal i v : set_AttrVal l i v σ = Ok σ' → rewrite_at σ l σ'.

(** Every tree that can be read in [σ] reads the same in [σ']. *)
Definition unchanged (σ σ' : Store) : Prop :=
  ∀ m q t, reify m σ q = Some t → reify m σ' q = Some t.

(** The tree [t'] under [newRoot] lies in cells that were allocated after
    the store [σ]: the root is the first new cell, every node of the tree
    is a new cell, the new cells point to new cells and to new backing
    arrays only, and the cells and arrays of [σ] are as they were. *)
Definition allocated_after (σ σ' : Store) (newRoot : loc) (t' : forest)
  : Prop :=
  newRoot = length (nodes σ) ∧
  (∀ a, a ∈ addrs t' → length (nodes σ) ≤ a) ∧
  closed_above (length (nodes σ)) (length (arrays σ)) σ' ∧
  preserves (nodes σ) (nodes σ') ∧
  preserves (arrays σ) (arrays σ').

(** What [Copy] leaves out: no node of the tree has a Namespace. *)
Definition without_namespace (σ : Store) (t : forest) : Prop :=
  ∀ a n, a ∈ addrs t → nodes σ !! a = Some n → Namespace n = "".

(** Projection A with the test [selA], then projection B with the test
    [selB], of the tree under [root]: what rewrites of A and of B leave
    as it was. *)
Definition share_nothing {StA StB : Type}
    (selA : loc → Store → StA → result (bool * StA))
    (selB : loc → Store → StB → result (bool * StB))
    (σ : Store) (root : loc) (sA : StA) (sB : StB) : Prop :=
  ∃ N, ∀ fuelA, N ≤ fuelA →
    ∃ rA σA sA',
      HTMLTrees.DeepCopyFunc selA fuelA root σ sA = Ok (rA, σA, sA') ∧
      (∀ l σ', reachable σA rA l → rewrite_at σA l σ' → unchanged σ σ') ∧
      ∃ N', ∀ fuelB, N' ≤ fuelB →
        ∃ rB σB sB',
          HTMLTrees.DeepCopyFunc selB fuelB root σA sB = Ok (rB, σB, sB') ∧
          (∀ l σ', reachable σB rB l → rewrite_at σB l σ' →
             unchanged σA σ') ∧
          (∀ l σ', reachable σB rA l → rewrite_at σB l σ' →
             unchanged σ σ' ∧
             ∀ m tB, reify m σB rB = Some tB → reify m σ' rB = Some tB).

End vocabulary.

(** The vocabulary of the statements about the pipeline. *)

Definition creations (calls : list call) : list string :=
  omap (λ c, match c with Decks_Create d => Some d | Notes_Add _ => None end)
       calls.

(** The decks of the tasks that the snapshot does not have, one entry for
    every such task. *)
Definition absent_decks (decks : list string) (inq : list Task) : list string :=
  filter (λ d, d ∉ decks) (deck <$> inq).

(** C8 as it is stated: no deck is created twice in a run. *)
Definition creates_each_deck_once (decks : list string)
    (answers : list (option RestErr)) (inq : list Task) : Prop :=
  NoDup (creations (NoteUploader (Some decks) answers inq).1).

(** The task [t] with the error [e] in the place of its own. *)
Definition set_err (e : option error) (t : Task) : Task :=
  mkTask (url t) (deck t) (html t) (notes t) e.

(** The same outcome, with [f] applied to the value of a run that
    returns. *)
Definition map_result {A B} (f : A → B) (r : result A) : result B :=
  match r with
  | Ok a => Ok (f a)
  | Panic => Panic
  | Fatal e => Fatal e
  | Timeout => Timeout
  end.

(** What the stages may change of a task: they add notes. *)
Definition adds_notes (t t' : Task) : Prop :=
  url t' = url t ∧ deck t' = deck t ∧ html t' = html t ∧ err t' = err t ∧
  notes t `prefix_of` notes t'.

Definition not_fatal {A} (r : result A) : Prop :=
  match r with Fatal _ => False | _ => True end.

Definition is_mismatch (e : fatal_error) : Prop :=
  match e with
  | UnexpectedAmountOfFuncHeaders _ _ | UnexpectedAmountOfTypeHeaders _ _ => True
  | _ => False
  end.

Definition no_mismatch {A} (r : result A) : Prop :=
  match r with Fatal e => ¬ is_mismatch e | _ => True end.

(** The cards of a category made from the pairs (container, header) in
    the order of the two selections. *)
Definition cards_by_pairs `{Externals} (fuel : nat) (root : loc)
    (pairs : list (loc * loc)) (st : Store * Task) : result (Store * Task) :=
  foldM (λ '(container, header), paired_card fuel root container header)
        pairs st.

(** C4 as it is stated: a task that carries an error passes the stage
    untouched. *)
Definition extraction_skipped `{Externals} (fuel : nat) (task : Task) : Prop :=
  is_Some (err task) → process fuel task = Ok task.
(** * The vocabulary of the further properties *)

(** The tree under [root] hangs together: below the root the back
    pointers are right, and the root has no parent and no siblings. *)
Definition well_linked (σ : Store) (root : loc) (t : forest) : Prop :=
  links_ok σ None None t ∧
  ∃ n, nodes σ !! root = Some n ∧ NextSibling n = None.

(** A run of calls of the closure [lookup], each on the memo table that
    the calls before it left, with the answers in the order of the calls. *)
Fixpoint lookups (fuel : nat) (σ : Store) (queries : list loc)
    (cache : gmap nat bool) : result (list bool * gmap nat bool) :=
  match queries with
  | [] => Ok ([], cache)
  | l :: queries =>
      '(b, cache) ← HTMLTrees.lookup fuel σ (Some l) cache;
      '(bs, cache) ← lookups fuel σ queries cache;
      Ok (b :: bs, cache)
  end.

(** The forest [f] has the node [d] with the content [c] and the forest
    [ks] of its children. *)
Inductive subtree_of (d : loc) (c : Content) (ks : forest) : forest → Prop :=
  | subtree_here rest : subtree_of d c ks (fcons d c ks rest)
  | subtree_below a c' kids rest :
      subtree_of d c ks kids → subtree_of d c ks (fcons a c' kids rest)
  | subtree_later a c' kids rest :
      subtree_of d c ks rest → subtree_of d c ks (fcons a c' kids rest).

(** The same for documents: somewhere in [f] there is a node with the
    content [c] and exactly the children [kids]. *)
Inductive has_subtree (c : Content) (kids : doc) : doc → Prop :=
  | has_subtree_here rest : has_subtree c kids (dcons c kids rest)
  | has_subtree_below c' ks rest :
      has_subtree c kids ks → has_subtree c kids (dcons c' ks rest)
  | has_subtree_later c' ks rest :
      has_subtree c kids rest → has_subtree c kids (dcons c' ks rest).

(** The callback [f] of [Modify] leaves the FirstChild and NextSibling
    pointers of every node as they are. *)
Definition keeps_links (f : loc → Store → result Store) : Prop :=
  ∀ l σ σ', f l σ = Ok σ' →
    ∀ q n, nodes σ !! q = Some n →
      ∃ n', nodes σ' !! q = Some n' ∧
        FirstChild n' = FirstChild n ∧ NextSibling n' = NextSibling n.

(** The FirstChild / NextSibling pointers of the store spell out the
    forest [f], whatever the nodes hold. *)
Fixpoint skeleton_at (σ : Store) (f : forest) : Prop :=
  match f with
  | fnil => True
  | fcons a _ kids rest =>
      (∃ n, nodes σ !! a = Some n ∧
            FirstChild n = head_addr kids ∧ NextSibling n = head_addr rest) ∧
      skeleton_at σ kids ∧ skeleton_at σ rest
  end.

(** The vocabulary of the further properties of the pipeline. *)

(** No byte of the string is a colon. *)
Fixpoint colon_free (s : string) : bool :=
  match s with
  | EmptyString => true
  | String c s => negb (is_colon c) && colon_free s
  end.

(** The response is a 429. *)
Definition is_rate_limit (r : http_response) : bool :=
  match r with
  | Response code _ => (code =? 429)%Z
  | GetFailed _ => false
  end.

(** What the downloader leaves of a task as it is. *)
Definition same_request (t t0 : Task) : Prop :=
  url t = url t0 ∧ deck t = deck t0 ∧ notes t = notes t0.


(** The calls for a task when the service accepts every call: the
    creation of its deck when the snapshot lacks it, then its notes. *)
Definition calls_for (decks : list string) (task : Task) : list call :=
  (if bool_decide (deck task ∈ decks) then [] else [Decks_Create (deck task)])
  ++ (Notes_Add <$> notes task).

(** The answer to [client.Notes.Add] lets the uploader go on to the next
    note: no error, or an error value with status 200. *)
Definition accepted (a : option RestErr) : Prop :=
  match a with
  | None => True
  | Some e => StatusCode e = 200%Z
  end.

(** A card as the extraction stage makes it for a task of the deck [d]:
    it names the deck and the model Golang and has no implementation. *)
Definition card_of (d : string) (n : Note) : Prop :=
  DeckName n = d ∧ ModelName n = "Golang" ∧ Implementation n = "".

(** The task [t] is of the deck [d] and has the notes [ns] followed by
    cards that satisfy [P]. *)
Definition extends (d : string) (ns : list Note) (P : Note → Prop) (t : Task)
  : Prop :=
  deck t = d ∧ ∃ new, notes t = ns ++ new ∧ Forall P new.

(** The text of the card of one block of the variables or of the
    constants, and the store as the making of the card leaves it: the ids
    of the block are prefixed, the paragraphs after the block are found,
    and the subtrees of the page they designate are copied and rendered. *)
Definition declaration_front `{Externals} (fuel : nat) (root : loc)
    (span_selector : string) (task : Task) (block : loc) (σ : Store)
  : result (string * Store) :=
  σ ← prefix_ids span_selector block task σ;
  nodes ← following_paragraphs fuel σ block;
  '(cpy, σ) ← HTMLTrees.DeepCopySubtrees fuel root nodes σ;
  front ← HTMLString σ cpy;
  Ok (front, σ).

(** The texts [fronts] are the texts of the cards of [blocks], one for each
    block and in the order of the blocks, the first made in the store [σ]
    and each next one in the store that the one before it left; [σ'] is
    the store that the last one leaves. *)
Inductive fronts_in_order `{Externals} (fuel : nat) (root : loc)
    (span_selector : string) (task : Task)
  : list loc → Store → list string → Store → Prop :=
| fronts_done σ :
    fronts_in_order fuel root span_selector task [] σ [] σ
| fronts_next block blocks σ front σ1 fronts σ' :
    declaration_front fuel root span_selector task block σ = Ok (front, σ1) →
    fronts_in_order fuel root span_selector task blocks σ1 fronts σ' →
    fronts_in_order fuel root span_selector task
      (block :: blocks) σ (front :: fronts) σ'.

(** How a computation ended, without its value. *)
Definition outcome {A} (r : result A) : result unit :=
  match r with
  | Ok _ => Ok ()
  | Panic => Panic
  | Fatal e => Fatal e
  | Timeout => Timeout
  end.

(** The nodes of a sibling chain as the loop over the trailing
    paragraphs sees them: the pointer and the Data of each. *)
Fixpoint siblings (f : forest) : list (loc * string) :=
  match f with
  | fnil => []
  | fcons a c _ rest => (a, cData c) :: siblings rest
  end.

(** The paragraphs that are collected from the siblings after a block or
    after a collected paragraph: the next sibling is stepped over (there
    has to be one), and the sibling after it is collected when its Data is
    p, and so on from there; otherwise the collection ends. *)
Fixpoint trailing (sibs : list (loc * string)) : option (list loc) :=
  match sibs with
  | [] => None
  | _ :: sibs =>
      match sibs with
      | [] => Some []
      | (c, d) :: sibs =>
          if String.eqb d "p" then cons c <$> trailing sibs else Some []
      end
  end.

(** The attribute as the link normalization leaves it when it looks at
    it: the value of an href that parses is replaced by the reference
    resolved against the base. *)
Definition resolved `{Externals} (base : option URL) (x : Attribute)
  : Attribute :=
  if String.eqb (Key x) "href" then
    match url_Parse (Val x) with
    | Some link =>
        match url_ResolveReference base link with
        | Ok target => mkAttribute (AttrNamespace x) (Key x) (url_String target)
        | _ => x
        end
    | None => x
    end
  else x.

(** [pre.] put [k] times in front of [s]. *)
Fixpoint prefixed (k : nat) (pre s : string) : string :=
  match k with
  | 0 => s
  | S k => pre +:+ "." +:+ prefixed k pre s
  end.

(** [a.FirstChild] for a pointer [a], where there is such a node. *)
Definition first_child (σ : Store) (a : loc) : option loc :=
  n ← nodes σ !! a; FirstChild n.

(** The pointer [a] has a first child, and the first child is a node of
    the store. *)
Definition has_first_child (σ : Store) (a : loc) : Prop :=
  ∃ fc nfc, first_child σ a = Some fc ∧ nodes σ !! fc = Some nfc.

(** The body of the loop of [doc_src_add_prefix]. *)
Definition add_prefix (name : string) (node : loc) (σ : Store) : result Store :=
  n ← node_at σ node;
  fc ← of_option (FirstChild n);
  nfc ← node_at σ fc;
  update fc (with_Data (name +:+ "." +:+ Data nfc)) σ.

(** The store [σ] is the store [σ0] after the text of the first child of
    every anchor of [seen] has been prefixed, once for every anchor that
    has it as its first child; nothing else differs. *)
Definition prefixed_by (σ0 : Store) (name : string) (seen : list loc)
    (σ : Store) : Prop :=
  arrays σ = arrays σ0 ∧
  length (nodes σ) = length (nodes σ0) ∧
  ∀ l n, nodes σ0 !! l = Some n →
    nodes σ !! l =
      Some (with_Data
              (prefixed (length (filter (λ a, first_child σ0 a = Some l) seen))
                        name (Data n)) n).

(** * Proofs *)

Section store_lemmas.
Implicit Types (σ : Store) (f : forest).

Lemma preserves_refl {A} (l : list A) : preserves l l.
Proof. by intros i x. Qed.

Lemma preserves_trans {A} (l1 l2 l3 : list A) :
  preserves l1 l2 → preserves l2 l3 → preserves l1 l3.
Proof. intros H1 H2 i x Hi. eauto. Qed.

Lemma preserves_app {A} (l k : list A) : preserves l (l ++ k).
Proof. intros i x Hi. by apply lookup_app_l_Some. Qed.

Lemma preserves_length {A} (l l' : list A) :
  preserves l l' → length l ≤ length l'.
Proof.
  intros H. destruct (decide (length l ≤ length l')) as [|Hn]; [done|].
  destruct (lookup_lt_is_Some_2 l (length l')) as [x Hx]; [lia|].
  apply H, lookup_lt_Some in Hx. lia.
Qed.

Lemma slice_of_preserves σ σ' s attrs :
  preserves (arrays σ) (arrays σ') →
  slice_of σ s = Some attrs → slice_of σ' s = Some attrs.
Proof. destruct s; simpl; eauto. Qed.

Lemma reify_chain_sound fuel σ c f :
  reify_chain fuel σ c = Some f → forest_at σ f ∧ c = head_addr f.
Proof.
  revert c f. induction fuel as [|fuel IH]; intros c f; [done|].
  simpl. destruct c as [l|]; [|intros [= <-]; split; [constructor|done]].
  destruct (nodes σ !! l) as [n|] eqn:Hn; [|done]. simpl.
  destruct (slice_of σ (Attr n)) as [attrs|] eqn:Ha; [|done]. simpl.
  destruct (reify_chain fuel σ (FirstChild n)) as [kids|] eqn:Hk; [|done].
  simpl.
  destruct (reify_chain fuel σ (NextSibling n)) as [rest|] eqn:Hr; [|done].
  simpl. intros [= <-].
  apply IH in Hk as [??]. apply IH in Hr as [??].
  split; [by econstructor|done].
Qed.

Lemma reify_chain_complete σ f :
  forest_at σ f →
  ∃ N, ∀ fuel, N ≤ fuel → reify_chain fuel σ (head_addr f) = Some f.
Proof.
  induction 1 as [|a n attrs kids rest Hn Ha Hk Hr _ [N1 IH1] _ [N2 IH2]].
  - exists 1. intros [|fuel] ?; [lia|done].
  - exists (S (N1 `max` N2)). intros [|fuel] ?; [lia|].
    simpl. rewrite Hn. simpl. rewrite Ha. simpl.
    rewrite Hk, IH1 by lia. simpl. rewrite Hr, IH2 by lia. done.
Qed.

Lemma forest_at_frame σ σ' f :
  forest_at σ f →
  (∀ a, a ∈ addrs f → nodes σ' !! a = nodes σ !! a) →
  preserves (arrays σ) (arrays σ') →
  forest_at σ' f.
Proof.
  intros Hf. induction Hf as [|a n attrs kids rest Hn Ha Hk Hr _ IH1 _ IH2];
    intros Hsame Harr; [constructor|].
  simpl in Hsame. econstructor; eauto using slice_of_preserves.
  - rewrite Hsame; [done|]. set_solver.
  - apply IH1; [|done]. intros b Hb. apply Hsame. set_solver.
  - apply IH2; [|done]. intros b Hb. apply Hsame. set_solver.
Qed.

Lemma forest_at_bound σ f a :
  forest_at σ f → a ∈ addrs f → a < length (nodes σ).
Proof.
  induction 1 as [|a' n attrs kids rest Hn Ha Hk Hr _ IH1 _ IH2]; simpl.
  - set_solver.
  - rewrite elem_of_cons, elem_of_app. intros [->|[?|?]]; eauto.
    by eapply lookup_lt_Some.
Qed.
End store_lemmas.

(** ** The steps of [rec] on the store *)

Section step_lemmas.
Import HTMLTrees.
Implicit Types (σ : Store) (n : Node).

Lemma node_at_Some σ p n : nodes σ !! p = Some n → node_at σ p = Ok n.
Proof. unfold node_at. by intros ->. Qed.

Lemma update_Some σ p n f :
  nodes σ !! p = Some n →
  update p f σ = Ok (mkStore (<[p := f n]> (nodes σ)) (arrays σ)).
Proof. intros H. unfold update. by rewrite (node_at_Some _ _ _ H). Qed.

Lemma copy_into_fresh (src : list Attribute) :
  let k := length (replicate (length src) zero_Attribute) `min` length src in
  take k src ++ drop k (replicate (length src) zero_Attribute) = src.
Proof.
  simpl. rewrite length_replicate, Nat.min_id, firstn_all.
  rewrite drop_ge by (by rewrite length_replicate). apply app_nil_r.
Qed.

Lemma make_then_copy σ (src : list Attribute) :
  copy_attr (Some (length (arrays σ))) src (make_attr (length src) σ).2
  = Ok (mkStore (nodes σ) (arrays σ ++ [src])).
Proof.
  unfold copy_attr, make_attr. cbn [snd arrays nodes].
  rewrite lookup_app_r, Nat.sub_diag by done. cbn.
  rewrite insert_app_r_alt, Nat.sub_diag by done. cbn.
  do 4 f_equal. apply copy_into_fresh.
Qed.

Lemma Copy_Some σ c nc attrs :
  nodes σ !! c = Some nc →
  slice_of σ (Attr nc) = Some attrs →
  ∃ attr' arrs',
    Copy c σ = Ok (length (nodes σ),
                   mkStore (nodes σ ++ [mkNode None None None None None
                      (Type_ nc) (DataAtom nc) (Data nc) "" attr']) arrs') ∧
    preserves (arrays σ) arrs' ∧
    length (arrays σ) ≤ length arrs' ∧
    ptr_in (length (arrays σ)) (length arrs') attr' ∧
    (∀ ns, slice_of (mkStore ns arrs') attr' = Some attrs).
Proof.
  intros Hc Ha. unfold Copy. rewrite (node_at_Some _ _ _ Hc). cbn.
  rewrite Ha. cbn. case_bool_decide as Hlen.
  - pose proof (make_then_copy σ attrs) as Hmc.
    unfold make_attr in Hmc. cbn [snd] in Hmc. rewrite Hmc. cbn.
    exists (Some (length (arrays σ))), (arrays σ ++ [attrs]).
    rewrite length_app. cbn.
    split_and!; try done; try apply preserves_app; try (cbn; lia).
    intros ns. cbn. by rewrite lookup_app_r, Nat.sub_diag.
  - cbn. exists None, (arrays σ).
    split_and!; try done; try apply preserves_refl.
    intros ns. cbn. destruct attrs; [done|cbn in Hlen; lia].
Qed.
End step_lemmas.

Section rec_loop_unfolding.
Import HTMLTrees.
Context {St : Type}.
Variable sel : loc → Store → St → result (bool * St).

Lemma rec_loop_keep fuel c cpy prev σ s b s1 nc :
  sel c σ s = Ok (b, s1) →
  nodes σ !! c = Some nc →
  b || is_TextNode (Type_ nc) = true →
  rec_loop sel (S fuel) (Some c) cpy prev σ s =
    '(cur, σ) ← link c cpy prev σ;
    nc ← node_at σ c;
    '(σ, s) ← rec_loop sel fuel (FirstChild nc) cur None σ s1;
    nc ← node_at σ c;
    rec_loop sel fuel (NextSibling nc) cpy (Some cur) σ s.
Proof.
  intros Hsel Hc Hb. cbn [rec_loop]. rewrite Hsel. cbn.
  rewrite (node_at_Some _ _ _ Hc). cbn. rewrite Hb. unfold link.
  destruct (Copy c σ) as [[cur σ1]| | |]; cbn; [|done..].
  destruct (update cur _ σ1) as [σ2| | |]; cbn; [|done..].
  destruct (node_at σ2 cpy) as [ncpy| | |]; cbn; [|done..].
  destruct (match FirstChild ncpy with None => _ | Some _ => _ end)
    as [σ3| | |]; cbn; [|done..].
  destruct prev as [p|]; cbn; [|done].
  destruct (update cur _ σ3) as [σ3'| | |]; cbn; [|done..].
  destruct (update p _ σ3') as [σ4| | |]; cbn; done.
Qed.

Lemma rec_loop_skip fuel c cpy prev σ s b s1 nc :
  sel c σ s = Ok (b, s1) →
  nodes σ !! c = Some nc →
  b || is_TextNode (Type_ nc) = false →
  rec_loop sel (S fuel) (Some c) cpy prev σ s =
    rec_loop sel fuel (NextSibling nc) cpy prev σ s1.
Proof.
  intros Hsel Hc Hb. cbn [rec_loop]. rewrite Hsel. cbn.
  rewrite (node_at_Some _ _ _ Hc). cbn. by rewrite Hb.
Qed.

Lemma rec_loop_exit fuel cpy prev σ s ncpy :
  nodes σ !! cpy = Some ncpy →
  rec_loop sel (S fuel) None cpy prev σ s =
    Ok (mkStore (<[cpy := with_LastChild prev ncpy]> (nodes σ)) (arrays σ), s).
Proof. intros Hc. cbn [rec_loop]. by rewrite (update_Some _ _ _ _ Hc). Qed.
End rec_loop_unfolding.

Section closed_lemmas.
Implicit Types (σ : Store) (n : Node).

Lemma ptr_in_mono b e e' p : ptr_in b e p → e ≤ e' → ptr_in b e' p.
Proof. destruct p; simpl; lia. Qed.

Lemma node_in_mono b e e' ba ea ea' n :
  node_in b e ba ea n → e ≤ e' → ea ≤ ea' → node_in b e' ba ea' n.
Proof.
  unfold node_in. intros (?&?&?&?&?&?) ??.
  split_and!; eapply ptr_in_mono; eauto.
Qed.

Lemma closed_above_insert b ba ns arrs p x :
  closed_above b ba (mkStore ns arrs) →
  node_in b (length ns) ba (length arrs) x →
  closed_above b ba (mkStore (<[p := x]> ns) arrs).
Proof.
  intros Hcl Hx l n Hl. cbn. rewrite length_insert.
  intros [[-> [-> ?]]|[? Hn]]%list_lookup_insert_Some; [done|].
  by apply (Hcl l n).
Qed.

Lemma closed_above_alloc b ba ns arrs arrs' x :
  closed_above b ba (mkStore ns arrs) →
  length arrs ≤ length arrs' →
  node_in b (S (length ns)) ba (length arrs') x →
  closed_above b ba (mkStore (ns ++ [x]) arrs').
Proof.
  intros Hcl Hle Hx l n Hl. cbn. rewrite length_app. cbn.
  intros [Hn|[? Hn]]%lookup_app_Some.
  - eapply node_in_mono; [by apply (Hcl l n)|cbn; lia|done].
  - destruct (l - length ns) eqn:?; [|done]. injection Hn as <-.
    eapply node_in_mono; [done|lia|done].
Qed.

Lemma closed_above_node b ba σ l n :
  closed_above b ba σ → b ≤ l → nodes σ !! l = Some n →
  node_in b (length (nodes σ)) ba (length (arrays σ)) n.
Proof. intros H. apply H. Qed.

Lemma with_FirstChild_id n : with_FirstChild (FirstChild n) n = n.
Proof. by destruct n. Qed.

Lemma with_NextSibling_id n : with_NextSibling (NextSibling n) n = n.
Proof. by destruct n. Qed.
End closed_lemmas.

Ltac lookup_tac :=
  repeat first
    [ rewrite list_lookup_insert_ne by lia
    | rewrite list_lookup_insert_eq
        by (rewrite ?length_insert, ?length_app; cbn; lia)
    | rewrite lookup_app_l by (rewrite ?length_insert; lia)
    | rewrite lookup_app_r by (rewrite ?length_insert; lia)
    | rewrite length_insert
    | rewrite Nat.sub_diag ].

Section link_spec.
Import HTMLTrees.
Implicit Types (σ : Store) (n : Node).

Lemma link_spec b ba σ c nc attrs cpy ncpy prev :
  nodes σ !! c = Some nc →
  slice_of σ (Attr nc) = Some attrs →
  nodes σ !! cpy = Some ncpy →
  b ≤ cpy → ba ≤ length (arrays σ) →
  prev_ok b σ cpy ncpy prev →
  closed_above b ba σ →
  let cur := length (nodes σ) in
  ∃ σ4 attr',
    link c cpy prev σ = Ok (cur, σ4) ∧
    length (nodes σ4) = S cur ∧
    nodes σ4 !! cur =
      Some (mkNode (Some cpy) None None prev None
                   (Type_ nc) (DataAtom nc) (Data nc) "" attr') ∧
    slice_of σ4 attr' = Some attrs ∧
    preserves (arrays σ) (arrays σ4) ∧
    nodes σ4 !! cpy =
      Some (match prev with
            | None => with_FirstChild (Some cur) ncpy
            | Some _ => ncpy
            end) ∧
    (∀ p np, prev = Some p → nodes σ !! p = Some np →
       nodes σ4 !! p = Some (with_NextSibling (Some cur) np)) ∧
    (∀ l, l < cur → l ≠ cpy → prev ≠ Some l →
       nodes σ4 !! l = nodes σ !! l) ∧
    closed_above b ba σ4.
Proof.
  intros Hc Ha Hcpy Hb Hba Hprev Hcl cur.
  destruct (Copy_Some σ c nc attrs Hc Ha)
    as (attr' & arrs' & HCopy & Harr & Hlen & Hattr & Hslice).
  pose proof (lookup_lt_Some _ _ _ Hcpy) as Hcpy_lt.
  unfold link. rewrite HCopy. cbn. fold cur.
  set (n0 := mkNode None None None None None
               (Type_ nc) (DataAtom nc) (Data nc) "" attr').
  assert (ptr_in ba (length arrs') attr') as Hattr'.
  { destruct attr'; cbn in *; [lia|done]. }
  assert (closed_above b ba (mkStore (nodes σ ++ [n0]) arrs')) as Hcl1.
  { destruct σ as [ns arrs]. apply (closed_above_alloc b ba ns arrs); [done..|].
    unfold node_in, n0. cbn. by split_and!. }
  erewrite update_Some by (cbn; unfold cur; by lookup_tac). cbn.
  erewrite node_at_Some by (cbn; unfold cur; lookup_tac; done). cbn.
  assert (node_in b (S cur) ba (length arrs') ncpy) as Hncpy.
  { eapply node_in_mono;
      [exact (closed_above_node _ _ _ _ _ Hcl Hb Hcpy)|unfold cur; lia|done]. }
  destruct prev as [p|]; cbn in Hprev.
  - destruct Hprev as ([x Hx] & Hp & Hne & np & Hnp & Hnext).
    pose proof (lookup_lt_Some _ _ _ Hnp) as Hp_lt.
    rewrite Hx. cbn.
    erewrite update_Some by (cbn; unfold cur; by lookup_tac). cbn.
    erewrite update_Some by (cbn; unfold cur; lookup_tac; done). cbn.
    eexists _, attr'. split; [reflexivity|]. cbn.
    split_and!.
    + lookup_tac. rewrite length_app. cbn. lia.
    + unfold cur. by lookup_tac.
    + apply Hslice.
    + done.
    + unfold cur. by lookup_tac.
    + intros p' np' [= <-] Hnp'. unfold cur.
      rewrite list_lookup_insert_eq; [congruence|].
      lookup_tac. rewrite length_app. lia.
    + intros l Hl Hne1 Hne2. unfold cur in *.
      assert (l ≠ p) by congruence. by lookup_tac.
    + repeat apply closed_above_insert; [done|..]; rewrite ?length_insert;
        rewrite length_app; cbn; fold cur.
      * unfold node_in, n0. cbn. split_and!; try done; lia.
      * unfold node_in, n0. cbn. split_and!; try done; lia.
      * assert (node_in b (S cur) ba (length arrs') np) as Hnp'.
        { eapply node_in_mono;
            [exact (closed_above_node _ _ _ _ _ Hcl Hp Hnp)|unfold cur; lia|done]. }
        rewrite Nat.add_1_r. unfold node_in in *. cbn.
        destruct Hnp' as (?&?&?&?&?&?). split_and!; try done; lia.
  - rewrite Hprev. cbn.
    erewrite update_Some by (cbn; unfold cur; lookup_tac; done). cbn.
    eexists _, attr'. split; [reflexivity|]. cbn.
    split_and!.
    + lookup_tac. rewrite length_app. cbn. lia.
    + unfold cur. by lookup_tac.
    + apply Hslice.
    + done.
    + rewrite list_lookup_insert_eq; [done|].
      lookup_tac. rewrite length_app. lia.
    + done.
    + intros l Hl Hne1 Hne2. unfold cur in *. by lookup_tac.
    + repeat apply closed_above_insert; [done|..]; rewrite ?length_insert;
        rewrite length_app; cbn; fold cur.
      * unfold node_in, n0. cbn. split_and!; try done; lia.
      * rewrite Nat.add_1_r. unfold node_in in *. cbn.
        destruct Hncpy as (?&?&?&?&?&?). split_and!; try done; lia.
Qed.
End link_spec.

Lemma links_ok_frame σ σ' parent prev f :
  links_ok σ parent prev f →
  (∀ a, a ∈ addrs f → nodes σ' !! a = nodes σ !! a) →
  links_ok σ' parent prev f.
Proof.
  revert parent prev.
  induction f as [|a c kids IH1 rest IH2]; intros parent prev; [done|].
  cbn. intros ((n & Hn & Hlinks) & Hkids & Hrest) Hsame. split_and!.
  - exists n. rewrite Hsame; [done|]. apply list_elem_of_here.
  - apply IH1; [done|]. intros x Hx. apply Hsame.
    apply list_elem_of_further, elem_of_app. by left.
  - apply IH2; [done|]. intros x Hx. apply Hsame.
    apply list_elem_of_further, elem_of_app. by right.
Qed.

(** ** What [rec] builds *)

Section rec_correct.
Import HTMLTrees.
Context {St : Type}.
Variable sel : loc → Store → St → result (bool * St).
(** The store the projection starts from, the relevance test [R] that
    [sel] computes on the nodes [D] of the source tree, and what [sel]
    needs of its own state. *)
Variable σ0 : Store.
Variable R : loc → forest → bool.
Variable Inv : St → Prop.
Variable D : loc → forest → Prop.

Hypothesis sel_sound : computes sel σ0 R Inv D.

(** The copies are made from cell [b] and array [ba] on. *)
Variables b ba : nat.
Hypothesis b_fresh : length (nodes σ0) ≤ b.
Hypothesis ba_fresh : length (arrays σ0) ≤ ba.

Lemma rec_loop_spec f :
  forest_at σ0 f →
  all_nodes D f →
  ∀ fuel σ s cpy ncpy prev,
    depth f ≤ fuel →
    preserves (nodes σ0) (nodes σ) →
    preserves (arrays σ0) (arrays σ) →
    closed_above b ba σ →
    ba ≤ length (arrays σ) →
    Inv s →
    b ≤ cpy →
    nodes σ !! cpy = Some ncpy →
    prev_ok b σ cpy ncpy prev →
    ∃ σ' s' f',
      rec_loop sel fuel (head_addr f) cpy prev σ s = Ok (σ', s') ∧
      Inv s' ∧
      forest_at σ' f' ∧
      erase f' = erase (prune R f) ∧
      (∀ a, a ∈ addrs f' → length (nodes σ) ≤ a) ∧
      length (nodes σ) ≤ length (nodes σ') ∧
      preserves (arrays σ) (arrays σ') ∧
      closed_above b ba σ' ∧
      (∀ l, l < length (nodes σ) → l ≠ cpy → prev ≠ Some l →
         nodes σ' !! l = nodes σ !! l) ∧
      nodes σ' !! cpy =
        Some (with_LastChild (last_sibling f' prev)
               (with_FirstChild
                  (match prev with
                   | None => head_addr f'
                   | Some _ => FirstChild ncpy
                   end) ncpy)) ∧
      (∀ p np, prev = Some p → nodes σ !! p = Some np →
         nodes σ' !! p = Some (with_NextSibling (head_addr f') np)) ∧
      links_ok σ' (Some cpy) prev f' ∧
      (∀ a na, a ∈ addrs f' → nodes σ' !! a = Some na → Namespace na = "").
Proof.
  induction 1 as [|a n attrs kids rest Hn Ha Hk Hr Hkids IH1 _ IH2];
    intros HD.
  - (* the loop exits *)
    intros [|fuel] σ s cpy ncpy prev ? Hσ Harr Hcl Hba Hs Hb Hcpy Hprev;
      [cbn in *; lia|].
    cbn [head_addr]. rewrite (rec_loop_exit _ _ _ _ _ _ _ Hcpy).
    eexists _, s, fnil. split; [reflexivity|]. cbn.
    pose proof (lookup_lt_Some _ _ _ Hcpy) as Hlt.
    split_and!.
    + done.
    + constructor.
    + done.
    + set_solver.
    + by rewrite length_insert.
    + apply preserves_refl.
    + destruct σ as [ns arrs]. apply closed_above_insert; [done|].
      pose proof (closed_above_node _ _ _ _ _ Hcl Hb Hcpy) as Hin.
      unfold node_in in *. cbn in *. destruct Hin as (?&?&?&?&?&?).
      split_and!; try done.
      destruct prev as [p|]; cbn in *; [|done].
      destruct Hprev as (_ & ? & _ & np & Hnp%lookup_lt_Some & _). lia.
    + intros l ???. by rewrite list_lookup_insert_ne.
    + rewrite list_lookup_insert_eq by done. f_equal.
      destruct prev; cbn in Hprev.
      * by rewrite with_FirstChild_id.
      * by rewrite <- Hprev, with_FirstChild_id.
    + intros p np -> Hnp. cbn in Hprev.
      destruct Hprev as (_ & _ & ? & np' & Hnp' & Hnext).
      rewrite list_lookup_insert_ne by done.
      rewrite Hnp. f_equal. replace np' with np in * by congruence.
      by rewrite <- Hnext, with_NextSibling_id.
    + done.
    + by intros a na ?%elem_of_nil.
  - (* the loop looks at node [a] *)
    destruct HD as (HDa & HDk & HDr).
    specialize (IH1 HDk). specialize (IH2 HDr).
    intros [|fuel] σ s cpy ncpy prev Hfuel Hσ Harr Hcl Hba Hs Hb Hcpy Hprev;
      [cbn in *; lia|].
    cbn [depth] in Hfuel. cbn [head_addr].
    destruct (sel_sound a n kids σ s) as (s1 & Hsel & Hs1); [done..|].
    pose proof (Hσ _ _ Hn) as Hn'.
    pose proof (slice_of_preserves _ _ _ _ Harr Ha) as Ha'.
    pose proof (lookup_lt_Some _ _ _ Hcpy) as Hcpy_lt.
    pose proof (lookup_lt_Some _ _ _ Hn) as Ha_lt.
    destruct (R a kids || is_TextNode (Type_ n)) eqn:Hkeep; cycle 1.
    { (* skipped *)
      rewrite (rec_loop_skip _ _ _ _ _ _ _ _ _ _ Hsel Hn' Hkeep), Hr.
      destruct (IH2 fuel σ s1 cpy ncpy prev) as (σ' & s' & f' & Hrun & Hrest);
        [lia|done..|].
      exists σ', s', f'. split; [done|]. cbn. by rewrite Hkeep. }
    (* copied *)
    rewrite (rec_loop_keep _ _ _ _ _ _ _ _ _ _ Hsel Hn' Hkeep).
    destruct (link_spec b ba σ a n attrs cpy ncpy prev)
      as (σ4 & attr' & Hlink & Hlen4 & Hcur4 & Hslice4 & Harr4 & Hcpy4
          & Hp4 & Hframe4 & Hcl4); [done..|].
    rewrite Hlink. cbn.
    pose proof (preserves_length _ _ Harr4) as Hlen_arr4.
    set (cur := length (nodes σ)) in *.
    assert (preserves (nodes σ0) (nodes σ4)) as Hσ4.
    { intros l x Hl. pose proof (lookup_lt_Some _ _ _ Hl).
      rewrite Hframe4; [by apply Hσ|lia..|].
      destruct prev as [p|]; [|done]. cbn in Hprev. intros [= ->]. lia. }
    assert (preserves (arrays σ0) (arrays σ4)) as Harr04
      by eauto using preserves_trans.
    rewrite (node_at_Some _ _ _ (Hσ4 _ _ Hn)). cbn. rewrite Hk.
    (* the children of [a] go under [cur] *)
    edestruct (IH1 fuel σ4 s1 cur) with (prev := @None nat)
      as (σ5 & s5 & kids' & Hrun5 & Hs5 & Hf5 & He5 & Hfresh5 & Hlen5
          & Harr5 & Hcl5 & Hframe5 & Hcur5 & _ & Hlinks5 & Hns5);
      [lia|done|done|done|lia|done|unfold cur; lia|exact Hcur4|done|].
    rewrite Hrun5. cbn.
    pose proof (preserves_length _ _ Harr5) as Hlen_arr5.
    assert (preserves (nodes σ0) (nodes σ5)) as Hσ5.
    { intros l x Hl. pose proof (lookup_lt_Some _ _ _ Hl).
      rewrite Hframe5; [by apply Hσ4|unfold cur in *; lia..|done]. }
    assert (preserves (arrays σ0) (arrays σ5)) as Harr05
      by eauto using preserves_trans.
    rewrite (node_at_Some _ _ _ (Hσ5 _ _ Hn)). cbn. rewrite Hr.
    (* the later siblings of [a] go after [cur] *)
    assert (nodes σ5 !! cpy = nodes σ4 !! cpy) as Hcpy5.
    { apply Hframe5; [|unfold cur|done]; lia. }
    rewrite Hcpy4 in Hcpy5.
    edestruct (IH2 fuel σ5 s5 cpy) with (prev := Some cur)
      as (σ6 & s6 & rest' & Hrun6 & Hs6 & Hf6 & He6 & Hfresh6 & Hlen6
          & Harr6 & Hcl6 & Hframe6 & Hcpy6 & Hcur6 & Hlinks6 & Hns6);
      [lia|done|done|done|lia|done|done|exact Hcpy5| |].
    { cbn. split_and!.
      - destruct prev; cbn in Hprev; [by destruct Hprev|by eexists].
      - unfold cur. lia.
      - unfold cur. lia.
      - eexists. split; [exact Hcur5|done]. }
    rewrite Hrun6.
    specialize (Hcur6 _ _ eq_refl Hcur5). cbn in Hcur6.
    set (c' := content_of n attrs).
    exists σ6, s6, (fcons cur c' kids' rest').
    split; [done|]. split; [done|].
    assert (forest_at σ6 (fcons cur c' kids' rest')) as Hf.
    { assert (c' = content_of
                (with_NextSibling (head_addr rest')
                  (with_LastChild (last_sibling kids' None)
                    (with_FirstChild (head_addr kids')
                      (mkNode (Some cpy) None None prev None (Type_ n)
                         (DataAtom n) (Data n) "" attr')))) attrs) as ->
        by done.
      econstructor; [exact Hcur6| |done|done| |done].
      - cbn. eapply slice_of_preserves; [|exact Hslice4].
        eauto using preserves_trans.
      - eapply forest_at_frame; [exact Hf5| |done].
        intros x Hx. pose proof (Hfresh5 _ Hx).
        pose proof (forest_at_bound _ _ _ Hf5 Hx).
        apply Hframe6; [lia|lia|]. intros [= Heq]. unfold cur in *. lia. }
    split; [done|]. cbn. rewrite Hkeep. cbn. rewrite He5, He6.
    split; [done|].
    split_and!.
    + intros x. rewrite elem_of_cons, elem_of_app. intros [->|[Hx|Hx]].
      * done.
      * apply Hfresh5 in Hx. lia.
      * apply Hfresh6 in Hx. lia.
    + lia.
    + eauto using preserves_trans.
    + done.
    + intros l Hl Hne1 Hne2.
      rewrite Hframe6, Hframe5, Hframe4; try done; try lia.
      intros [= Heq]. unfold cur in *. lia.
    + rewrite Hcpy6. f_equal. destruct prev; cbn in Hprev; cbn.
      * done.
      * by destruct ncpy.
    + intros p np -> Hnp. cbn in Hprev.
      destruct Hprev as (_ & ? & ? & _).
      pose proof (lookup_lt_Some _ _ _ Hnp).
      rewrite Hframe6, Hframe5; [by apply Hp4|..]; try lia; try done.
      intros [= Heq]. unfold cur in *. lia.
    + eexists. split; [exact Hcur6|done].
    + eapply links_ok_frame; [exact Hlinks5|].
      intros x Hx. pose proof (Hfresh5 _ Hx).
      pose proof (forest_at_bound _ _ _ Hf5 Hx).
      apply Hframe6; [lia|lia|]. intros [= Heq]. unfold cur in *. lia.
    + done.
    + intros x nx. rewrite elem_of_cons, elem_of_app.
      intros [->|[Hx|Hx]] Hnx.
      * rewrite Hcur6 in Hnx. by injection Hnx as <-.
      * pose proof (Hfresh5 _ Hx). pose proof (forest_at_bound _ _ _ Hf5 Hx).
        rewrite Hframe6 in Hnx; [by eapply Hns5|lia|lia|].
        intros [= Heq]. unfold cur in *. lia.
      * by eapply Hns6.
Qed.

End rec_correct.

Lemma reify_inv fuel σ root t :
  reify fuel σ root = Some t →
  ∃ nr attrs kids,
    t = fcons root (content_of nr attrs) kids fnil ∧
    nodes σ !! root = Some nr ∧
    slice_of σ (Attr nr) = Some attrs ∧
    FirstChild nr = head_addr kids ∧
    forest_at σ kids.
Proof.
  unfold reify. intros Hre.
  destruct (nodes σ !! root) as [nr|] eqn:Hnr; [|done]. cbn in Hre.
  destruct (slice_of σ (Attr nr)) as [attrs|] eqn:Ha; [|done]. cbn in Hre.
  destruct (reify_chain fuel σ (FirstChild nr)) as [kids|] eqn:Hk; [|done].
  cbn in Hre. injection Hre as <-.
  apply reify_chain_sound in Hk as [??]. by exists nr, attrs, kids.
Qed.

Lemma reify_complete σ root nr attrs kids :
  nodes σ !! root = Some nr →
  slice_of σ (Attr nr) = Some attrs →
  FirstChild nr = head_addr kids →
  forest_at σ kids →
  ∃ N, ∀ fuel, N ≤ fuel →
    reify fuel σ root = Some (fcons root (content_of nr attrs) kids fnil).
Proof.
  intros Hnr Ha Hk [N HN]%reify_chain_complete. exists N. intros fuel ?.
  unfold reify. rewrite Hnr. cbn. rewrite Ha. cbn. rewrite Hk, HN by done.
  done.
Qed.

Section DeepCopyFunc_correct.
Import HTMLTrees.
Context {St : Type}.
Variable sel : loc → Store → St → result (bool * St).
Variable σ0 : Store.
Variable R : loc → forest → bool.
Variable Inv : St → Prop.
Variable D : loc → forest → Prop.
Hypothesis sel_sound : computes sel σ0 R Inv D.

(** [DeepCopyFunc] on a tree of [σ0], run in a store [σ] that still has
    the cells of [σ0]: with enough fuel it returns, the new tree is the
    projection of the source tree, it lies in fresh cells that only point
    to each other, and the cells of [σ] are as they were. *)
Lemma DeepCopyFunc_spec σ root fuel0 t s :
  preserves (nodes σ0) (nodes σ) →
  preserves (arrays σ0) (arrays σ) →
  reify fuel0 σ0 root = Some t →
  all_nodes D t →
  Inv s →
  let b := length (nodes σ) in
  let ba := length (arrays σ) in
  ∀ fuel, depth t ≤ fuel →
    ∃ σ' s' t',
      DeepCopyFunc sel fuel root σ s = Ok (b, σ', s') ∧
      Inv s' ∧
      (∃ m, reify m σ' b = Some t') ∧
      erase t' = erase (project R t) ∧
      (∀ a, a ∈ addrs t' → b ≤ a) ∧
      closed_above b ba σ' ∧
      preserves (nodes σ) (nodes σ') ∧
      preserves (arrays σ) (arrays σ').
Proof.
  intros Hσ Harr0 (nr & attrs & kids & -> & Hnr & Ha & Hk & Hkids)%reify_inv
    HD Hs b ba.
  pose proof (rec_loop_spec sel σ0 R Inv D sel_sound b ba) as HN.
  specialize (HN (preserves_length _ _ Hσ) (preserves_length _ _ Harr0) kids
                 Hkids (proj1 (proj2 HD))).
  intros fuel Hfuel. cbn [depth] in Hfuel. unfold DeepCopyFunc.
  pose proof (Hσ _ _ Hnr) as Hnr'.
  pose proof (slice_of_preserves _ _ _ _ Harr0 Ha) as Ha'.
  destruct (Copy_Some σ root nr attrs Hnr' Ha')
    as (attr' & arrs' & HCopy & Harr & Hlen & Hattr & Hslice).
  rewrite HCopy. cbn. unfold rec.
  erewrite node_at_Some by (cbn; by apply lookup_app_l_Some). cbn.
  rewrite Hk.
  set (n0 := mkNode None None None None None
               (Type_ nr) (DataAtom nr) (Data nr) "" attr').
  edestruct (HN fuel (mkStore (nodes σ ++ [n0]) arrs') s b n0 None)
    as (σ' & s' & f' & Hrun & Hs' & Hf' & He & Hfresh & Hlen' & Harr'
        & Hcl' & Hframe & Hroot & _); [lia|..].
  { eapply preserves_trans; [done|apply preserves_app]. }
  { by eapply preserves_trans. }
  { destruct σ as [ns arrs]. apply (closed_above_alloc _ _ ns arrs); [|done|].
    - intros l n Hl Hn'%lookup_lt_Some. cbn in *. unfold b in Hl. cbn in Hl. lia.
    - unfold node_in, n0. cbn. by split_and!. }
  { done. }
  { done. }
  { done. }
  { cbn. unfold b. by rewrite lookup_app_r, Nat.sub_diag. }
  { done. }
  unfold b in Hrun at 1. rewrite Hrun. cbn. exists σ', s'.
  cbn in Hroot, Hlen', Hfresh, Hframe. rewrite length_app in *. cbn in *.
  assert (slice_of σ' attr' = Some attrs) as Hslice'.
  { eapply (slice_of_preserves (mkStore [] arrs'));
      [exact Harr'|apply Hslice]. }
  destruct (reify_complete σ' b _ attrs f' Hroot Hslice' eq_refl Hf')
    as [M HM].
  eexists. split; [done|]. split; [done|].
  split; [exists M; by apply HM|].
  cbn. rewrite He. split; [done|].
  split_and!.
  - intros a. rewrite elem_of_cons, elem_of_app.
    intros [->|[Hx%Hfresh|Hx]]; [done|fold b in Hx; lia|set_solver].
  - done.
  - intros l x Hl. pose proof (lookup_lt_Some _ _ _ Hl). fold b in H.
    rewrite Hframe; [by apply lookup_app_l_Some|fold b; lia|lia|done].
  - eauto using preserves_trans.
Qed.
End DeepCopyFunc_correct.

Section DeepCopyFunc_built.
Import HTMLTrees.
Context {St : Type}.
Variable sel : loc → Store → St → result (bool * St).
Variable σ0 : Store.
Variable R : loc → forest → bool.
Variable Inv : St → Prop.
Variable D : loc → forest → Prop.
Hypothesis sel_sound : computes sel σ0 R Inv D.

(** [DeepCopyFunc] with the pointers and the field that [reify] does not
    read. *)
Lemma DeepCopyFunc_built σ root fuel0 t s :
  preserves (nodes σ0) (nodes σ) →
  preserves (arrays σ0) (arrays σ) →
  reify fuel0 σ0 root = Some t →
  all_nodes D t →
  Inv s →
  let b := length (nodes σ) in
  ∀ fuel, depth t ≤ fuel →
    ∃ σ' s' t',
      DeepCopyFunc sel fuel root σ s = Ok (b, σ', s') ∧
      Inv s' ∧
      (∃ m, reify m σ' b = Some t') ∧
      erase t' = erase (project R t) ∧
      allocated_after σ σ' b t' ∧
      well_linked σ' b t' ∧
      without_namespace σ' t'.
Proof.
  intros Hσ Harr0 (nr & attrs & kids & -> & Hnr & Ha & Hk & Hkids)%reify_inv
    HD Hs b.
  pose proof (rec_loop_spec sel σ0 R Inv D sel_sound b (length (arrays σ))) as HN.
  specialize (HN (preserves_length _ _ Hσ) (preserves_length _ _ Harr0) kids
                 Hkids (proj1 (proj2 HD))).
  intros fuel Hfuel. cbn [depth] in Hfuel. unfold DeepCopyFunc.
  pose proof (Hσ _ _ Hnr) as Hnr'.
  pose proof (slice_of_preserves _ _ _ _ Harr0 Ha) as Ha'.
  destruct (Copy_Some σ root nr attrs Hnr' Ha')
    as (attr' & arrs' & HCopy & Harr & Hlen & Hattr & Hslice).
  rewrite HCopy. cbn. unfold rec.
  erewrite node_at_Some by (cbn; by apply lookup_app_l_Some). cbn.
  rewrite Hk.
  set (n0 := mkNode None None None None None
               (Type_ nr) (DataAtom nr) (Data nr) "" attr').
  edestruct (HN fuel (mkStore (nodes σ ++ [n0]) arrs') s b n0 None)
    as (σ' & s' & f' & Hrun & Hs' & Hf' & He & Hfresh & Hlen' & Harr'
        & Hcl' & Hframe & Hroot & _ & Hlinks & Hns); [lia|..].
  { eapply preserves_trans; [done|apply preserves_app]. }
  { by eapply preserves_trans. }
  { destruct σ as [ns arrs]. apply (closed_above_alloc _ _ ns arrs); [|done|].
    - intros l n Hl Hn'%lookup_lt_Some. cbn in *. unfold b in Hl. cbn in Hl. lia.
    - unfold node_in, n0. cbn. by split_and!. }
  { done. }
  { done. }
  { done. }
  { cbn. unfold b. by rewrite lookup_app_r, Nat.sub_diag. }
  { done. }
  unfold b in Hrun at 1. rewrite Hrun. cbn. exists σ', s'.
  cbn in Hroot, Hlen', Hfresh, Hframe. rewrite length_app in *. cbn in *.
  assert (slice_of σ' attr' = Some attrs) as Hslice'.
  { eapply (slice_of_preserves (mkStore [] arrs'));
      [exact Harr'|apply Hslice]. }
  destruct (reify_complete σ' b _ attrs f' Hroot Hslice' eq_refl Hf')
    as [M HM].
  eexists. split; [done|]. split; [done|].
  split; [exists M; by apply HM|].
  cbn. rewrite He. split; [done|].
  assert (∀ a, a ∈ b :: addrs f' ++ [] → b ≤ a) as Hnew.
  { intros a. rewrite elem_of_cons, elem_of_app.
    intros [->|[Hx%Hfresh|Hx]]; [done|fold b in Hx; lia|].
    by apply elem_of_nil in Hx. }
  split_and!.
  - unfold allocated_after. fold b. split_and!; [done|done|done| |].
    + intros l x Hl. pose proof (lookup_lt_Some _ _ _ Hl) as Hlt. fold b in Hlt.
      rewrite Hframe; [by apply lookup_app_l_Some|fold b; lia|lia|done].
    + eauto using preserves_trans.
  - split; [|eexists; split; [exact Hroot|done]].
    cbn [links_ok]. split_and!; [eexists; split; [exact Hroot|done]|done|done].
  - unfold without_namespace. cbn [addrs]. intros a na.
    rewrite elem_of_cons, elem_of_app. intros [->|[Hx|Hx]] Hna.
    + rewrite Hroot in Hna. by injection Hna as <-.
    + by eapply Hns.
    + by apply elem_of_nil in Hx.
Qed.
End DeepCopyFunc_built.

(** ** Predicate mode: [DeepCopyFunc] with a Go predicate *)

Section predicate_mode.
Import HTMLTrees.
Variable p : loc → bool.

Lemma all_nodes_True f : all_nodes (λ _ _, True) f.
Proof. induction f; cbn; auto. Qed.

Lemma pure_sel_computes σ0 :
  computes (pure_sel p) σ0 (λ l _, p l) (λ _, True) (λ _ _, True).
Proof. intros l n kids σ1 [] _ _ _ _ _ _ _. by exists (). Qed.

Lemma DeepCopyFunc_pure σ root fuel0 t :
  reify fuel0 σ root = Some t →
  ∃ N, ∀ fuel, N ≤ fuel →
    ∃ σ' t',
      DeepCopyFunc (pure_sel p) fuel root σ () = Ok (length (nodes σ), σ', ()) ∧
      (∃ m, reify m σ' (length (nodes σ)) = Some t') ∧
      erase t' = erase (project (λ l _, p l) t) ∧
      (∀ a, a ∈ addrs t' → length (nodes σ) ≤ a) ∧
      closed_above (length (nodes σ)) (length (arrays σ)) σ' ∧
      preserves (nodes σ) (nodes σ') ∧
      preserves (arrays σ) (arrays σ').
Proof.
  intros Hre.
  pose proof (DeepCopyFunc_spec (pure_sel p) σ (λ l _, p l) (λ _, True)
                (λ _ _, True) (pure_sel_computes σ) σ root fuel0 t ()
                (preserves_refl _) (preserves_refl _) Hre
                (all_nodes_True _) I) as HN.
  exists (depth t). intros fuel Hfuel.
  destruct (HN fuel Hfuel) as (σ' & [] & t' & ? & _ & ?). by exists σ', t'.
Qed.
End predicate_mode.

Lemma prune_all f : prune (λ _ _, true) f = f.
Proof. induction f as [|a c kids IH1 rest IH2]; cbn; [done|]. by rewrite IH1, IH2. Qed.

Lemma prune_none f : prune (λ _ _, false) f = texts f.
Proof.
  induction f as [|a c kids IH1 rest IH2]; cbn; [done|].
  by rewrite IH1, IH2.
Qed.

Lemma texts_no_text f : no_text f = true → texts f = fnil.
Proof.
  induction f as [|a c kids IH1 rest IH2]; cbn; [done|].
  destruct (is_TextNode (cType c)); cbn; [done|auto].
Qed.

(** ** The fetch stage *)

Section downloader.
Implicit Types (task : Task) (world : list http_response).

Lemma HtmlDownloader_loop_GetFailed e world task inq :
  HtmlDownloader_loop (GetFailed e :: world) task inq =
    let task' := with_err (DownloadFailed (deck task) (err task) e) task in
    emit task' (HtmlDownloader_loop world task' inq).
Proof. reflexivity. Qed.

(** C7: after an unrecoverable transport error the task should be sent
    on once and not fetched again.  The worker sends the task on and then
    continues the loop with the same task: it requests the url again, and
    every further failure sends the same task once more.  After [k]
    failures in a row the worker has sent the task [k] times and still
    holds it, while the next task of the input stays in the queue. *)
Theorem HtmlDownloader_refetches_failed_task es world task inq :
  ∃ sent task',
    HtmlDownloader ((GetFailed <$> es) ++ world) (task :: inq)
      = (sent ++ (HtmlDownloader_loop world task' inq).1,
         (HtmlDownloader_loop world task' inq).2) ∧
    length sent = length es ∧
    Forall (λ t, url t = url task ∧ deck t = deck task ∧ is_Some (err t)) sent ∧
    url task' = url task ∧ deck task' = deck task ∧ html task' = html task.
Proof.
  cbn [HtmlDownloader]. revert task.
  induction es as [|e es IH]; intros task.
  - exists [], task. cbn. split_and!; try done. by destruct HtmlDownloader_loop.
  - cbn [fmap list_fmap app]. rewrite HtmlDownloader_loop_GetFailed. cbn zeta.
    set (t1 := with_err (DownloadFailed (deck task) (err task) e) task).
    destruct (IH t1) as (sent & task' & -> & Hlen & Hsent & Hurl & Hdeck & Hhtml).
    exists (t1 :: sent), task'. split_and!; try done.
    + cbn. by rewrite Hlen.
    + constructor; [by split_and!|done].
Qed.

(** Two failures: the task is sent twice. *)
Example HtmlDownloader_sends_twice :
  (HtmlDownloader
     [GetFailed (TransportError "timeout"); GetFailed (TransportError "timeout")]
     [NewTask "https://pkg.go.dev/fmt" "Go::std::fmt"]).1
  = [ mkTask "https://pkg.go.dev/fmt" "Go::std::fmt" [] []
        (Some (DownloadFailed "Go::std::fmt" None (TransportError "timeout")));
      mkTask "https://pkg.go.dev/fmt" "Go::std::fmt" [] []
        (Some (DownloadFailed "Go::std::fmt"
                 (Some (DownloadFailed "Go::std::fmt" None
                          (TransportError "timeout")))
                 (TransportError "timeout"))) ].
Proof. reflexivity. Qed.
End downloader.

(** ** The upload stage *)

Section uploader.
Implicit Types (answers : list (option RestErr)) (inq : list Task).

Lemma creations_app c1 c2 : creations (c1 ++ c2) = creations c1 ++ creations c2.
Proof. apply omap_app. Qed.

Lemma creations_Create d calls :
  creations (Decks_Create d :: calls) = d :: creations calls.
Proof. reflexivity. Qed.

Lemma upload_creations answers ns : creations (upload answers ns).1 = [].
Proof.
  revert ns. induction answers as [|a answers IH]; intros [|note rest]; try done.
  cbn. destruct a as [e|]; [|apply IH].
  destruct (StatusCode e =? 200)%Z; [apply IH|].
  destruct (StatusCode e =? 500)%Z; [apply (IH (note :: rest))|done].
Qed.

Lemma upload_not_Drained answers ns : (upload answers ns).2 ≠ inl Drained.
Proof.
  revert ns. induction answers as [|a answers IH]; intros [|note rest]; try done.
  cbn. destruct a as [e|]; [|apply IH].
  destruct (StatusCode e =? 200)%Z; [apply IH|].
  destruct (StatusCode e =? 500)%Z; [apply (IH (note :: rest))|done].
Qed.

Lemma NoteUploader_loop_creations decks answers inq :
  let r := NoteUploader_loop decks answers inq in
  creations r.1 `prefix_of` absent_decks decks inq ∧
  (r.2 = Drained → creations r.1 = absent_decks decks inq).
Proof.
  revert answers. induction inq as [|task inq IH]; intros answers; [done|].
  assert (∀ answers,
    let r := match upload answers (notes task) with
             | (calls, inl e) => (calls, e)
             | (calls, inr answers) =>
                 let r := NoteUploader_loop decks answers inq in
                 (calls ++ r.1, r.2)
             end in
    creations r.1 `prefix_of` absent_decks decks inq ∧
    (r.2 = Drained → creations r.1 = absent_decks decks inq)) as Hgo.
  { intros ans. pose proof (upload_creations ans (notes task)) as Hup.
    pose proof (upload_not_Drained ans (notes task)) as Hend.
    destruct (upload ans (notes task)) as [calls [e|ans']];
      cbn [fst snd] in *.
    - rewrite Hup. split; [apply prefix_nil|]. by intros ->.
    - rewrite creations_app, Hup. apply IH. }
  cbn [NoteUploader_loop]. unfold absent_decks in *. cbn [fmap list_fmap].
  rewrite filter_cons. case_bool_decide as Hin; destruct (decide _) as [Hd|Hd];
    try done.
  destruct answers as [|[e|] answers]; cbn [fst snd].
  - split; [apply prefix_nil|done].
  - split; [by apply prefix_cons, prefix_nil|done].
  - destruct (Hgo answers) as [Hp He]. rewrite creations_Create. split.
    + by apply prefix_cons.
    + intros Hr. by rewrite He.
Qed.
End uploader.

(** C8, counterexample: two tasks name the deck Go::std::fmt, which the
    snapshot does not have; the service accepts both creations. *)
Lemma NoteUploader_creates_deck_twice :
  ¬ creates_each_deck_once []
      [None; None]
      [NewTask "https://pkg.go.dev/fmt" "Go::std::fmt";
       NewTask "https://pkg.go.dev/fmt/internal" "Go::std::fmt"].
Proof.
  unfold creates_each_deck_once. vm_compute.
  intros Hnd. apply NoDup_cons in Hnd as [Hnotin _].
  apply Hnotin. by left.
Qed.

(** C8, amended: the deck list is fetched once, and creation is attempted
    once for every task whose deck is not in that list, in the order of the
    tasks; the list is not updated, so a deck that it lacks is created
    again for every further task that names it, and a deck that it has is
    never created.  A run that drains its input has made exactly these
    attempts, a run that ends earlier a prefix of them. *)
Theorem NoteUploader_creates_per_task getAll answers inq :
  let r := NoteUploader getAll answers inq in
  match getAll with
  | None => r = ([], Died DeckRequestFailed)
  | Some decks =>
      creations r.1 `prefix_of` absent_decks decks inq ∧
      (r.2 = Drained → creations r.1 = absent_decks decks inq)
  end.
Proof.
  destruct getAll as [decks|]; [|done].
  apply NoteUploader_loop_creations.
Qed.

Lemma NoteUploader_creates_per_task_witness :
  creations
    (NoteUploader (Some ["Go::std::os"]) [None; None]
       [NewTask "u1" "Go::std::fmt"; NewTask "u2" "Go::std::os";
        NewTask "u3" "Go::std::fmt"]).1
  = ["Go::std::fmt"; "Go::std::fmt"].
Proof.
  apply (NoteUploader_creates_per_task (Some ["Go::std::os"]) [None; None]).
  reflexivity.
Defined.

(** ** The extraction stage *)

Section result_lemmas.
Context {A B : Type}.
Implicit Types (r : result A) (f : A → result B).

Lemma bind_Ok_inv r f b :
  r ≫= f = Ok b → ∃ a, r = Ok a ∧ f a = Ok b.
Proof. destruct r; cbn; [eauto|done..]. Qed.

Lemma of_option_Ok_inv (o : option A) a : of_option o = Ok a → o = Some a.
Proof. destruct o; cbn; congruence. Qed.
End result_lemmas.

Lemma foldM_invariant {A B} (P : B → Prop) (f : A → B → result B) l b b' :
  (∀ x b b', f x b = Ok b' → P b → P b') →
  foldM f l b = Ok b' → P b → P b'.
Proof.
  intros Hf. revert b. induction l as [|x l IH]; intros b; cbn.
  - by intros [= <-].
  - intros (b1 & H1 & H2)%bind_Ok_inv Hb. eauto.
Qed.

Lemma adds_notes_refl t : adds_notes t t.
Proof. by repeat split. Qed.

Lemma adds_notes_trans t1 t2 t3 :
  adds_notes t1 t2 → adds_notes t2 t3 → adds_notes t1 t3.
Proof.
  intros (?&?&?&?&?) (?&?&?&?&?). repeat split; try congruence.
  by etrans.
Qed.

Lemma adds_notes_AddNote front back impl t : adds_notes t (AddNote front back impl t).
Proof. repeat split. cbn. by apply prefix_app_r. Qed.

Section extraction.
Context `{Externals}.

Lemma declaration_card_adds fuel root span_selector block st st' :
  declaration_card fuel root span_selector block st = Ok st' →
  adds_notes st.2 st'.2.
Proof.
  destruct st as [σ task]. unfold declaration_card. intros Hrun.
  apply bind_Ok_inv in Hrun as (σ1 & _ & Hrun).
  apply bind_Ok_inv in Hrun as (ns & _ & Hrun).
  apply bind_Ok_inv in Hrun as ([cpy σ2] & _ & Hrun).
  apply bind_Ok_inv in Hrun as (front & _ & Hrun).
  injection Hrun as <-. apply adds_notes_AddNote.
Qed.

Lemma declaration_cards_adds fuel root block_selector span_selector st st' :
  declaration_cards fuel root block_selector span_selector st = Ok st' →
  adds_notes st.2 st'.2.
Proof.
  unfold declaration_cards. intros Hrun.
  apply (foldM_invariant (λ st1, adds_notes st.2 st1.2) _ _ _ _
           (λ x b b' Hb Hp, adds_notes_trans _ _ _ Hp
              (declaration_card_adds _ _ _ _ _ _ Hb)) Hrun).
  apply adds_notes_refl.
Qed.

Lemma paired_card_adds fuel root container header st st' :
  paired_card fuel root container header st = Ok st' →
  adds_notes st.2 st'.2.
Proof.
  destruct st as [σ task]. unfold paired_card. intros Hrun.
  apply bind_Ok_inv in Hrun as (ip & _ & Hrun).
  apply bind_Ok_inv in Hrun as (σ1 & _ & Hrun).
  apply bind_Ok_inv in Hrun as ([cpy σ2] & _ & Hrun).
  apply bind_Ok_inv in Hrun as (back & _ & Hrun).
  apply bind_Ok_inv in Hrun as ([cpy' σ3] & _ & Hrun).
  apply bind_Ok_inv in Hrun as (front & _ & Hrun).
  injection Hrun as <-. apply adds_notes_AddNote.
Qed.

Lemma paired_loop_adds fuel root containers headers n i st st' :
  paired_loop fuel root containers headers n i st = Ok st' →
  adds_notes st.2 st'.2.
Proof.
  revert i st. induction n as [|n IH]; intros i st; cbn.
  - intros [= <-]. apply adds_notes_refl.
  - intros Hrun.
    apply bind_Ok_inv in Hrun as (container & _ & Hrun).
    apply bind_Ok_inv in Hrun as (header & _ & Hrun).
    apply bind_Ok_inv in Hrun as (st1 & Hcard & Hrun).
    eapply adds_notes_trans; [by eapply paired_card_adds|by eapply IH].
Qed.

Lemma paired_cards_adds fuel root csel hsel mismatch st st' :
  paired_cards fuel root csel hsel mismatch st = Ok st' →
  adds_notes st.2 st'.2.
Proof.
  unfold paired_cards. case_bool_decide; [done|]. apply paired_loop_adds.
Qed.

Lemma foldM_map_result {A B} (g : B → B) (f : A → B → result B) l b :
  (∀ x b, f x (g b) = map_result g (f x b)) →
  foldM f l (g b) = map_result g (foldM f l b).
Proof.
  intros Hf. revert b. induction l as [|x l IH]; intros b; cbn; [done|].
  rewrite Hf. destruct (f x b) as [b1| | |]; cbn; [apply IH|done..].
Qed.

Lemma declaration_card_set_err e fuel root span_selector block σ task :
  declaration_card fuel root span_selector block (σ, set_err e task)
  = map_result (λ st, (st.1, set_err e st.2))
      (declaration_card fuel root span_selector block (σ, task)).
Proof.
  unfold declaration_card.
  change (prefix_ids span_selector block (set_err e task) σ)
    with (prefix_ids span_selector block task σ).
  destruct (prefix_ids span_selector block task σ) as [σ1| | |]; cbn; [|done..].
  destruct (following_paragraphs fuel σ1 block) as [ns| | |]; cbn; [|done..].
  destruct (HTMLTrees.DeepCopySubtrees fuel root ns σ1) as [[cpy σ2]| | |];
    cbn; [|done..].
  by destruct (HTMLString σ2 cpy).
Qed.

Lemma declaration_cards_set_err e fuel root bsel ssel σ task :
  declaration_cards fuel root bsel ssel (σ, set_err e task)
  = map_result (λ st, (st.1, set_err e st.2))
      (declaration_cards fuel root bsel ssel (σ, task)).
Proof.
  unfold declaration_cards. cbn [fst].
  apply (foldM_map_result (λ st, (st.1, set_err e st.2))
           (declaration_card fuel root ssel) _ (σ, task)).
  intros block [σ1 task1]. apply declaration_card_set_err.
Qed.

Lemma paired_card_set_err e fuel root container header σ task :
  paired_card fuel root container header (σ, set_err e task)
  = map_result (λ st, (st.1, set_err e st.2))
      (paired_card fuel root container header (σ, task)).
Proof.
  unfold paired_card.
  change (ImportPath (set_err e task)) with (ImportPath task).
  destruct (ImportPath task) as [ip| | |]; cbn; [|done..].
  destruct (doc_src_add_prefix header ip σ) as [σ1| | |]; cbn; [|done..].
  destruct (HTMLTrees.DeepCopySubtrees fuel root [container] σ1)
    as [[cpy σ2]| | |]; cbn; [|done..].
  destruct (HTMLString σ2 cpy) as [back| | |]; cbn; [|done..].
  destruct (HTMLTrees.DeepCopySubtrees fuel root [header] σ2)
    as [[cpy' σ3]| | |]; cbn; [|done..].
  by destruct (HTMLString σ3 cpy').
Qed.

Lemma paired_loop_set_err e fuel root containers headers n : ∀ i σ task,
  paired_loop fuel root containers headers n i (σ, set_err e task)
  = map_result (λ st, (st.1, set_err e st.2))
      (paired_loop fuel root containers headers n i (σ, task)).
Proof.
  induction n as [|n IH]; intros i σ task; [done|]. cbn [paired_loop].
  destruct (of_option (containers !! i)) as [c| | |];
    cbn [mbind result_bind map_result]; [|done..].
  destruct (of_option (headers !! i)) as [h| | |];
    cbn [mbind result_bind map_result]; [|done..].
  rewrite paired_card_set_err.
  destruct (paired_card fuel root c h (σ, task)) as [[σ1 task1]| | |];
    cbn [mbind result_bind map_result fst snd]; [apply IH|done..].
Qed.

Lemma paired_cards_set_err e fuel root csel hsel mismatch σ task :
  paired_cards fuel root csel hsel mismatch (σ, set_err e task)
  = map_result (λ st, (st.1, set_err e st.2))
      (paired_cards fuel root csel hsel mismatch (σ, task)).
Proof.
  unfold paired_cards. cbn [fst]. case_bool_decide; [done|].
  apply paired_loop_set_err.
Qed.

(** The stage does for a task that carries an error what it does for the
    same task without the error, or with any other. *)
Lemma process_set_err e fuel task :
  process fuel (set_err e task) = map_result (set_err e) (process fuel task).
Proof.
  unfold process, function_cards, type_cards.
  change (html (set_err e task)) with (html task).
  change (url (set_err e task)) with (url task).
  destruct (match html_Parse (html task) with
            | Some r => Ok r
            | None => Fatal HtmlParseFailed
            end) as [[root σ]| | |]; cbn [mbind result_bind map_result];
    [|done..].
  destruct (HTMLTrees.Modify fuel _ (Some root) σ) as [σ1| | |];
    cbn [mbind result_bind map_result]; [|done..].
  rewrite declaration_cards_set_err.
  destruct (declaration_cards fuel root _ _ (σ1, task)) as [[σ2 task2]| | |];
    cbn [mbind result_bind map_result fst snd]; [|done..].
  rewrite declaration_cards_set_err.
  destruct (declaration_cards fuel root _ _ (σ2, task2)) as [[σ3 task3]| | |];
    cbn [mbind result_bind map_result fst snd]; [|done..].
  rewrite paired_cards_set_err.
  destruct (paired_cards fuel root _ _ _ (σ3, task3)) as [[σ4 task4]| | |];
    cbn [mbind result_bind map_result fst snd]; [|done..].
  rewrite paired_cards_set_err.
  by destruct (paired_cards fuel root _ _ _ (σ4, task4)) as [[σ5 task5]| | |].
Qed.

(** C4, amended: the extraction stage never reads the error of a task.
    A task that carries a fetch error is parsed and searched like any
    other: whatever error is put in the place of the one it carries, none
    included, the stage ends in the same way, and when it returns it
    returns the same task, with the same notes, carrying that error.  When
    the stage sends a task on, its url, deck, payload and error are as
    they were and notes have at most been added. *)
Theorem process_keeps_error fuel task :
  (∀ e, process fuel (set_err e task)
        = map_result (set_err e) (process fuel task)) ∧
  (∀ task', process fuel task = Ok task' →
     err task' = err task ∧ adds_notes task task').
Proof.
  split; [intros e; apply process_set_err|].
  unfold process. intros task' Hrun.
  apply bind_Ok_inv in Hrun as ([root σ] & _ & Hrun).
  apply bind_Ok_inv in Hrun as (σ1 & _ & Hrun).
  apply bind_Ok_inv in Hrun as (st1 & Hvars%declaration_cards_adds & Hrun).
  apply bind_Ok_inv in Hrun as (st2 & Hconsts%declaration_cards_adds & Hrun).
  apply bind_Ok_inv in Hrun as (st3 & Hfuncs%paired_cards_adds & Hrun).
  apply bind_Ok_inv in Hrun as (st4 & Htypes%paired_cards_adds & Hrun).
  injection Hrun as <-. cbn in Hvars.
  assert (adds_notes task st4.2) as Hall by eauto using adds_notes_trans.
  split; [apply Hall|done].
Qed.
End extraction.

(** *** Which stages can end the process with which error *)

Lemma not_fatal_bind {A B} (r : result A) (f : A → result B) :
  not_fatal r → (∀ a, not_fatal (f a)) → not_fatal (r ≫= f).
Proof. destruct r; cbn; auto. Qed.

Lemma no_mismatch_bind {A B} (r : result A) (f : A → result B) :
  no_mismatch r → (∀ a, no_mismatch (f a)) → no_mismatch (r ≫= f).
Proof. destruct r; cbn; auto. Qed.

Lemma not_fatal_no_mismatch {A} (r : result A) : not_fatal r → no_mismatch r.
Proof. by destruct r. Qed.

Lemma not_fatal_of_option {A} (o : option A) : not_fatal (of_option o).
Proof. by destruct o. Qed.

Lemma not_fatal_node_at σ p : not_fatal (node_at σ p).
Proof. apply not_fatal_of_option. Qed.

Lemma not_fatal_update p f σ : not_fatal (update p f σ).
Proof. unfold update. apply not_fatal_bind; [apply not_fatal_node_at|done]. Qed.

Ltac not_fatal_tac :=
  repeat first
    [ done
    | apply not_fatal_node_at
    | apply not_fatal_of_option
    | apply not_fatal_update
    | apply not_fatal_bind; [|intros ?]
    | case_match ].

Section not_fatal_trees.
Import HTMLTrees.

Lemma not_fatal_Copy node σ : not_fatal (Copy node σ).
Proof.
  unfold Copy, copy_attr, make_attr. not_fatal_tac.
Qed.

Lemma not_fatal_rec_loop {St} (sel : loc → Store → St → result (bool * St))
    fuel c cpy prev σ s :
  (∀ l σ s, not_fatal (sel l σ s)) →
  not_fatal (rec_loop sel fuel c cpy prev σ s).
Proof.
  intros Hsel. revert c cpy prev σ s.
  induction fuel as [|fuel IH]; intros c cpy prev σ s; [done|].
  cbn [rec_loop]. destruct c as [c|]; [|not_fatal_tac].
  apply not_fatal_bind; [apply Hsel|intros [b s1]].
  apply not_fatal_bind; [apply not_fatal_node_at|intros nc].
  destruct (b || is_TextNode (Type_ nc)); [|apply IH].
  apply not_fatal_bind; [apply not_fatal_Copy|intros [cur σ1]].
  apply not_fatal_bind; [apply not_fatal_update|intros σ2].
  apply not_fatal_bind; [apply not_fatal_node_at|intros ncpy].
  apply not_fatal_bind; [not_fatal_tac|intros σ3].
  apply not_fatal_bind; [not_fatal_tac|intros σ4].
  apply not_fatal_bind; [apply not_fatal_node_at|intros nc'].
  apply not_fatal_bind; [apply IH|intros [σ5 s5]].
  apply not_fatal_bind; [apply not_fatal_node_at|intros nc''].
  apply IH.
Qed.

Lemma not_fatal_DeepCopyFunc {St} (sel : loc → Store → St → result (bool * St))
    fuel root σ s :
  (∀ l σ s, not_fatal (sel l σ s)) →
  not_fatal (DeepCopyFunc sel fuel root σ s).
Proof.
  intros Hsel. unfold DeepCopyFunc, rec.
  apply not_fatal_bind; [apply not_fatal_Copy|intros [newRoot σ1]].
  apply not_fatal_bind; [|by intros [??]].
  apply not_fatal_bind; [apply not_fatal_node_at|intros nr].
  by apply not_fatal_rec_loop.
Qed.

Lemma not_fatal_lookup fuel :
  (∀ σ root cache, not_fatal (lookup fuel σ root cache)) ∧
  (∀ σ root c cache, not_fatal (lookup_children fuel σ root c cache)).
Proof.
  induction fuel as [|fuel [IH1 IH2]]; [done|]. split.
  - intros σ [root|] cache; cbn [lookup]; [|done].
    destruct (cache !! root); [done|].
    apply not_fatal_bind; [apply not_fatal_node_at|intros n]. apply IH2.
  - intros σ root [c|] cache; cbn [lookup_children]; [|done].
    apply not_fatal_bind; [apply IH1|intros [[] cache']]; [done|].
    apply not_fatal_bind; [apply not_fatal_node_at|intros n]. apply IH2.
Qed.

Lemma not_fatal_push_children fuel σ c stack :
  not_fatal (push_children fuel σ c stack).
Proof.
  revert c stack. induction fuel as [|fuel IH]; intros [c|] stack; try done.
  cbn. apply not_fatal_bind; [apply not_fatal_node_at|intros n]. apply IH.
Qed.

Lemma not_fatal_mark fuel σ stack cache : not_fatal (mark fuel σ stack cache).
Proof.
  revert stack cache.
  induction fuel as [|fuel IH]; intros [|node stack] cache; try done.
  cbn. apply not_fatal_bind; [apply not_fatal_node_at|intros n].
  apply not_fatal_bind; [apply not_fatal_push_children|intros stack'].
  apply IH.
Qed.

Lemma not_fatal_DeepCopySubtrees fuel root subtrees σ :
  not_fatal (DeepCopySubtrees fuel root subtrees σ).
Proof.
  unfold DeepCopySubtrees.
  apply not_fatal_bind; [apply not_fatal_mark|intros cache].
  apply not_fatal_bind; [|by intros [[??]?]].
  apply not_fatal_DeepCopyFunc. intros l σ1 s. apply not_fatal_lookup.
Qed.
End not_fatal_trees.

Lemma foldM_no_mismatch {A B} (f : A → B → result B) l b :
  (∀ x b, no_mismatch (f x b)) → no_mismatch (foldM f l b).
Proof.
  intros Hf. revert b. induction l as [|x l IH]; intros b; cbn; [done|].
  apply no_mismatch_bind; auto.
Qed.

Lemma foldM_not_fatal {A B} (f : A → B → result B) l b :
  (∀ x b, not_fatal (f x b)) → not_fatal (foldM f l b).
Proof.
  intros Hf. revert b. induction l as [|x l IH]; intros b; cbn; [done|].
  apply not_fatal_bind; auto.
Qed.

Section count_check.
Context `{Externals}.
Implicit Types (st : Store * Task).

Lemma ImportPath_no_mismatch task : no_mismatch (ImportPath task).
Proof. unfold ImportPath. repeat case_match; cbn; auto. Qed.

Lemma doc_src_add_prefix_no_mismatch root name σ :
  no_mismatch (doc_src_add_prefix root name σ).
Proof.
  unfold doc_src_add_prefix. case_bool_decide; [cbn; auto|].
  apply not_fatal_no_mismatch, foldM_not_fatal. intros node σ1.
  not_fatal_tac.
Qed.

Lemma HTMLString_no_mismatch σ node : no_mismatch (HTMLString σ node).
Proof. unfold HTMLString. case_match; cbn; auto. Qed.

Lemma paired_card_no_mismatch fuel root container header st :
  no_mismatch (paired_card fuel root container header st).
Proof.
  destruct st as [σ task]. unfold paired_card.
  apply no_mismatch_bind; [apply ImportPath_no_mismatch|intros ip].
  apply no_mismatch_bind; [apply doc_src_add_prefix_no_mismatch|intros σ1].
  apply no_mismatch_bind;
    [apply not_fatal_no_mismatch, not_fatal_DeepCopySubtrees|intros [cpy σ2]].
  apply no_mismatch_bind; [apply HTMLString_no_mismatch|intros back].
  apply no_mismatch_bind;
    [apply not_fatal_no_mismatch, not_fatal_DeepCopySubtrees|intros [cpy' σ3]].
  apply no_mismatch_bind; [apply HTMLString_no_mismatch|by intros front].
Qed.

Lemma paired_card_one_note fuel root container header st st' :
  paired_card fuel root container header st = Ok st' →
  ∃ front back, st'.2 = AddNote front back "" st.2.
Proof.
  destruct st as [σ task]. unfold paired_card. intros Hrun.
  apply bind_Ok_inv in Hrun as (ip & _ & Hrun).
  apply bind_Ok_inv in Hrun as (σ1 & _ & Hrun).
  apply bind_Ok_inv in Hrun as ([cpy σ2] & _ & Hrun).
  apply bind_Ok_inv in Hrun as (back & _ & Hrun).
  apply bind_Ok_inv in Hrun as ([cpy' σ3] & _ & Hrun).
  apply bind_Ok_inv in Hrun as (front & _ & Hrun).
  injection Hrun as <-. by exists front, back.
Qed.

Lemma cards_by_pairs_notes fuel root pairs st st' :
  cards_by_pairs fuel root pairs st = Ok st' →
  length (notes st'.2) = length (notes st.2) + length pairs.
Proof.
  unfold cards_by_pairs. revert st.
  induction pairs as [|[c h] pairs IH]; intros st; cbn.
  - intros [= <-]. lia.
  - intros (st1 & Hcard & Hrest)%bind_Ok_inv.
    apply IH in Hrest. apply paired_card_one_note in Hcard as (f & b & Heq).
    rewrite Hrest, Heq. cbn. rewrite length_app. cbn. lia.
Qed.

Lemma paired_loop_pairs fuel root containers headers n i st :
  i + n = length containers →
  length headers = length containers →
  paired_loop fuel root containers headers n i st =
    cards_by_pairs fuel root (drop i (zip containers headers)) st.
Proof.
  intros Hn Hlen. revert i st Hn.
  induction n as [|n IH]; intros i st Hn; cbn [paired_loop].
  - rewrite drop_ge; [done|]. rewrite length_zip_with. lia.
  - destruct (lookup_lt_is_Some_2 containers i) as [c Hc]; [lia|].
    destruct (lookup_lt_is_Some_2 headers i) as [h Hh]; [lia|].
    rewrite Hc, Hh. cbn.
    assert (zip containers headers !! i = Some (c, h)) as Hz.
    { rewrite lookup_zip_with, Hc, Hh. done. }
    rewrite (drop_S _ _ _ Hz). unfold cards_by_pairs. cbn [foldM].
    destruct (paired_card fuel root c h st) as [st1| | |]; cbn; [|done..].
    rewrite IH by lia. by rewrite Nat.add_1_r.
Qed.

Lemma paired_cards_check fuel root csel hsel mismatch st :
  (∀ n m, is_mismatch (mismatch n m)) →
  let containers := css_Select csel st.1 root in
  let headers := css_Select hsel st.1 root in
  (length headers ≠ length containers →
     paired_cards fuel root csel hsel mismatch st =
       Fatal (mismatch (length containers) (length headers))) ∧
  (length headers = length containers →
     paired_cards fuel root csel hsel mismatch st =
       cards_by_pairs fuel root (zip containers headers) st ∧
     no_mismatch (paired_cards fuel root csel hsel mismatch st) ∧
     ∀ st', paired_cards fuel root csel hsel mismatch st = Ok st' →
       length (notes st'.2) = length (notes st.2) + length containers).
Proof.
  intros Hmis containers headers. unfold paired_cards.
  fold containers headers. split.
  - intros Hne. by rewrite bool_decide_true.
  - intros Heq. rewrite bool_decide_false by (intros ?; done).
    rewrite paired_loop_pairs by done. rewrite drop_0.
    split_and!; [done| |].
    + apply foldM_no_mismatch. intros [c h] st1.
      apply paired_card_no_mismatch.
    + intros st' Hrun%cards_by_pairs_notes. rewrite Hrun.
      rewrite length_zip_with. lia.
Qed.

(** C6: in the function category and in the type category, when the
    selection of headers and the selection of containers differ in length,
    the stage ends the process with the error that names the two counts,
    and no card of the category is made.  When they agree, that error is
    not raised, the cards are made from container [i] and header [i] for
    every index [i] in turn, and a stage that completes has added one note
    for each container. *)
Theorem header_count_check fuel root st :
  let functions := css_Select "div.Documentation-function" st.1 root in
  let func_headers :=
    css_Select "div.Documentation-function h4.Documentation-functionHeader"
               st.1 root in
  let types := css_Select "div.Documentation-type" st.1 root in
  let type_headers :=
    css_Select "div.Documentation-type h4.Documentation-typeHeader" st.1 root in
  (length func_headers ≠ length functions →
     function_cards fuel root st =
       Fatal (UnexpectedAmountOfFuncHeaders (length functions)
                                            (length func_headers))) ∧
  (length type_headers ≠ length types →
     type_cards fuel root st =
       Fatal (UnexpectedAmountOfTypeHeaders (length types)
                                            (length type_headers))) ∧
  (length func_headers = length functions →
     function_cards fuel root st =
       cards_by_pairs fuel root (zip functions func_headers) st ∧
     no_mismatch (function_cards fuel root st) ∧
     ∀ st', function_cards fuel root st = Ok st' →
       length (notes st'.2) = length (notes st.2) + length functions) ∧
  (length type_headers = length types →
     type_cards fuel root st =
       cards_by_pairs fuel root (zip types type_headers) st ∧
     no_mismatch (type_cards fuel root st) ∧
     ∀ st', type_cards fuel root st = Ok st' →
       length (notes st'.2) = length (notes st.2) + length types).
Proof.
  intros functions func_headers types type_headers.
  destruct (paired_cards_check fuel root "div.Documentation-function"
              "div.Documentation-function h4.Documentation-functionHeader"
              UnexpectedAmountOfFuncHeaders st) as [Hf1 Hf2]; [done|].
  destruct (paired_cards_check fuel root "div.Documentation-type"
              "div.Documentation-type h4.Documentation-typeHeader"
              UnexpectedAmountOfTypeHeaders st) as [Ht1 Ht2]; [done|].
  by split_and!.
Qed.
End count_check.

Section link_normalization.
Context `{Externals}.

Lemma set_AttrVal_spec node i v σ σ' n attrs :
  set_AttrVal node i v σ = Ok σ' →
  nodes σ !! node = Some n →
  slice_of σ (Attr n) = Some attrs →
  nodes σ' = nodes σ ∧
  ∃ x, attrs !! i = Some x ∧
    slice_of σ' (Attr n)
      = Some (<[i := mkAttribute (AttrNamespace x) (Key x) v]> attrs).
Proof.
  unfold set_AttrVal. intros Hset Hn Hs.
  rewrite (node_at_Some _ _ _ Hn) in Hset. cbn in Hset.
  apply bind_Ok_inv in Hset as (a & Ha%of_option_Ok_inv & Hset).
  rewrite Ha in Hs. cbn in Hs. rewrite Hs in Hset. cbn in Hset.
  apply bind_Ok_inv in Hset as (x & Hx%of_option_Ok_inv & Hset).
  injection Hset as <-. split; [done|]. exists x. split; [done|].
  rewrite Ha. cbn. apply list_lookup_insert_eq. by eapply lookup_lt_Some.
Qed.

Lemma href_loop_odd fuel base node : ∀ i σ σ' n attrs,
  Nat.Even i →
  href_loop fuel base node i σ = Ok σ' →
  nodes σ !! node = Some n →
  slice_of σ (Attr n) = Some attrs →
  nodes σ' = nodes σ ∧
  ∃ attrs',
    slice_of σ' (Attr n) = Some attrs' ∧
    length attrs' = length attrs ∧
    ∀ j, Nat.Odd j → attrs' !! j = attrs !! j.
Proof.
  induction fuel as [|fuel IH]; intros i σ σ' n attrs Hi Hrun Hn Hs; [done|].
  cbn [href_loop] in Hrun.
  rewrite (node_at_Some _ _ _ Hn) in Hrun. cbn in Hrun.
  rewrite Hs in Hrun. cbn in Hrun.
  case_bool_decide as Hlt; cycle 1.
  { injection Hrun as <-. split; [done|]. by exists attrs. }
  apply bind_Ok_inv in Hrun as (attr & Hattr%of_option_Ok_inv & Hrun).
  apply bind_Ok_inv in Hrun as (σ1 & Hstep & Hrun).
  assert (nodes σ1 = nodes σ ∧
          ∃ attrs1, slice_of σ1 (Attr n) = Some attrs1 ∧
            length attrs1 = length attrs ∧
            ∀ j, Nat.Odd j → attrs1 !! j = attrs !! j) as (Hn1 & attrs1 & Hs1 & Hlen1 & Hodd1).
  { destruct (String.eqb (Key attr) "href");
      [|injection Hstep as <-; split; [done|by exists attrs]].
    destruct (url_Parse (Val attr)) as [link|];
      [|injection Hstep as <-; split; [done|by exists attrs]].
    apply bind_Ok_inv in Hstep as (target & _ & Hset).
    destruct (set_AttrVal_spec _ _ _ _ _ _ _ Hset Hn Hs) as (Hnodes & x & _ & Hs1).
    split; [done|]. eexists. split; [exact Hs1|]. split.
    - by rewrite length_insert.
    - intros j Hj. rewrite list_lookup_insert_ne; [done|].
      intros ->. by apply (Nat.Even_Odd_False j). }
  destruct (IH (i + 1 + 1) σ1 σ' n attrs1) as (Hn' & attrs' & Hs' & Hlen' & Hodd');
    [|done|by rewrite Hn1|done|].
  { destruct Hi as [k ->]. exists (S k). lia. }
  split; [congruence|]. exists attrs'. split; [done|]. split; [congruence|].
  intros j Hj. by rewrite Hodd', Hodd1.
Qed.

(** C5: every href attribute of every node should be resolved against the
    url of the task.  The loop over the attributes of a node steps its
    index twice per round, so it only looks at the attributes at even
    positions: whatever the url package would make of them, the
    attributes at odd positions are after the normalization of the node
    what they were before, an href among them included. *)
Theorem absolute_hrefs_skips_odd_positions fuel base node σ σ' n attrs :
  absolute_hrefs fuel base node σ = Ok σ' →
  nodes σ !! node = Some n →
  slice_of σ (Attr n) = Some attrs →
  nodes σ' = nodes σ ∧
  ∃ attrs',
    slice_of σ' (Attr n) = Some attrs' ∧
    length attrs' = length attrs ∧
    ∀ j, Nat.Odd j → attrs' !! j = attrs !! j.
Proof. apply href_loop_odd. by exists 0. Qed.
End link_normalization.

Section extraction_examples.
Import Examples.

Lemma header_count_check_witness :
  function_cards (H := page_externals) 10 0 (store_page, task_retried) =
    cards_by_pairs (H := page_externals) 10 0 [(1, 2)]
                   (store_page, task_retried).
Proof.
  destruct (header_count_check (H := page_externals) 10 0
              (store_page, task_retried)) as (_ & _ & Hfunctions & _).
  destruct (Hfunctions eq_refl) as [Hpairs _]. exact Hpairs.
Defined.

(** C4, counterexample: a task whose first download failed and whose
    second download succeeded carries both the error and the page; the
    stage extracts the function of the page and adds its note. *)
Lemma process_extracts_despite_error :
  ¬ extraction_skipped (H := page_externals) 10 task_retried.
Proof.
  unfold extraction_skipped. intros Hskip.
  specialize (Hskip (mk_is_Some _ _ eq_refl)).
  vm_compute in Hskip. discriminate Hskip.
Qed.

Lemma process_keeps_error_witness :
  ∃ task',
    process (H := page_externals) 10 task_retried = Ok task' ∧
    err task' = err task_retried ∧ length (notes task') = 1 ∧
    process (H := page_externals) 10 (set_err None task_retried)
      = Ok (set_err None task').
Proof.
  destruct (process_keeps_error (H := page_externals) 10 task_retried)
    as [Hsame Hkeeps].
  eexists. split; [vm_compute; reflexivity|].
  split; [|split; [reflexivity|]].
  - eapply Hkeeps. vm_compute. reflexivity.
  - rewrite Hsame. vm_compute. reflexivity.
Defined.

(** On <div class=c href=/x> the link normalization changes nothing: the
    href is the second attribute. *)
Example absolute_hrefs_leaves_second_attribute `{Externals} fuel base :
  HTMLTrees.Modify (6 + fuel) (absolute_hrefs (2 + fuel) base) (Some 0) store_div
  = Ok store_div.
Proof. reflexivity. Qed.

Lemma absolute_hrefs_skips_odd_positions_witness :
  ∃ σ' attrs',
    absolute_hrefs (H := page_externals) 3 (Some "https://pkg.go.dev") 0 store_div
      = Ok σ' ∧
    slice_of σ' (Some 0) = Some attrs' ∧
    attrs' !! 1 = Some (mkAttribute "" "href" "/x").
Proof.
  destruct (absolute_hrefs_skips_odd_positions (H := page_externals)
              3 (Some "https://pkg.go.dev") 0 store_div store_div _ _
              eq_refl eq_refl eq_refl) as (_ & attrs' & Hs & _ & Hodd).
  exists store_div, attrs'. split; [reflexivity|]. split; [exact Hs|].
  rewrite Hodd; [reflexivity|]. by exists 0.
Defined.

(** C10: collecting the paragraphs after a declaration block starts with
    [block.NextSibling.NextSibling]; when the block has no next sibling the
    second selector dereferences nil and the stage panics. *)
Theorem following_paragraphs_last_child fuel σ block n :
  nodes σ !! block = Some n →
  NextSibling n = None →
  following_paragraphs fuel σ block = Panic.
Proof.
  intros Hn Hnext. unfold following_paragraphs, skip_one.
  rewrite (node_at_Some _ _ _ Hn). cbn. by rewrite Hnext.
Qed.

Lemma following_paragraphs_last_child_witness :
  following_paragraphs 5 store_last_block 1 = Panic.
Proof.
  by apply (following_paragraphs_last_child 5 store_last_block 1
              (elem "div" (Some 0) None None None None None)).
Defined.

(** The same fault inside the loop: a paragraph that is the last child. *)
Example following_paragraphs_last_paragraph :
  following_paragraphs 5 store_last_paragraph 1 = Panic.
Proof. reflexivity. Qed.
End extraction_examples.

(** ** Copies share nothing with the source *)

Section sharing.
Implicit Types (σ : Store) (n : Node).

Lemma reify_chain_frame m σ σ' c f :
  reify_chain m σ c = Some f →
  (∀ a n, a ∈ addrs f → nodes σ !! a = Some n →
     nodes σ' !! a = Some n ∧ slice_of σ' (Attr n) = slice_of σ (Attr n)) →
  reify_chain m σ' c = Some f.
Proof.
  revert c f. induction m as [|m IH]; intros c f; [done|].
  cbn. destruct c as [l|]; [|done].
  destruct (nodes σ !! l) as [n|] eqn:Hn; [|done]. cbn.
  destruct (slice_of σ (Attr n)) as [attrs|] eqn:Ha; [|done]. cbn.
  destruct (reify_chain m σ (FirstChild n)) as [kids|] eqn:Hk; [|done]. cbn.
  destruct (reify_chain m σ (NextSibling n)) as [rest|] eqn:Hr; [|done]. cbn.
  intros Heq Hsame. injection Heq as <-. cbn in Hsame.
  destruct (Hsame l n (list_elem_of_here _ _) Hn) as [Hl Hs].
  rewrite Hl. cbn. rewrite Hs, Ha. cbn.
  rewrite (IH _ _ Hk), (IH _ _ Hr); [done|..];
    intros a n' Ha' Hn'; apply Hsame; try done;
    apply list_elem_of_further, elem_of_app; auto.
Qed.

Lemma reify_frame m σ σ' q t :
  reify m σ q = Some t →
  (∀ a n, a ∈ addrs t → nodes σ !! a = Some n →
     nodes σ' !! a = Some n ∧ slice_of σ' (Attr n) = slice_of σ (Attr n)) →
  reify m σ' q = Some t.
Proof.
  unfold reify.
  destruct (nodes σ !! q) as [n|] eqn:Hn; [|done]. cbn.
  destruct (slice_of σ (Attr n)) as [attrs|] eqn:Ha; [|done]. cbn.
  destruct (reify_chain m σ (FirstChild n)) as [kids|] eqn:Hk; [|done]. cbn.
  intros Heq Hsame. injection Heq as <-. cbn in Hsame.
  destruct (Hsame q n (list_elem_of_here _ _) Hn) as [Hl Hs].
  rewrite Hl. cbn. rewrite Hs, Ha. cbn.
  rewrite (reify_chain_frame _ _ _ _ _ Hk); [done|].
  intros a n' Ha' Hn'. apply Hsame; [|done].
  apply list_elem_of_further, elem_of_app; auto.
Qed.

Lemma slice_of_Some_preserved σ σ' s attrs :
  preserves (arrays σ) (arrays σ') →
  slice_of σ s = Some attrs → slice_of σ' s = slice_of σ s.
Proof. intros Harr Hs. rewrite Hs. by eapply slice_of_preserves. Qed.

Lemma reify_chain_slices m σ c f a n :
  reify_chain m σ c = Some f → a ∈ addrs f → nodes σ !! a = Some n →
  is_Some (slice_of σ (Attr n)).
Proof.
  revert c f. induction m as [|m IH]; intros c f; [done|].
  cbn. destruct c as [l|]; [|intros [= <-]; set_solver].
  destruct (nodes σ !! l) as [n'|] eqn:Hn; [|done]. cbn.
  destruct (slice_of σ (Attr n')) as [attrs|] eqn:Ha; [|done]. cbn.
  destruct (reify_chain m σ (FirstChild n')) as [kids|] eqn:Hk; [|done]. cbn.
  destruct (reify_chain m σ (NextSibling n')) as [rest|] eqn:Hr; [|done]. cbn.
  intros [= <-]. cbn. rewrite elem_of_cons, elem_of_app.
  intros [->|[?|?]] Hn'; eauto.
  replace n with n' by congruence. by rewrite Ha.
Qed.

Lemma preserves_unchanged σ σ' :
  preserves (nodes σ) (nodes σ') → preserves (arrays σ) (arrays σ') →
  unchanged σ σ'.
Proof.
  intros Hn Ha m q t Hre. eapply reify_frame; [done|].
  intros a n Hin Hlook. split; [by apply Hn|].
  assert (is_Some (slice_of σ (Attr n))) as [attrs Hs].
  { unfold reify in Hre.
    destruct (nodes σ !! q) as [nq|] eqn:Hnq; [|done]. cbn in Hre.
    destruct (slice_of σ (Attr nq)) as [attrs|] eqn:Hsq; [|done]. cbn in Hre.
    destruct (reify_chain m σ (FirstChild nq)) as [kids|] eqn:Hk; [|done].
    cbn in Hre. injection Hre as <-. cbn in Hin.
    apply elem_of_cons in Hin as [->|Hin].
    - replace n with nq by congruence. by rewrite Hsq.
    - rewrite app_nil_r in Hin. by eapply reify_chain_slices. }
  by eapply slice_of_Some_preserved.
Qed.

Lemma reify_chain_mono m m' σ c f :
  reify_chain m σ c = Some f → m ≤ m' → reify_chain m' σ c = Some f.
Proof.
  revert m' c f. induction m as [|m IH]; intros m' c f; [done|].
  intros Hre Hle. destruct m' as [|m']; [lia|].
  cbn in *. destruct c as [l|]; [|done].
  destruct (nodes σ !! l) as [n|]; [|done]. cbn in *.
  destruct (slice_of σ (Attr n)) as [attrs|]; [|done]. cbn in *.
  destruct (reify_chain m σ (FirstChild n)) as [kids|] eqn:Hk; [|done].
  cbn in *.
  destruct (reify_chain m σ (NextSibling n)) as [rest|] eqn:Hr; [|done].
  rewrite (IH m' _ _ Hk), (IH m' _ _ Hr) by lia. done.
Qed.

Lemma reify_det m m' σ q t t' :
  reify m σ q = Some t → reify m' σ q = Some t' → t = t'.
Proof.
  unfold reify.
  destruct (nodes σ !! q) as [n|]; [|done]. cbn.
  destruct (slice_of σ (Attr n)) as [attrs|]; [|done]. cbn.
  destruct (reify_chain m σ (FirstChild n)) as [kids|] eqn:Hk; [|done].
  destruct (reify_chain m' σ (FirstChild n)) as [kids'|] eqn:Hk'; [|done].
  cbn. intros [= <-] [= <-].
  apply (reify_chain_mono _ (m `max` m')) in Hk; [|lia].
  apply (reify_chain_mono _ (m `max` m')) in Hk'; [|lia].
  congruence.
Qed.

Lemma closed_above_region b ba σ :
  closed_above b ba σ →
  closed_region b (length (nodes σ)) ba (length (arrays σ)) σ.
Proof. intros Hcl l n [??]. by apply Hcl. Qed.

Lemma closed_region_preserved b e ba ea σ σ' :
  closed_region b e ba ea σ →
  e ≤ length (nodes σ) →
  preserves (nodes σ) (nodes σ') →
  closed_region b e ba ea σ'.
Proof.
  intros Hcl He Hpres l n Hl Hn. apply (Hcl l n Hl).
  destruct (lookup_lt_is_Some_2 (nodes σ) l) as [n' Hn']; [lia|].
  by rewrite <- Hn, (Hpres _ _ Hn').
Qed.

Lemma reachable_region b e ba ea σ p l :
  closed_region b e ba ea σ → b ≤ p < e → reachable σ p l → b ≤ l < e.
Proof.
  intros Hcl Hp. induction 1 as [|q r n _ IH Hn Hr]; [done|].
  destruct (Hcl q n IH Hn) as (H1 & H2 & H3 & H4 & H5 & _).
  unfold pointers in Hr.
  repeat (apply elem_of_cons in Hr as [Hr|Hr];
          [rewrite <- Hr in *; by cbn in *|]).
  by apply elem_of_nil in Hr.
Qed.

Lemma rewrite_at_frame σ l σ' :
  rewrite_at σ l σ' →
  ∃ n, nodes σ !! l = Some n ∧
    (∀ i, i ≠ l → nodes σ' !! i = nodes σ !! i) ∧
    (∀ a, Attr n ≠ Some a → arrays σ' !! a = arrays σ !! a).
Proof.
  intros [v Hup|i v Hset].
  - unfold update in Hup.
    apply bind_Ok_inv in Hup as (n & Hn%of_option_Ok_inv & [= <-]).
    exists n. split_and!; [done| |done].
    intros j Hj. cbn. by rewrite list_lookup_insert_ne.
  - unfold set_AttrVal in Hset.
    apply bind_Ok_inv in Hset as (n & Hn%of_option_Ok_inv & Hset).
    apply bind_Ok_inv in Hset as (a & Ha%of_option_Ok_inv & Hset).
    apply bind_Ok_inv in Hset as (arr & Harr & Hset).
    apply bind_Ok_inv in Hset as (x & Hx & [= <-]).
    exists n. split_and!; [done|done|].
    intros a' Ha'. cbn. rewrite list_lookup_insert_ne; [done|congruence].
Qed.

(** A rewrite of a cell of the region leaves everything outside of the
    region as it was. *)
Lemma rewrite_in_region b e ba ea σ l σ' :
  closed_region b e ba ea σ → b ≤ l < e → rewrite_at σ l σ' →
  (∀ i, ¬ (b ≤ i < e) → nodes σ' !! i = nodes σ !! i) ∧
  (∀ a, ¬ (ba ≤ a < ea) → arrays σ' !! a = arrays σ !! a).
Proof.
  intros Hcl Hl (n & Hn & Hnodes & Harrs)%rewrite_at_frame.
  destruct (Hcl l n Hl Hn) as (_ & _ & _ & _ & _ & Hattr).
  split.
  - intros i Hi. apply Hnodes. lia.
  - intros a Ha. apply Harrs. intros Heq. rewrite Heq in Hattr. by cbn in Hattr.
Qed.
End sharing.

Lemma rewrite_fresh_unchanged σ σ1 p l σ' :
  preserves (nodes σ) (nodes σ1) →
  preserves (arrays σ) (arrays σ1) →
  closed_above (length (nodes σ)) (length (arrays σ)) σ1 →
  length (nodes σ) ≤ p < length (nodes σ1) →
  reachable σ1 p l →
  rewrite_at σ1 l σ' →
  unchanged σ σ'.
Proof.
  intros Hn Ha Hcl%closed_above_region Hp Hreach Hrw.
  pose proof (reachable_region _ _ _ _ _ _ _ Hcl Hp Hreach) as Hl.
  destruct (rewrite_in_region _ _ _ _ _ _ _ Hcl Hl Hrw) as [Hnodes Harrs].
  apply preserves_unchanged.
  - intros i x Hi. pose proof (lookup_lt_Some _ _ _ Hi).
    rewrite Hnodes by lia. by apply Hn.
  - intros i x Hi. pose proof (lookup_lt_Some _ _ _ Hi).
    rewrite Harrs by lia. by apply Ha.
Qed.

Section projections_are_private.
Import HTMLTrees.
Context {StA StB : Type}.
Variable selA : loc → Store → StA → result (bool * StA).
Variable selB : loc → Store → StB → result (bool * StB).
Variable σ : Store.
Variables RA RB : loc → forest → bool.
Variable InvA : StA → Prop.
Variable InvB : StB → Prop.
Variables DA DB : loc → forest → Prop.
Hypothesis selA_sound : computes selA σ RA InvA DA.
Hypothesis selB_sound : computes selB σ RB InvB DB.

(** C9: take a tree of the store and any two relevance tests, and derive
    a projection A of the tree and then a projection B.  Every cell that
    can be reached from the root of A, by any of the five pointers, was
    allocated by the projection, and so was its attribute array.  Hence a
    rewrite of the text or of an attribute value of such a cell leaves
    every tree that could be read before A was derived as it was (the
    source tree, earlier projections) and it leaves B as it was; and a
    rewrite of a cell of B leaves the source tree and A as they were. *)
Theorem projections_share_nothing root fuel0 t sA sB :
  reify fuel0 σ root = Some t →
  all_nodes DA t → InvA sA →
  all_nodes DB t → InvB sB →
  share_nothing selA selB σ root sA sB.
Proof.
  intros Ht HDA HsA HDB HsB. unfold share_nothing.
  pose proof (DeepCopyFunc_spec selA σ RA InvA DA selA_sound σ root fuel0 t sA
                (preserves_refl _) (preserves_refl _) Ht HDA HsA) as HN.
  exists (depth t). intros fuelA HfuelA.
  destruct (HN fuelA HfuelA)
    as (σA & sA' & tA & HrunA & _ & [mA HtA] & _ & _ & HclA & HnA & HaA).
  set (b := length (nodes σ)) in *. set (ba := length (arrays σ)) in *.
  assert (b < length (nodes σA)) as HbA.
  { apply reify_inv in HtA as (nr & _ & _ & _ & Hnr%lookup_lt_Some & _).
    done. }
  exists b, σA, sA'. split; [done|]. split.
  { intros l σ' Hreach Hrw.
    eapply (rewrite_fresh_unchanged σ σA b); eauto. }
  pose proof (DeepCopyFunc_spec selB σ RB InvB DB selB_sound σA root fuel0 t sB
                HnA HaA Ht HDB HsB) as HN'.
  exists (depth t). intros fuelB HfuelB.
  destruct (HN' fuelB HfuelB)
    as (σB & sB' & tB & HrunB & _ & [mB HtB] & _ & HfreshB & HclB & HnB & HaB).
  set (e := length (nodes σA)) in *. set (ea := length (arrays σA)) in *.
  assert (e < length (nodes σB)) as HeB.
  { apply reify_inv in HtB as (nr & _ & _ & _ & Hnr%lookup_lt_Some & _).
    done. }
  exists e, σB, sB'. split; [done|]. split.
  { intros l σ' Hreach Hrw.
    eapply (rewrite_fresh_unchanged σA σB e); eauto. }
  intros l σ' Hreach Hrw.
  assert (closed_region b e ba ea σB) as Hreg.
  { eapply closed_region_preserved; [by apply closed_above_region|done|done]. }
  assert (b ≤ l < e) as Hl.
  { eapply reachable_region; [exact Hreg| |exact Hreach]. lia. }
  destruct (rewrite_in_region _ _ _ _ _ _ _ Hreg Hl Hrw) as [Hnodes Harrs].
  split.
  - apply preserves_unchanged.
    + intros i x Hi. pose proof (lookup_lt_Some _ _ _ Hi).
      rewrite Hnodes by (unfold b; lia). by apply HnB, HnA.
    + intros i x Hi. pose proof (lookup_lt_Some _ _ _ Hi).
      rewrite Harrs by (unfold ba; lia). by apply HaB, HaA.
  - intros m tB' HtB'.
    assert (tB' = tB) as -> by (by eapply reify_det).
    eapply reify_frame; [done|]. intros a n Ha Hn.
    pose proof (HfreshB a Ha) as Hae.
    rewrite Hnodes by lia. split; [done|].
    destruct (HclB a n Hae Hn) as (_ & _ & _ & _ & _ & Hattr).
    destruct (Attr n) as [arr|]; [|done]. cbn in *.
    apply Harrs. lia.
Qed.
End projections_are_private.

Section tree_examples.
Import HTMLTrees Examples.

Lemma projections_share_nothing_witness :
  share_nothing (pure_sel (λ l, bool_decide (l = 1))) (pure_sel (λ _, true))
                store_div 0 () ().
Proof.
  eapply (projections_share_nothing _ _ store_div _ _ _ _ _ _
            (pure_sel_computes _ store_div) (pure_sel_computes _ store_div)
            0 5 _ () ()).
  - reflexivity.
  - apply all_nodes_True.
  - exact I.
  - apply all_nodes_True.
  - exact I.
Defined.

Lemma DeepCopy_DeepCopyFunc fuel root σ :
  DeepCopy fuel root σ =
    '(newRoot, σ', _) ← DeepCopyFunc (pure_sel (λ _, true)) fuel root σ ();
    Ok (newRoot, σ').
Proof.
  unfold DeepCopy, DeepCopyFunc.
  destruct (Copy root σ) as [[newRoot σ1]| | |]; cbn; [|done..].
  by destruct (rec _ fuel root newRoot σ1 ()) as [[σ2 []]| | |].
Qed.

(** C3: for a tree of the store, [DeepCopy] returns with enough fuel,
    and the tree under the new root has, node for node and in the same
    order of children, the type, the tag (Data and DataAtom), the text and
    the attribute list (namespace, key and value of every entry, with
    duplicates, in order) of the source tree.  The clone is a tree of its
    own: its root and all its nodes are cells that the call allocated,
    they point to each other and to backing arrays of their own only, the
    cells and arrays of the source are as they were, and the Parent,
    PrevSibling and LastChild pointers of the clone fit its shape.  The
    node field Namespace, which is none of the aspects above, is not
    copied: it is empty in every node of the clone. *)
Theorem DeepCopy_is_clone σ root fuel0 t :
  reify fuel0 σ root = Some t →
  ∃ N, ∀ fuel, N ≤ fuel →
    ∃ newRoot σ' t',
      DeepCopy fuel root σ = Ok (newRoot, σ') ∧
      (∃ m, reify m σ' newRoot = Some t') ∧
      erase t' = erase t ∧
      allocated_after σ σ' newRoot t' ∧
      well_linked σ' newRoot t' ∧
      without_namespace σ' t'.
Proof.
  intros Ht. exists (depth t). intros fuel Hfuel.
  destruct (DeepCopyFunc_built (pure_sel (λ _, true)) σ (λ _ _, true)
              (λ _, True) (λ _ _, True) (pure_sel_computes _ σ) σ root fuel0 t
              () (preserves_refl _) (preserves_refl _) Ht (all_nodes_True _) I
              fuel Hfuel)
    as (σ' & [] & t' & Hrun & _ & Hre & He & Hnew & Hlinks & Hns).
  exists (length (nodes σ)), σ', t'.
  rewrite DeepCopy_DeepCopyFunc, Hrun. split; [done|]. split; [done|].
  split; [|done].
  rewrite He. apply reify_inv in Ht as (nr & attrs & kids & -> & _).
  cbn. by rewrite prune_all.
Qed.

Lemma DeepCopy_is_clone_witness :
  ∃ t, reify 5 store_div 0 = Some t ∧
    ∃ N, ∀ fuel, N ≤ fuel →
      ∃ newRoot σ' t',
        DeepCopy fuel 0 store_div = Ok (newRoot, σ') ∧
        (∃ m, reify m σ' newRoot = Some t') ∧
        erase t' = erase t ∧
        allocated_after store_div σ' newRoot t' ∧
        well_linked σ' newRoot t' ∧
        without_namespace σ' t'.
Proof.
  eexists. split; [reflexivity|].
  apply (DeepCopy_is_clone store_div 0 5). reflexivity.
Defined.

(** [Copy] does not set the namespace of the new node. *)
Lemma Copy_Namespace node σ newNode σ' n :
  Copy node σ = Ok (newNode, σ') →
  nodes σ' !! newNode = Some n → Namespace n = "".
Proof.
  unfold Copy. intros Hrun.
  apply bind_Ok_inv in Hrun as (n0 & _ & Hrun).
  apply bind_Ok_inv in Hrun as (src & _ & Hrun).
  destruct (if bool_decide (0 < length src) then _ else _) as [attr σ1].
  apply bind_Ok_inv in Hrun as (σ2 & _ & Hrun).
  injection Hrun as <- <-. cbn.
  rewrite lookup_app_r, Nat.sub_diag by done. by intros [= <-].
Qed.

(** C2, counterexample: on <p>hi</p> the text node is copied although the
    predicate rejects it. *)
Lemma reject_all_keeps_text : ¬ reject_all_gives_root_only 3 store_text 0.
Proof.
  intros Hclaim.
  exact (Hclaim (fcons 2 (mkContent ElementNode 0 "p" [])
                   (fcons 3 (mkContent TextNode 0 "hi" []) fnil fnil) fnil)
                eq_refl).
Qed.

(** C2, amended: with a predicate that accepts no node [DeepCopyFunc]
    returns (with enough fuel, on a tree of the store), and the new tree
    is a copy of the root with copies of its text-type children below it,
    in their order; it is a root without children exactly when the root
    has no text-type child. *)
Theorem DeepCopyFunc_reject_all σ root fuel0 t :
  reify fuel0 σ root = Some t →
  ∃ N, ∀ fuel, N ≤ fuel →
    ∃ newRoot σ' t',
      DeepCopyFunc (pure_sel (λ _, false)) fuel root σ () = Ok (newRoot, σ', ()) ∧
      (∃ m, reify m σ' newRoot = Some t') ∧
      erase t' = erase (root_with_texts t) ∧
      (root_only t' ↔ root_only (root_with_texts t)).
Proof.
  intros Ht.
  destruct (DeepCopyFunc_pure (λ _, false) σ root fuel0 t Ht) as [N HN].
  exists N. intros fuel Hfuel.
  destruct (HN fuel Hfuel) as (σ' & t' & Hrun & Hre & He & _).
  exists (length (nodes σ)), σ', t'. split; [done|]. split; [done|].
  apply reify_inv in Ht as (nr & attrs & kids & -> & _).
  cbn in *. rewrite prune_none in He. split; [done|].
  destruct t' as [|a' c' kids' rest']; [done|]. cbn in He.
  injection He as _ Hk Hr.
  destruct kids' as [|], rest' as [|], (texts kids) as [|]; by cbn in *.
Qed.

Lemma DeepCopyFunc_reject_all_witness :
  ∃ t, reify 3 store_text 0 = Some t ∧
    ∃ N, ∀ fuel, N ≤ fuel →
      ∃ newRoot σ' t',
        DeepCopyFunc (pure_sel (λ _, false)) fuel 0 store_text ()
          = Ok (newRoot, σ', ()) ∧
        (∃ m, reify m σ' newRoot = Some t') ∧
        erase t' = erase (root_with_texts t) ∧
        (root_only t' ↔ root_only (root_with_texts t)).
Proof.
  eexists. split; [reflexivity|].
  apply (DeepCopyFunc_reject_all store_text 0 3). reflexivity.
Defined.
End tree_examples.

(** ** Designated-set mode: [DeepCopySubtrees] *)

Section marking.
Import HTMLTrees.
Implicit Types (σ : Store) (f ks : forest) (work : list (loc * forest)).

Lemma cells_tops f : cells (tops f) = addrs f.
Proof.
  induction f as [|a c kids _ rest IH]; [done|].
  cbn [tops addrs]. unfold cells in *. cbn. by rewrite IH.
Qed.

Lemma cells_app work1 work2 : cells (work1 ++ work2) = cells work1 ++ cells work2.
Proof. unfold cells. apply bind_app. Qed.

Lemma tops_tree_at σ f :
  forest_at σ f → Forall (λ w, tree_at σ w.1 w.2 ∧ depth w.2 < depth f) (tops f).
Proof.
  induction 1 as [|a n attrs kids rest Hn Ha Hk Hr Hkids _ _ IH]; cbn [tops].
  - constructor.
  - constructor.
    + cbn. split; [by exists n|lia].
    + eapply Forall_impl; [exact IH|]. cbn. intros [l ks] [? ?]. split; [done|lia].
Qed.

Lemma push_children_spec σ f fuel stack :
  forest_at σ f → depth f ≤ fuel →
  push_children fuel σ (head_addr f) stack = Ok (stack ++ (tops f).*1).
Proof.
  intros Hf. revert fuel stack.
  induction Hf as [|a n attrs kids rest Hn Ha Hk Hr _ _ _ IH];
    intros [|fuel] stack Hfuel; cbn in Hfuel; try lia.
  - cbn. by rewrite app_nil_r.
  - cbn [head_addr push_children]. rewrite (node_at_Some _ _ _ Hn). cbn.
    rewrite Hr, IH by lia. cbn. by rewrite <- app_assoc.
Qed.

Lemma mark_spec σ B n : ∀ work cache fuel,
  length (cells work) ≤ n →
  Forall (λ w, tree_at σ w.1 w.2 ∧ depth w.2 ≤ B) work →
  n + B < fuel →
  ∃ M, mark fuel σ work.*1 cache = Ok M ∧
    ∀ x, M !! x = if decide (x ∈ cells work) then Some true else cache !! x.
Proof.
  induction n as [|n IH]; intros work cache fuel Hn Hwork Hfuel.
  - destruct work as [|[l ks] work]; [|cbn in Hn; lia].
    destruct fuel as [|fuel]; [lia|]. exists cache. split; [done|].
    intros x. by rewrite decide_False by set_solver.
  - destruct fuel as [|fuel]; [lia|].
    destruct work as [|[l ks] work].
    { exists cache. split; [done|]. intros x.
      by rewrite decide_False by set_solver. }
    apply Forall_cons in Hwork as [[(nl & Hnl & Hfc & Hks) Hd] Hwork].
    cbn in Hnl, Hfc, Hks, Hd.
    cbn [fmap list_fmap fst mark]. rewrite (node_at_Some _ _ _ Hnl). cbn.
    rewrite Hfc, (push_children_spec _ _ _ _ Hks) by lia. cbn.
    destruct (IH (work ++ tops ks) (<[l := true]> cache) fuel) as (M & HM & Hlook).
    { rewrite cells_app, cells_tops, length_app.
      unfold cells in Hn. cbn in Hn. rewrite length_app in Hn.
      fold (cells work) in Hn. lia. }
    { apply Forall_app. split; [done|].
      eapply Forall_impl; [by apply tops_tree_at|].
      cbn. intros [l' ks'] [? ?]. split; [done|]. cbn in *. lia. }
    { lia. }
    rewrite fmap_app in HM. exists M. split; [done|].
    intros x. rewrite Hlook, cells_app, cells_tops.
    unfold cells at 2. cbn. fold (cells work).
    destruct (decide (x = l)) as [->|Hne].
    + rewrite lookup_insert_eq.
      rewrite (decide_True (P := l ∈ l :: _)) by set_solver.
      by destruct (decide _).
    + rewrite lookup_insert_ne by done.
      destruct (decide (x ∈ cells work ++ addrs ks)) as [Hin|Hnin].
      * rewrite decide_True; [done|]. set_solver.
      * rewrite decide_False; [done|]. set_solver.
Qed.
End marking.

Lemma forest_at_det σ f f' :
  forest_at σ f → forest_at σ f' → head_addr f = head_addr f' → f = f'.
Proof.
  intros [N HN]%reify_chain_complete [N' HN']%reify_chain_complete Hhead.
  specialize (HN (N `max` N')). specialize (HN' (N `max` N')).
  rewrite Hhead in HN. rewrite HN' in HN by lia.
  symmetry. apply (inj Some). apply HN. lia.
Qed.

Lemma forest_at_preserves σ0 σ f :
  forest_at σ0 f →
  preserves (nodes σ0) (nodes σ) → preserves (arrays σ0) (arrays σ) →
  forest_at σ f.
Proof.
  intros Hf Hn Ha.
  induction Hf; econstructor; eauto using slice_of_preserves.
Qed.

Lemma touches_cons M a c kids rest :
  touches M (fcons a c kids rest) = in_or_above M a kids || touches M rest.
Proof. reflexivity. Qed.

Lemma all_nodes_depth m f :
  depth f ≤ m → all_nodes (λ _ kids, S (depth kids) ≤ m) f.
Proof.
  induction f as [|a c kids IH1 rest IH2]; cbn; [done|]. intros Hm.
  split_and!; [lia|apply IH1; lia|apply IH2; lia].
Qed.

Lemma children_of_elem d f : d ∈ addrs f → is_Some (children_of d f).
Proof.
  induction f as [|a c kids IH1 rest IH2]; cbn; [by intros ?%elem_of_nil|].
  rewrite elem_of_cons, elem_of_app. intros Hd.
  destruct (decide (a = d)); [by eexists|].
  destruct Hd as [->|[Hd|Hd]]; [done|..].
  - destruct (IH1 Hd) as [ks ->]. by eexists.
  - destruct (children_of d kids); [by eexists|]. auto.
Qed.

Lemma children_of_tree_at σ d f ks :
  forest_at σ f → children_of d f = Some ks →
  tree_at σ d ks ∧ depth ks < depth f.
Proof.
  induction 1 as [|a n attrs kids rest Hn Ha Hk Hr Hkids IH1 _ IH2]; [done|].
  cbn [children_of depth]. destruct (decide (a = d)) as [->|Hne].
  - intros [= <-]. split; [by exists n|lia].
  - destruct (children_of d kids) as [ks'|] eqn:Hc.
    + intros [= <-]. destruct (IH1 eq_refl). split; [done|lia].
    + intros Hc'. destruct (IH2 Hc'). split; [done|lia].
Qed.

Section lookup_correct.
Import HTMLTrees.
Variable σ0 : Store.
Variable M : list loc.

Lemma cache_ok_insert cache a n kids :
  cache_ok σ0 M cache →
  a ∉ M →
  nodes σ0 !! a = Some n → FirstChild n = head_addr kids →
  forest_at σ0 kids →
  cache_ok σ0 M (<[a := touches M kids]> cache).
Proof.
  intros [Hmarked Hentries] Ha Hn Hk Hkids. split.
  - intros l Hl. rewrite lookup_insert_ne by congruence. auto.
  - intros l b n' kids' Hl Hn' Hk' Hkids'.
    destruct (decide (a = l)) as [<-|Hne].
    + rewrite lookup_insert_eq in Hl. injection Hl as <-.
      replace n' with n in * by congruence.
      rewrite (forest_at_det σ0 kids' kids) by (done || congruence).
      unfold in_or_above. by rewrite bool_decide_false.
    + rewrite lookup_insert_ne in Hl by done. eauto.
Qed.

(** [lookup] on a node, given what [lookup_children] does on its
    children. *)
Lemma lookup_node a n kids :
  nodes σ0 !! a = Some n → FirstChild n = head_addr kids →
  forest_at σ0 kids →
  (∀ fuel σ root cache,
     depth kids ≤ fuel →
     preserves (nodes σ0) (nodes σ) → preserves (arrays σ0) (arrays σ) →
     cache_ok σ0 M cache →
     ∃ cache',
       lookup_children fuel σ root (head_addr kids) cache
         = Ok (touches M kids, <[root := touches M kids]> cache') ∧
       cache_ok σ0 M cache') →
  ∀ fuel σ cache,
    S (depth kids) ≤ fuel →
    preserves (nodes σ0) (nodes σ) → preserves (arrays σ0) (arrays σ) →
    cache_ok σ0 M cache →
    ∃ cache',
      lookup fuel σ (Some a) cache = Ok (in_or_above M a kids, cache') ∧
      cache_ok σ0 M cache'.
Proof.
  intros Hn Hk Hkids Hchildren [|fuel] σ cache Hfuel Hσ Harr Hok; [lia|].
  cbn [lookup]. destruct (cache !! a) as [res|] eqn:Hres.
  - exists cache. split; [|done]. do 2 f_equal.
    by apply (proj2 Hok a res n kids).
  - assert (a ∉ M) as Ha.
    { intros Hin. apply (proj1 Hok) in Hin. congruence. }
    rewrite (node_at_Some _ _ _ (Hσ _ _ Hn)). cbn. rewrite Hk.
    destruct (Hchildren fuel σ a cache) as (cache' & -> & Hok');
      [lia|done..|].
    eexists. split.
    + unfold in_or_above. by rewrite bool_decide_false.
    + by eapply cache_ok_insert.
Qed.

Lemma lookup_children_spec f :
  forest_at σ0 f →
  ∀ fuel σ root cache,
    depth f ≤ fuel →
    preserves (nodes σ0) (nodes σ) → preserves (arrays σ0) (arrays σ) →
    cache_ok σ0 M cache →
    ∃ cache',
      lookup_children fuel σ root (head_addr f) cache
        = Ok (touches M f, <[root := touches M f]> cache') ∧
      cache_ok σ0 M cache'.
Proof.
  induction 1 as [|a n attrs kids rest Hn Ha Hk Hr Hkids IH1 _ IH2];
    intros [|fuel] σ root cache Hfuel Hσ Harr Hok; cbn in Hfuel; try lia.
  - by exists cache.
  - cbn [head_addr lookup_children]. rewrite touches_cons.
    destruct (lookup_node a n kids Hn Hk Hkids IH1 fuel σ cache)
      as (cache1 & -> & Hok1); [lia|done..|].
    cbn [mbind result_bind].
    destruct (in_or_above M a kids); [by exists cache1|].
    rewrite (node_at_Some _ _ _ (Hσ _ _ Hn)). cbn [mbind result_bind orb].
    rewrite Hr.
    destruct (IH2 fuel σ root cache1) as (cache2 & -> & Hok2); [lia|done..|].
    by exists cache2.
Qed.

Lemma lookup_computes fuel :
  computes (λ (l : loc) (σ : Store) (cache : gmap nat bool),
              lookup fuel σ (Some l) cache)
           σ0 (in_or_above M) (cache_ok σ0 M) (λ _ kids, S (depth kids) ≤ fuel).
Proof.
  intros l n kids σ cache Hfuel Hn Hk Hkids Hok Hσ Harr.
  eapply lookup_node; eauto. intros. by apply lookup_children_spec.
Qed.
End lookup_correct.

Section DeepCopySubtrees_correct.
Import HTMLTrees.

Lemma children_of_rooted σ root nr c kids d ks :
  nodes σ !! root = Some nr → FirstChild nr = head_addr kids →
  forest_at σ kids →
  children_of d (fcons root c kids fnil) = Some ks →
  tree_at σ d ks ∧ depth ks ≤ depth (fcons root c kids fnil).
Proof.
  intros Hnr Hk Hkids. cbn [children_of depth].
  destruct (decide (root = d)) as [->|Hne].
  - intros [= <-]. split; [by exists nr|lia].
  - destruct (children_of d kids) as [ks'|] eqn:Hc; [|done].
    intros [= <-].
    destruct (children_of_tree_at σ d kids ks' Hkids Hc). split; [done|lia].
Qed.

Lemma designated_work σ root nr c kids subtrees :
  let t := fcons root c kids fnil in
  nodes σ !! root = Some nr → FirstChild nr = head_addr kids →
  forest_at σ kids →
  (∀ d, d ∈ subtrees → d ∈ addrs t) →
  ∃ work,
    work.*1 = subtrees ∧
    cells work = subtree_cells subtrees t ∧
    Forall (λ w, tree_at σ w.1 w.2 ∧ depth w.2 ≤ depth t) work.
Proof.
  intros t Hnr Hk Hkids. induction subtrees as [|d subtrees IH]; intros Hin.
  - by exists [].
  - destruct IH as (work & Hfst & Hcells & Hwork).
    { intros d' Hd'. apply Hin. by right. }
    destruct (children_of_elem d t) as [ks Hks]; [apply Hin; by left|].
    exists ((d, ks) :: work). split_and!.
    + cbn. by rewrite Hfst.
    + change (cells ((d, ks) :: work)) with ((d :: addrs ks) ++ cells work).
      change (subtree_cells (d :: subtrees) t)
        with (match children_of d t with
              | Some ks => d :: addrs ks
              | None => []
              end ++ subtree_cells subtrees t).
      by rewrite Hks, Hcells.
    + constructor; [|done]. by eapply children_of_rooted.
Qed.

Lemma marked_cache_ok σ M (cache : gmap nat bool) :
  (∀ x, cache !! x = if decide (x ∈ M) then Some true else None) →
  cache_ok σ M cache.
Proof.
  intros Hcache. split.
  - intros l Hl. by rewrite Hcache, decide_True.
  - intros l b n kids Hl _ _ _. rewrite Hcache in Hl.
    destruct (decide (l ∈ M)); [|done]. injection Hl as <-.
    unfold in_or_above. by rewrite bool_decide_true.
Qed.

(** [DeepCopySubtrees] on a tree of the store and designated nodes of the
    tree: with enough fuel it returns, and the new tree is the projection
    that keeps, below the root, the nodes that lie in a designated subtree
    or above one, and the text-type children of kept nodes. *)
Lemma DeepCopySubtrees_spec σ root fuel0 t subtrees :
  reify fuel0 σ root = Some t →
  (∀ d, d ∈ subtrees → d ∈ addrs t) →
  ∃ N, ∀ fuel, N ≤ fuel →
    ∃ newRoot σ' t',
      DeepCopySubtrees fuel root subtrees σ = Ok (newRoot, σ') ∧
      (∃ m, reify m σ' newRoot = Some t') ∧
      erase t' = erase (project (in_or_above (subtree_cells subtrees t)) t).
Proof.
  intros Ht Hin.
  pose proof Ht as (nr & attrs & kids & -> & Hnr & Ha & Hk & Hkids)%reify_inv.
  set (t := fcons root (content_of nr attrs) kids fnil) in *.
  destruct (designated_work σ root nr (content_of nr attrs) kids subtrees
              Hnr Hk Hkids Hin) as (work & Hfst & Hcells & Hwork).
  set (M := subtree_cells subtrees t) in *.
  exists (S (length (cells work) + depth t)). intros fuel Hfuel.
  destruct (mark_spec σ (depth t) (length (cells work)) work ∅ fuel)
    as (cache & Hmark & Hcache); [done|done|lia|].
  unfold DeepCopySubtrees. rewrite <- Hfst, Hmark. cbn.
  assert (cache_ok σ M cache) as Hok.
  { apply marked_cache_ok. intros x. rewrite Hcache, Hcells.
    by destruct (decide _). }
  destruct (DeepCopyFunc_spec _ σ (in_or_above M) (cache_ok σ M) _
              (lookup_computes σ M fuel) σ root fuel0 t cache
              (preserves_refl _) (preserves_refl _) Ht
              (all_nodes_depth fuel t ltac:(lia)) Hok fuel)
    as (σ' & cache' & t' & Hrun & _ & Hre & He & _); [lia|].
  rewrite Hrun. cbn. by exists (length (nodes σ)), σ', t'.
Qed.

(** The same with the pointers and the field that [reify] does not
    read. *)
Lemma DeepCopySubtrees_built σ root fuel0 t subtrees :
  reify fuel0 σ root = Some t →
  (∀ d, d ∈ subtrees → d ∈ addrs t) →
  ∃ N, ∀ fuel, N ≤ fuel →
    ∃ newRoot σ' t',
      DeepCopySubtrees fuel root subtrees σ = Ok (newRoot, σ') ∧
      (∃ m, reify m σ' newRoot = Some t') ∧
      erase t' = erase (project (in_or_above (subtree_cells subtrees t)) t) ∧
      allocated_after σ σ' newRoot t' ∧
      well_linked σ' newRoot t' ∧
      without_namespace σ' t'.
Proof.
  intros Ht Hin.
  pose proof Ht as (nr & attrs & kids & -> & Hnr & Ha & Hk & Hkids)%reify_inv.
  set (t := fcons root (content_of nr attrs) kids fnil) in *.
  destruct (designated_work σ root nr (content_of nr attrs) kids subtrees
              Hnr Hk Hkids Hin) as (work & Hfst & Hcells & Hwork).
  set (M := subtree_cells subtrees t) in *.
  exists (S (length (cells work) + depth t)). intros fuel Hfuel.
  destruct (mark_spec σ (depth t) (length (cells work)) work ∅ fuel)
    as (cache & Hmark & Hcache); [done|done|lia|].
  unfold DeepCopySubtrees. rewrite <- Hfst, Hmark. cbn.
  assert (cache_ok σ M cache) as Hok.
  { apply marked_cache_ok. intros x. rewrite Hcache, Hcells.
    by destruct (decide _). }
  destruct (DeepCopyFunc_built _ σ (in_or_above M) (cache_ok σ M) _
              (lookup_computes σ M fuel) σ root fuel0 t cache
              (preserves_refl _) (preserves_refl _) Ht
              (all_nodes_depth fuel t ltac:(lia)) Hok fuel)
    as (σ' & cache' & t' & Hrun & _ & Hre & He & Hrest); [lia|].
  rewrite Hrun. cbn. by exists (length (nodes σ)), σ', t'.
Qed.
End DeepCopySubtrees_correct.

Section inclusion.
Import HTMLTrees Examples.

(** C1, counterexample: in <div><span><b></b></span></div> the predicate
    accepts the b element only.  The span is not a text node and is
    rejected, so the loop of [rec] passes over it without looking below
    it: the projection is the div alone, although a descendant of the
    span is relevant. *)
Lemma predicate_mode_drops_ancestor :
  ¬ includes_as_stated 5 (λ l, bool_decide (l = 2)) store_nested 0.
Proof.
  intros Hclaim.
  specialize (Hclaim _ _ eq_refl eq_refl). vm_compute in Hclaim.
  discriminate Hclaim.
Qed.

(** C1, amended.  In predicate mode ([DeepCopyFunc]) a node's copy is
    included under its already included parent iff the predicate accepts
    the node or the node is a text node; a node that is rejected is left
    out with everything below it, also when the predicate accepts one of
    its descendants.  In designated-set mode ([DeepCopySubtrees]) the test
    that is handed to [DeepCopyFunc] accepts a node iff the node lies in
    the subtree of a designated node or has such a node below it, so
    there a node's copy is included iff the node is relevant, or is a text
    node, or has a relevant descendant. *)
Theorem projection_includes σ root fuel0 t :
  reify fuel0 σ root = Some t →
  (∀ p, ∃ N, ∀ fuel, N ≤ fuel →
     ∃ newRoot σ' t',
       DeepCopyFunc (pure_sel p) fuel root σ () = Ok (newRoot, σ', ()) ∧
       (∃ m, reify m σ' newRoot = Some t') ∧
       erase t' = erase (project (λ a _, p a) t)) ∧
  (∀ subtrees, (∀ d, d ∈ subtrees → d ∈ addrs t) →
     ∃ N, ∀ fuel, N ≤ fuel →
       ∃ newRoot σ' t',
         DeepCopySubtrees fuel root subtrees σ = Ok (newRoot, σ') ∧
         (∃ m, reify m σ' newRoot = Some t') ∧
         erase t' = erase (project (in_or_above (subtree_cells subtrees t)) t)).
Proof.
  intros Ht. split.
  - intros p. destruct (DeepCopyFunc_pure p σ root fuel0 t Ht) as [N HN].
    exists N. intros fuel Hfuel.
    destruct (HN fuel Hfuel) as (σ' & t' & Hrun & Hre & He & _).
    by exists (length (nodes σ)), σ', t'.
  - intros subtrees Hin. by eapply DeepCopySubtrees_spec.
Qed.

Lemma projection_includes_witness :
  ∃ N, ∀ fuel, N ≤ fuel →
    ∃ newRoot σ' t',
      DeepCopySubtrees fuel 0 [2] store_nested = Ok (newRoot, σ') ∧
      (∃ m, reify m σ' newRoot = Some t') ∧
      erase t' = erase (fcons 0 (mkContent ElementNode 0 "div" [])
                          (fcons 1 (mkContent ElementNode 0 "span" [])
                             (fcons 2 (mkContent ElementNode 0 "b" []) fnil fnil)
                             fnil) fnil).
Proof.
  refine (proj2 (projection_includes store_nested 0 5 _ eq_refl) [2] _).
  intros d ->%list_elem_of_singleton. cbn.
  apply list_elem_of_further, list_elem_of_further, list_elem_of_here.
Defined.
End inclusion.

(** * Further properties of package HTMLTrees *)

Section Copy_properties.
Import HTMLTrees.

(** X1: [Copy] of a node of the store returns a new cell, the last of the
    store, and leaves every cell and backing array that was there as it
    was.  The new node has the type, the atom and the data of the source
    and none of its five pointers.  Its attributes are those of the
    source, in a backing array of its own when there are any, so that a
    later write to an attribute of the copy does not reach the source;
    when the source has no attributes the slice of the copy is nil. *)
Theorem Copy_is_flat σ node n attrs :
  nodes σ !! node = Some n →
  slice_of σ (Attr n) = Some attrs →
  ∃ σ' n',
    Copy node σ = Ok (length (nodes σ), σ') ∧
    nodes σ' = nodes σ ++ [n'] ∧
    pointers n' = [None; None; None; None; None] ∧
    Type_ n' = Type_ n ∧ DataAtom n' = DataAtom n ∧ Data n' = Data n ∧
    slice_of σ' (Attr n') = Some attrs ∧
    match Attr n' with
    | None => attrs = [] ∧ arrays σ' = arrays σ
    | Some a =>
        attrs ≠ [] ∧ a = length (arrays σ) ∧ arrays σ' = arrays σ ++ [attrs]
    end.
Proof.
  intros Hn Ha. unfold Copy. rewrite (node_at_Some _ _ _ Hn). cbn.
  rewrite Ha. cbn. case_bool_decide as Hlen.
  - pose proof (make_then_copy σ attrs) as Hmc.
    unfold make_attr in Hmc. cbn [snd] in Hmc. rewrite Hmc. cbn.
    eexists _, _. split; [reflexivity|]. cbn.
    split_and!; try done.
    + cbn. by rewrite lookup_app_r, Nat.sub_diag.
    + cbn. split_and!; try done. intros ->. cbn in Hlen. lia.
  - cbn. eexists _, _. split; [reflexivity|]. cbn.
    destruct attrs; [by split_and!|cbn in Hlen; lia].
Qed.

Lemma Copy_is_flat_witness :
  ∃ σ' n',
    Copy 0 Examples.store_div = Ok (4, σ') ∧
    nodes σ' = nodes Examples.store_div ++ [n'] ∧
    Attr n' = Some 1 ∧
    arrays σ' !! 1 = arrays Examples.store_div !! 0.
Proof.
  destruct (Copy_is_flat Examples.store_div 0 _ _ eq_refl eq_refl)
    as (σ' & n' & Hrun & Hnodes & _ & _ & _ & _ & _ & Hattr).
  exists σ', n'. split; [exact Hrun|]. split; [exact Hnodes|].
  destruct (Attr n') as [a|]; [|by destruct Hattr].
  destruct Hattr as (_ & -> & ->). by split.
Defined.
End Copy_properties.

Section DeepCopyFunc_properties.
Import HTMLTrees.
Context {St : Type}.
Variable sel : loc → Store → St → result (bool * St).
Variable σ0 : Store.
Variable R : loc → forest → bool.
Variable Inv : St → Prop.
Variable D : loc → forest → Prop.
Hypothesis sel_sound : computes sel σ0 R Inv D.

(** X2: the tree that [DeepCopyFunc] returns hangs together.  On a tree
    of the store, for a selection closure that computes a relevance test,
    the call returns with enough fuel, and in the new tree every node's
    Parent is the node it hangs under, its PrevSibling is the sibling
    before it (nil for a first child), its LastChild is the last of its
    children (nil without children), and the new root has no parent and
    no sibling.  This holds whatever these pointers are in the source. *)
Theorem DeepCopyFunc_well_linked root fuel0 t s :
  reify fuel0 σ0 root = Some t →
  all_nodes D t →
  Inv s →
  ∃ N, ∀ fuel, N ≤ fuel →
    ∃ newRoot σ' s' t',
      DeepCopyFunc sel fuel root σ0 s = Ok (newRoot, σ', s') ∧
      (∃ m, reify m σ' newRoot = Some t') ∧
      well_linked σ' newRoot t'.
Proof.
  intros Ht HD Hs. exists (depth t). intros fuel Hfuel.
  destruct (DeepCopyFunc_built sel σ0 R Inv D sel_sound σ0 root fuel0 t s
              (preserves_refl _) (preserves_refl _) Ht HD Hs fuel Hfuel)
    as (σ' & s' & t' & Hrun & _ & Hre & _ & _ & Hlinked & _).
  by exists (length (nodes σ0)), σ', s', t'.
Qed.

(** X3: [DeepCopyFunc] only allocates.  Under the same conditions the new
    root is the first cell after those of the store, every cell and every
    backing array that was in the store is still there with the same
    content, and so every tree that could be read before the call reads
    the same after it. *)
Theorem DeepCopyFunc_only_allocates root fuel0 t s :
  reify fuel0 σ0 root = Some t →
  all_nodes D t →
  Inv s →
  ∃ N, ∀ fuel, N ≤ fuel →
    ∃ σ' s',
      DeepCopyFunc sel fuel root σ0 s = Ok (length (nodes σ0), σ', s') ∧
      preserves (nodes σ0) (nodes σ') ∧
      preserves (arrays σ0) (arrays σ') ∧
      unchanged σ0 σ'.
Proof.
  intros Ht HD Hs. exists (depth t). intros fuel Hfuel.
  destruct (DeepCopyFunc_built sel σ0 R Inv D sel_sound σ0 root fuel0 t s
              (preserves_refl _) (preserves_refl _) Ht HD Hs fuel Hfuel)
    as (σ' & s' & t' & Hrun & _ & _ & _ & (_ & _ & _ & Hn & Ha) & _).
  exists σ', s'. split_and!; try done. by apply preserves_unchanged.
Qed.
End DeepCopyFunc_properties.

Section DeepCopyFunc_examples.
Import HTMLTrees Examples.

Lemma DeepCopyFunc_well_linked_witness :
  ∃ N, ∀ fuel, N ≤ fuel →
    ∃ newRoot σ' s' t',
      DeepCopyFunc (pure_sel (λ l, bool_decide (l ≠ 1))) fuel 0 store_div ()
        = Ok (newRoot, σ', s') ∧
      (∃ m, reify m σ' newRoot = Some t') ∧
      well_linked σ' newRoot t'.
Proof.
  eapply (DeepCopyFunc_well_linked _ store_div _ _ _
            (pure_sel_computes _ store_div) 0 5 _ ()).
  - reflexivity.
  - apply all_nodes_True.
  - exact I.
Defined.

Lemma DeepCopyFunc_only_allocates_witness :
  ∃ N, ∀ fuel, N ≤ fuel →
    ∃ σ' s',
      DeepCopyFunc (pure_sel (λ l, bool_decide (l ≠ 1))) fuel 0 store_div ()
        = Ok (4, σ', s') ∧
      preserves (nodes store_div) (nodes σ') ∧
      preserves (arrays store_div) (arrays σ') ∧
      unchanged store_div σ'.
Proof.
  eapply (DeepCopyFunc_only_allocates _ store_div _ _ _
            (pure_sel_computes _ store_div) 0 5 _ ()).
  - reflexivity.
  - apply all_nodes_True.
  - exact I.
Defined.
End DeepCopyFunc_examples.

(** ** Selector mode and the designated subtrees *)

Section selection_modes.
Import HTMLTrees.

Lemma marks_lookup (nodes : list loc) (cache : gmap nat bool) x :
  foldl (λ cache node, <[node := true]> cache) cache nodes !! x
  = if decide (x ∈ nodes) then Some true else cache !! x.
Proof.
  revert cache. induction nodes as [|l nodes IH]; intros cache; cbn.
  - by rewrite decide_False by apply not_elem_of_nil.
  - rewrite IH. destruct (decide (x ∈ nodes)) as [Hin|Hnin].
    + by rewrite decide_True by by right.
    + destruct (decide (x = l)) as [->|Hne].
      * rewrite lookup_insert_eq. by rewrite decide_True by by left.
      * rewrite lookup_insert_ne by done.
        rewrite decide_False; [done|]. by intros [?|?]%elem_of_cons.
Qed.

(** X4: [DeepCopySelector] on a tree of the store returns with enough
    fuel, and the new tree is the projection for the nodes that the
    selector matches: below the root it keeps a node under its kept
    parent when the node is matched or has a matched node below it, and it
    keeps every text node of a kept parent.  Only the matched nodes
    themselves are entered in the memo table, so the nodes below a
    matched node are kept only under these rules. *)
Theorem DeepCopySelector_projects σ root fuel0 t selector :
  reify fuel0 σ root = Some t →
  ∃ N, ∀ fuel, N ≤ fuel →
    ∃ newRoot σ' t',
      DeepCopySelector fuel root selector σ = Ok (newRoot, σ') ∧
      (∃ m, reify m σ' newRoot = Some t') ∧
      erase t' = erase (project (in_or_above (selector σ root)) t).
Proof.
  intros Ht. exists (depth t). intros fuel Hfuel. unfold DeepCopySelector.
  set (M := selector σ root).
  set (cache := foldl _ _ M).
  assert (cache_ok σ M cache) as Hok.
  { apply marked_cache_ok. intros x. unfold cache. rewrite marks_lookup.
    by destruct (decide _). }
  destruct (DeepCopyFunc_spec _ σ (in_or_above M) (cache_ok σ M) _
              (lookup_computes σ M fuel) σ root fuel0 t cache
              (preserves_refl _) (preserves_refl _) Ht
              (all_nodes_depth fuel t Hfuel) Hok fuel Hfuel)
    as (σ' & cache' & t' & Hrun & _ & Hre & He & _).
  rewrite Hrun. cbn. by exists (length (nodes σ)), σ', t'.
Qed.

Lemma DeepCopySelector_projects_witness :
  ∃ N, ∀ fuel, N ≤ fuel →
    ∃ newRoot σ' t',
      DeepCopySelector fuel 0 (λ _ _, [1]) Examples.store_nested
        = Ok (newRoot, σ') ∧
      (∃ m, reify m σ' newRoot = Some t') ∧
      erase t' = dcons (mkContent ElementNode 0 "div" [])
                   (dcons (mkContent ElementNode 0 "span" []) dnil dnil) dnil.
Proof.
  exact (DeepCopySelector_projects Examples.store_nested 0 5
           (fcons 0 (mkContent ElementNode 0 "div" [])
              (fcons 1 (mkContent ElementNode 0 "span" [])
                 (fcons 2 (mkContent ElementNode 0 "b" []) fnil fnil) fnil)
              fnil)
           (λ _ _, [1]) eq_refl).
Defined.

Lemma prune_agree R R' f :
  all_nodes (λ a kids, R a kids = R' a kids) f → prune R f = prune R' f.
Proof.
  induction f as [|a c kids IH1 rest IH2]; cbn; [done|].
  intros (-> & Hkids & Hrest). by rewrite IH1, IH2.
Qed.

Lemma touches_nil f : touches [] f = false.
Proof.
  induction f as [|a c kids IH1 rest IH2]; cbn; [done|].
  rewrite IH1, IH2. by rewrite bool_decide_false by apply not_elem_of_nil.
Qed.

Lemma in_or_above_nil f :
  all_nodes (λ a kids, in_or_above [] a kids = false) f.
Proof.
  induction f as [|a c kids IH1 rest IH2]; cbn; [done|].
  split_and!; try done. unfold in_or_above.
  by rewrite touches_nil, bool_decide_false by apply not_elem_of_nil.
Qed.

Lemma in_or_above_all M f :
  (∀ a, a ∈ addrs f → a ∈ M) →
  all_nodes (λ a kids, in_or_above M a kids = true) f.
Proof.
  induction f as [|a c kids IH1 rest IH2]; cbn; [done|]. intros Hin.
  split_and!.
  - unfold in_or_above. rewrite bool_decide_true; [done|].
    apply Hin, list_elem_of_here.
  - apply IH1. intros x Hx. apply Hin, list_elem_of_further, elem_of_app.
    by left.
  - apply IH2. intros x Hx. apply Hin, list_elem_of_further, elem_of_app.
    by right.
Qed.

Lemma prune_all_in M f :
  (∀ a, a ∈ addrs f → a ∈ M) → prune (in_or_above M) f = f.
Proof.
  intros Hin. rewrite (prune_agree _ (λ _ _, true)); [apply prune_all|].
  by apply in_or_above_all.
Qed.

(** X5: with no designated node, [DeepCopySubtrees] returns a copy of the
    root with the text nodes that hang from it through text nodes only:
    nothing is designated, and text nodes of a kept parent are still
    copied. *)
Theorem DeepCopySubtrees_nothing_designated σ root fuel0 t :
  reify fuel0 σ root = Some t →
  ∃ N, ∀ fuel, N ≤ fuel →
    ∃ newRoot σ' t',
      DeepCopySubtrees fuel root [] σ = Ok (newRoot, σ') ∧
      (∃ m, reify m σ' newRoot = Some t') ∧
      erase t' = erase (root_with_texts t).
Proof.
  intros Ht.
  destruct (DeepCopySubtrees_spec σ root fuel0 t [] Ht) as [N HN].
  { by intros d ?%elem_of_nil. }
  exists N. intros fuel Hfuel.
  destruct (HN fuel Hfuel) as (newRoot & σ' & t' & Hrun & Hre & He).
  exists newRoot, σ', t'. split; [done|]. split; [done|]. rewrite He.
  apply reify_inv in Ht as (nr & attrs & kids & -> & _). cbn.
  change (subtree_cells [] _) with (@nil nat).
  by rewrite (prune_agree _ (λ _ _, false)), prune_none
    by apply in_or_above_nil.
Qed.

Lemma DeepCopySubtrees_nothing_designated_witness :
  ∃ N, ∀ fuel, N ≤ fuel →
    ∃ newRoot σ' t',
      DeepCopySubtrees fuel 0 [] Examples.store_div = Ok (newRoot, σ') ∧
      (∃ m, reify m σ' newRoot = Some t') ∧
      erase t' = dcons (mkContent ElementNode 0 "div"
                          [mkAttribute "" "class" "c";
                           mkAttribute "" "href" "/x"]) dnil dnil.
Proof.
  exact (DeepCopySubtrees_nothing_designated Examples.store_div 0 5
           (fcons 0 (mkContent ElementNode 0 "div"
                       [mkAttribute "" "class" "c"; mkAttribute "" "href" "/x"])
              (fcons 1 (mkContent ElementNode 0 "span" [])
                 (fcons 2 (mkContent TextNode 0 "hi" []) fnil fnil)
                 (fcons 3 (mkContent ElementNode 0 "p" []) fnil fnil))
              fnil)
           eq_refl).
Defined.

(** X6: with the root as the designated node, [DeepCopySubtrees] returns
    a copy of the whole tree.  The new tree has, node for node and in the
    same order of children, the type, the tag, the text and the attribute
    list of the source tree; it lies in cells that the call allocated,
    which point to each other and to backing arrays of their own only,
    while the cells and arrays of the source are as they were; its back
    pointers fit its shape; and its nodes have no Namespace, the one field
    that [Copy] does not copy. *)
Theorem DeepCopySubtrees_root_designated σ root fuel0 t :
  reify fuel0 σ root = Some t →
  ∃ N, ∀ fuel, N ≤ fuel →
    ∃ newRoot σ' t',
      DeepCopySubtrees fuel root [root] σ = Ok (newRoot, σ') ∧
      (∃ m, reify m σ' newRoot = Some t') ∧
      erase t' = erase t ∧
      allocated_after σ σ' newRoot t' ∧
      well_linked σ' newRoot t' ∧
      without_namespace σ' t'.
Proof.
  intros Ht.
  pose proof Ht as (nr & attrs & kids & Heq & _)%reify_inv.
  destruct (DeepCopySubtrees_built σ root fuel0 t [root] Ht) as [N HN].
  { intros d ->%list_elem_of_singleton. rewrite Heq. apply list_elem_of_here. }
  exists N. intros fuel Hfuel.
  destruct (HN fuel Hfuel) as (newRoot & σ' & t' & Hrun & Hre & He & Hrest).
  exists newRoot, σ', t'. split; [done|]. split; [done|]. split; [|done].
  rewrite He. subst t. cbn [project erase]. rewrite prune_all_in; [done|].
  intros a Ha. unfold subtree_cells. cbn. rewrite decide_True by done.
  rewrite app_nil_r. by apply list_elem_of_further.
Qed.

Lemma DeepCopySubtrees_root_designated_witness :
  ∃ t, reify 5 Examples.store_div 0 = Some t ∧
    ∃ N, ∀ fuel, N ≤ fuel →
      ∃ newRoot σ' t',
        DeepCopySubtrees fuel 0 [0] Examples.store_div = Ok (newRoot, σ') ∧
        (∃ m, reify m σ' newRoot = Some t') ∧
        erase t' = erase t ∧
        allocated_after Examples.store_div σ' newRoot t' ∧
        well_linked σ' newRoot t' ∧
        without_namespace σ' t'.
Proof.
  eexists. split; [reflexivity|].
  apply (DeepCopySubtrees_root_designated Examples.store_div 0 5).
  reflexivity.
Defined.
End selection_modes.

Section designated_subtrees.
Import HTMLTrees.

Lemma subtree_of_addr d c ks f : subtree_of d c ks f → d ∈ addrs f.
Proof.
  induction 1; cbn.
  - apply list_elem_of_here.
  - apply list_elem_of_further, elem_of_app. by left.
  - apply list_elem_of_further, elem_of_app. by right.
Qed.

Lemma touches_elem M f a : a ∈ addrs f → a ∈ M → touches M f = true.
Proof.
  induction f as [|b c kids IH1 rest IH2]; cbn; [by intros ?%elem_of_nil|].
  rewrite elem_of_cons, elem_of_app. intros [->|[Hin|Hin]] HM.
  - by rewrite bool_decide_true.
  - rewrite IH1 by done. by rewrite orb_true_r.
  - rewrite IH2 by done. by rewrite orb_true_r.
Qed.

Lemma prune_has_subtree M d c ks f :
  d ∈ M → (∀ x, x ∈ addrs ks → x ∈ M) →
  subtree_of d c ks f →
  has_subtree c (erase ks) (erase (prune (in_or_above M) f)).
Proof.
  intros Hd Hks. induction 1 as [rest|a c' kids rest Hsub IH|a c' kids rest Hsub IH].
  - cbn. unfold in_or_above at 1. rewrite bool_decide_true by done. cbn.
    rewrite prune_all_in by done. constructor.
  - cbn. unfold in_or_above at 1.
    rewrite (touches_elem M kids d) by eauto using subtree_of_addr.
    rewrite orb_true_r. cbn. by apply has_subtree_below.
  - cbn. destruct (in_or_above M a kids || is_TextNode (cType c')); [|done].
    cbn. by apply has_subtree_later.
Qed.

Lemma subtree_of_tree_at σ f d c ks :
  forest_at σ f → subtree_of d c ks f → tree_at σ d ks.
Proof.
  induction 1 as [|a n attrs kids rest Hn Ha Hk Hr Hkids IH1 Hrest IH2];
    inversion 1; subst; eauto.
  by exists n.
Qed.

(** The children that [children_of] finds for a node of a tree of the
    store are those of every occurrence of the node. *)
Lemma subtree_of_children σ root fuel0 t d c ks :
  reify fuel0 σ root = Some t →
  subtree_of d c ks t →
  children_of d t = Some ks.
Proof.
  intros (nr & attrs & kids & -> & Hnr & Ha & Hk & Hkids)%reify_inv Hsub.
  assert (tree_at σ d ks) as (n & Hn & Hfc & Hks).
  { inversion Hsub; subst.
    - by exists nr.
    - by eapply subtree_of_tree_at.
    - by inversion H0. }
  destruct (children_of_elem d (fcons root (content_of nr attrs) kids fnil))
    as [ks' Hks']; [by eapply subtree_of_addr|].
  destruct (children_of_rooted σ root nr _ kids d ks' Hnr Hk Hkids Hks')
    as [(n' & Hn' & Hfc' & Hks'') _].
  rewrite Hks'. f_equal. eapply forest_at_det; [done..|]. congruence.
Qed.

(** X7: a designated node comes with its whole subtree.  For designated
    nodes of a tree of the store, [DeepCopySubtrees] returns with enough
    fuel, and for every designated node the new tree has a node with its
    content and with copies of all its descendants below it, in their
    order. *)
Theorem DeepCopySubtrees_keeps_designated σ root fuel0 t subtrees d c ks :
  reify fuel0 σ root = Some t →
  (∀ d, d ∈ subtrees → d ∈ addrs t) →
  d ∈ subtrees →
  subtree_of d c ks t →
  ∃ N, ∀ fuel, N ≤ fuel →
    ∃ newRoot σ' t',
      DeepCopySubtrees fuel root subtrees σ = Ok (newRoot, σ') ∧
      (∃ m, reify m σ' newRoot = Some t') ∧
      has_subtree c (erase ks) (erase t').
Proof.
  intros Ht Hin Hd Hsub.
  destruct (DeepCopySubtrees_spec σ root fuel0 t subtrees Ht Hin) as [N HN].
  exists N. intros fuel Hfuel.
  destruct (HN fuel Hfuel) as (newRoot & σ' & t' & Hrun & Hre & He).
  exists newRoot, σ', t'. split; [done|]. split; [done|]. rewrite He.
  pose proof (subtree_of_children _ _ _ _ _ _ _ Ht Hsub) as Hch.
  set (M := subtree_cells subtrees t).
  assert (∀ x, x ∈ d :: addrs ks → x ∈ M) as HM.
  { intros x Hx. unfold M, subtree_cells. apply list_elem_of_bind.
    exists d. by rewrite Hch. }
  assert (d ∈ M) as HdM by apply HM, list_elem_of_here.
  assert (∀ x, x ∈ addrs ks → x ∈ M) as HksM
    by (intros x Hx; by apply HM, list_elem_of_further).
  clearbody M. clear Hch HM He Hre Hrun HN Hin.
  apply reify_inv in Ht as (nr & attrs & kids & -> & _).
  inversion Hsub as [rest|a c' kids' rest Hsub'|a c' kids' rest Hsub']; subst.
  - cbn. rewrite prune_all_in by done. constructor.
  - cbn. apply has_subtree_below. by apply (prune_has_subtree M d).
  - (* the root has no siblings in the tree *)
    inversion Hsub'.
Qed.

Lemma DeepCopySubtrees_keeps_designated_witness :
  ∃ N, ∀ fuel, N ≤ fuel →
    ∃ newRoot σ' t',
      DeepCopySubtrees fuel 0 [1] Examples.store_div = Ok (newRoot, σ') ∧
      (∃ m, reify m σ' newRoot = Some t') ∧
      has_subtree (mkContent ElementNode 0 "span" [])
        (dcons (mkContent TextNode 0 "hi" []) dnil dnil) (erase t').
Proof.
  eapply (DeepCopySubtrees_keeps_designated Examples.store_div 0 5 _ [1] 1
            (mkContent ElementNode 0 "span" [])
            (fcons 2 (mkContent TextNode 0 "hi" []) fnil fnil)).
  - reflexivity.
  - intros d ->%list_elem_of_singleton. cbn.
    apply list_elem_of_further, list_elem_of_here.
  - apply list_elem_of_here.
  - apply subtree_below, subtree_here.
Defined.
End designated_subtrees.

Section memo_table.
Import HTMLTrees.

(** X8: the memo table can be used again.  From a table that holds the
    marked nodes, and through any run of lookups on nodes of the store,
    every lookup returns, and its answer is the relevance of the node (it
    is marked, or a node below it is), whatever the lookups before it have
    entered in the table. *)
Theorem lookup_answers_stable σ M fuel queries : ∀ cache,
  cache_ok σ M cache →
  Forall (λ l, ∃ kids, tree_at σ l kids ∧ depth kids < fuel) queries →
  ∃ answers cache',
    lookups fuel σ queries cache = Ok (answers, cache') ∧
    cache_ok σ M cache' ∧
    Forall2 (λ l b, ∀ kids, tree_at σ l kids → b = in_or_above M l kids)
            queries answers.
Proof.
  induction queries as [|l queries IH]; intros cache Hok Hq.
  - exists [], cache. by split_and!.
  - apply Forall_cons in Hq as [(kids & (n & Hn & Hk & Hkids) & Hd) Hq].
    destruct (lookup_computes σ M fuel l n kids σ cache) as (cache1 & Hrun & Hok1);
      [lia|done..|apply preserves_refl|apply preserves_refl|].
    destruct (IH cache1 Hok1 Hq) as (answers & cache' & Hrest & Hok' & Hall).
    exists (in_or_above M l kids :: answers), cache'.
    cbn [lookups]. rewrite Hrun. cbn. rewrite Hrest. cbn.
    split_and!; [done..|]. constructor; [|done].
    intros kids' (n' & Hn' & Hk' & Hkids').
    rewrite (forest_at_det σ kids' kids); [done..|congruence].
Qed.

Lemma lookup_answers_stable_witness :
  ∃ answers cache',
    lookups 6 Examples.store_nested [1; 0; 1] (<[2 := true]> ∅)
      = Ok (answers, cache') ∧
    cache_ok Examples.store_nested [2] cache' ∧
    Forall2 (λ l b, ∀ kids, tree_at Examples.store_nested l kids →
                            b = in_or_above [2] l kids)
            [1; 0; 1] answers.
Proof.
  set (k2 := fcons 2 (mkContent ElementNode 0 "b" []) fnil fnil).
  set (k1 := fcons 1 (mkContent ElementNode 0 "span" []) k2 fnil).
  assert (forest_at Examples.store_nested k1) as Hf1
    by (apply (reify_chain_sound 5 _ (Some 1)); reflexivity).
  assert (forest_at Examples.store_nested k2) as Hf2
    by (apply (reify_chain_sound 5 _ (Some 2)); reflexivity).
  apply (lookup_answers_stable Examples.store_nested [2] 6 [1; 0; 1]).
  - apply marked_cache_ok. intros x. destruct (decide (x = 2)) as [->|Hne].
    + rewrite lookup_insert_eq. by rewrite decide_True by apply list_elem_of_here.
    + rewrite lookup_insert_ne, lookup_empty by done.
      rewrite decide_False; [done|]. by intros ->%list_elem_of_singleton.
  - repeat apply Forall_cons_2; [| | |apply Forall_nil_2].
    + exists k2. split; [eexists; split_and!; [reflexivity|reflexivity|done]|].
      vm_compute. lia.
    + exists k1. split; [eexists; split_and!; [reflexivity|reflexivity|done]|].
      vm_compute. lia.
    + exists k2. split; [eexists; split_and!; [reflexivity|reflexivity|done]|].
      vm_compute. lia.
Defined.
End memo_table.

(** ** [Modify] *)

Lemma foldM_app {A B} (f : A → B → result B) l1 l2 b :
  foldM f (l1 ++ l2) b = b' ← foldM f l1 b; foldM f l2 b'.
Proof.
  revert b. induction l1 as [|x l1 IH]; intros b; cbn; [done|].
  destruct (f x b) as [b1| | |]; cbn; [apply IH|done..].
Qed.

Lemma forest_at_skeleton σ g : forest_at σ g → skeleton_at σ g.
Proof. induction 1; cbn; [done|]. split_and!; [by eexists|done..]. Qed.

Section Modify_properties.
Import HTMLTrees.
Variable f : loc → Store → result Store.
Hypothesis f_keeps : keeps_links f.

Lemma skeleton_at_step l σ σ' g :
  f l σ = Ok σ' → skeleton_at σ g → skeleton_at σ' g.
Proof.
  intros Hf. induction g as [|a c kids IH1 rest IH2]; cbn; [done|].
  intros ((n & Hn & Hk & Hr) & Hkids & Hrest). split_and!; auto.
  destruct (f_keeps _ _ _ Hf _ _ Hn) as (n' & Hn' & Hk' & Hr').
  exists n'. split_and!; congruence.
Qed.

Lemma skeleton_at_foldM ls σ σ' g :
  foldM f ls σ = Ok σ' → skeleton_at σ g → skeleton_at σ' g.
Proof.
  apply (foldM_invariant (λ σ, skeleton_at σ g)).
  intros l σ1 σ2 Hf. by apply (skeleton_at_step l).
Qed.

Lemma Modify_node fuel node σ :
  Modify (S fuel) f (Some node) σ =
    σ ← f node σ; n ← node_at σ node; Modify_children fuel f (FirstChild n) σ.
Proof. reflexivity. Qed.

Lemma Modify_children_cons fuel c σ :
  Modify_children (S fuel) f (Some c) σ =
    σ ← Modify fuel f (Some c) σ;
    nc ← node_at σ c;
    Modify_children fuel f (NextSibling nc) σ.
Proof. reflexivity. Qed.

Lemma Modify_children_preorder g : ∀ fuel σ,
  depth g ≤ fuel → skeleton_at σ g →
  Modify_children fuel f (head_addr g) σ = foldM f (addrs g) σ.
Proof.
  induction g as [|a c kids IH1 rest IH2]; intros fuel σ Hfuel Hsk.
  - destruct fuel; [cbn in Hfuel; lia|done].
  - cbn [depth] in Hfuel.
    destruct fuel as [|[|fuel]]; [lia..|].
    cbn [head_addr addrs foldM].
    rewrite Modify_children_cons, Modify_node.
    destruct (f a σ) as [σ1| | |] eqn:Hf; cbn [mbind result_bind]; [|done..].
    rewrite foldM_app.
    pose proof (skeleton_at_step _ _ _ _ Hf Hsk) as Hsk1. cbn in Hsk1.
    destruct Hsk1 as ((n1 & Hn1 & Hk1 & Hr1) & Hkids1 & Hrest1).
    rewrite (node_at_Some _ _ _ Hn1). cbn [mbind result_bind].
    rewrite Hk1, (IH1 fuel σ1) by (done || lia).
    destruct (foldM f (addrs kids) σ1) as [σ2| | |] eqn:Hkids;
      cbn [mbind result_bind]; [|done..].
    assert (skeleton_at σ2 (fcons a c kids rest)) as Hsk2.
    { eapply skeleton_at_foldM; [exact Hkids|]. cbn. split_and!; eauto. }
    cbn in Hsk2. destruct Hsk2 as ((n2 & Hn2 & Hk2 & Hr2) & Hkids2 & Hrest2).
    rewrite (node_at_Some _ _ _ Hn2). cbn [mbind result_bind].
    rewrite Hr2. apply IH2; [lia|done].
Qed.

(** X9: [Modify] runs the callback on every node of the tree once, in
    document order (a node before its children, the children from first
    to last), each call on the store that the calls before it left.  This
    is for a callback that leaves the FirstChild and NextSibling pointers
    alone; when a call of the callback faults, so does [Modify], at that
    node. *)
Theorem Modify_preorder σ root fuel0 t :
  reify fuel0 σ root = Some t →
  ∃ N, ∀ fuel, N ≤ fuel →
    Modify fuel f (Some root) σ = foldM f (addrs t) σ.
Proof.
  intros (nr & attrs & kids & -> & Hnr & Ha & Hk & Hkids)%reify_inv.
  exists (S (depth kids)). intros [|fuel] Hfuel; [lia|].
  rewrite Modify_node. cbn [addrs foldM]. rewrite app_nil_r.
  destruct (f root σ) as [σ1| | |] eqn:Hf; cbn [mbind result_bind]; [|done..].
  destruct (f_keeps _ _ _ Hf _ _ Hnr) as (n1 & Hn1 & Hk1 & Hr1).
  rewrite (node_at_Some _ _ _ Hn1). cbn [mbind result_bind].
  rewrite Hk1, Hk. apply Modify_children_preorder; [lia|].
  eapply skeleton_at_step; [exact Hf|]. by apply forest_at_skeleton.
Qed.
End Modify_properties.

Lemma absolute_hrefs_keeps_links `{Externals} fuel base :
  keeps_links (absolute_hrefs fuel base).
Proof.
  intros l σ σ' Hrun q n Hq. exists n. split; [|done].
  unfold absolute_hrefs in Hrun.
  destruct fuel as [|fuel]; [done|]. pose proof Hrun as Hrun'.
  cbn [href_loop] in Hrun'.
  apply bind_Ok_inv in Hrun' as (nl & Hnl%of_option_Ok_inv & Hrun').
  apply bind_Ok_inv in Hrun' as (attrs & Hattrs%of_option_Ok_inv & _).
  destruct (href_loop_odd (S fuel) base l 0 σ σ' nl attrs) as [Hnodes _];
    [by exists 0|done..|].
  by rewrite Hnodes.
Qed.

Lemma Modify_preorder_witness :
  ∃ N, ∀ fuel, N ≤ fuel →
    HTMLTrees.Modify fuel
      (absolute_hrefs (H := Examples.page_externals) 3 (Some "https://pkg.go.dev"))
      (Some 0) Examples.store_div
    = foldM (absolute_hrefs (H := Examples.page_externals) 3
               (Some "https://pkg.go.dev"))
            [0; 1; 2; 3] Examples.store_div.
Proof.
  exact (Modify_preorder _ (absolute_hrefs_keeps_links (H := Examples.page_externals) 3 _)
           Examples.store_div 0 5 _ eq_refl).
Defined.

(** * Further properties of the pipeline *)

(** ** [Task.ImportPath] *)

Section ImportPath_properties.
Context `{Externals}.
Implicit Types (s a b r : string).

Lemma string_app_cons c a b : String c a +:+ b = String c (a +:+ b).
Proof. reflexivity. Qed.

Lemma string_app_assoc a b r : (a +:+ b) +:+ r = a +:+ b +:+ r.
Proof.
  induction a as [|c a IH]; [done|]. by rewrite !string_app_cons, IH.
Qed.

Lemma Cut_cons c c' rest :
  Cut (String c (String c' rest)) =
    if is_colon c && is_colon c' then Some ("", rest)
    else '(before, after) ← Cut (String c' rest);
         Some (String c before, after).
Proof. reflexivity. Qed.

Lemma ReplaceAll_cons c c' rest :
  ReplaceAll (String c (String c' rest)) =
    if is_colon c && is_colon c' then String "."%char (ReplaceAll rest)
    else String c (ReplaceAll (String c' rest)).
Proof. reflexivity. Qed.

Lemma Cut_sound s a r : Cut s = Some (a, r) → s = a +:+ "::" +:+ r.
Proof.
  revert a r. induction s as [|c s IH]; intros a r; [done|].
  destruct s as [|c' rest]; [done|]. rewrite Cut_cons.
  destruct (is_colon c && is_colon c') eqn:Hcc.
  - intros [= <- <-]. apply andb_prop in Hcc as [Hc Hc'].
    apply Ascii.eqb_eq in Hc as ->. by apply Ascii.eqb_eq in Hc' as ->.
  - destruct (Cut (String c' rest)) as [[before after]|] eqn:Hcut; [|done].
    cbn. intros [= <- <-]. rewrite string_app_cons. f_equal. by apply IH.
Qed.

(** [Cut] finds a separator whenever there is one, and what it leaves
    ends with what comes after any separator. *)
Lemma Cut_app a r : ∃ a' x, Cut (a +:+ "::" +:+ r) = Some (a', x +:+ r).
Proof.
  induction a as [|c a IH].
  - by exists "", "".
  - destruct IH as (a1 & x1 & IH). rewrite string_app_cons.
    destruct (a +:+ "::" +:+ r) as [|c' rest] eqn:Heq; [by destruct a|].
    rewrite Cut_cons. destruct (is_colon c && is_colon c') eqn:Hcc.
    + destruct a as [|c'' a].
      * change (String ":" (String ":" r) = String c' rest) in Heq.
        injection Heq as <- <-. by exists "", ":".
      * rewrite string_app_cons in Heq. injection Heq as <- <-.
        exists "", (a +:+ "::"). by rewrite (string_app_assoc a "::" r).
    + rewrite IH. cbn. by eexists _, _.
Qed.

Lemma Cut_colon_free a r :
  colon_free a = true → Cut (a +:+ "::" +:+ r) = Some (a, r).
Proof.
  induction a as [|c a IH]; [done|]. cbn [colon_free].
  intros [Hc Ha]%andb_prop. apply negb_true_iff in Hc.
  rewrite string_app_cons.
  destruct (a +:+ "::" +:+ r) as [|c' rest] eqn:Heq; [by destruct a|].
  rewrite Cut_cons, Hc. cbn [andb]. by rewrite IH.
Qed.

Lemma ReplaceAll_colon_free s : colon_free s = true → ReplaceAll s = s.
Proof.
  induction s as [|c s IH]; [done|]. cbn [colon_free].
  intros [Hc Hs]%andb_prop. apply negb_true_iff in Hc.
  destruct s as [|c' rest]; [done|].
  rewrite ReplaceAll_cons, Hc. cbn [andb]. by rewrite IH.
Qed.

Lemma ReplaceAll_app s r :
  colon_free s = true →
  ReplaceAll (s +:+ "::" +:+ r) = s +:+ "." +:+ ReplaceAll r.
Proof.
  induction s as [|c s IH]; [done|]. cbn [colon_free].
  intros [Hc Hs]%andb_prop. apply negb_true_iff in Hc.
  rewrite (string_app_cons c s ("::" +:+ r)).
  rewrite (string_app_cons c s ("." +:+ ReplaceAll r)).
  destruct (s +:+ "::" +:+ r) as [|c' rest] eqn:Heq; [by destruct s|].
  rewrite ReplaceAll_cons, Hc. cbn [andb]. by rewrite IH.
Qed.

Lemma concat_cons sep s s' segs :
  String.concat sep (s :: s' :: segs) =
    s +:+ sep +:+ String.concat sep (s' :: segs).
Proof. reflexivity. Qed.

Lemma ReplaceAll_concat segs :
  Forall (λ s, colon_free s = true) segs →
  ReplaceAll (String.concat "::" segs) = String.concat "." segs.
Proof.
  induction 1 as [|s segs Hs _ IH]; [done|].
  destruct segs as [|s' segs].
  - by apply ReplaceAll_colon_free.
  - by rewrite !concat_cons, ReplaceAll_app, IH.
Qed.

Lemma lower_bytes_app s r :
  lower_bytes (s +:+ r) = lower_bytes s +:+ lower_bytes r.
Proof.
  induction s as [|c s IH]; [done|].
  rewrite string_app_cons. cbn [lower_bytes]. by rewrite string_app_cons, IH.
Qed.

Lemma lower_bytes_concat segs :
  lower_bytes (String.concat "." segs)
  = String.concat "." (lower_bytes <$> segs).
Proof.
  induction segs as [|s segs IH]; [done|].
  destruct segs as [|s' segs]; [done|].
  change (lower_bytes <$> s :: s' :: segs)
    with (lower_bytes s :: lower_bytes s' :: (lower_bytes <$> segs)).
  rewrite !concat_cons, !lower_bytes_app. f_equal. f_equal. exact IH.
Qed.

Lemma ascii_only_app s r :
  ascii_only s = true → ascii_only r = true → ascii_only (s +:+ r) = true.
Proof.
  intros Hs Hr. induction s as [|c s IH]; [done|].
  rewrite string_app_cons. cbn [ascii_only] in *.
  apply andb_prop in Hs as [-> Hs]. by rewrite IH.
Qed.

Lemma ascii_only_concat segs :
  Forall (λ s, ascii_only s = true) segs →
  ascii_only (String.concat "." segs) = true.
Proof.
  induction 1 as [|s segs Hs _ IH]; [done|].
  destruct segs as [|s' segs]; [done|].
  rewrite concat_cons. by repeat apply ascii_only_app.
Qed.

Lemma ImportPath_cases t :
  match ImportPath t with
  | Ok _ => ∃ a b c, deck t = a +:+ "::" +:+ b +:+ "::" +:+ c
  | Fatal e =>
      e = TooFewDeckParts (deck t) ∧
      ¬ ∃ a b c, deck t = a +:+ "::" +:+ b +:+ "::" +:+ c
  | Panic | Timeout => False
  end.
Proof.
  unfold ImportPath.
  destruct (Cut (deck t)) as [[a r1]|] eqn:H1.
  - destruct (Cut r1) as [[b r2]|] eqn:H2.
    + apply Cut_sound in H1, H2. exists a, b, r2. by rewrite H1, H2.
    + split; [done|]. intros (a' & b' & c' & Heq).
      destruct (Cut_app a' (b' +:+ "::" +:+ c')) as (a1 & x & Hcut).
      rewrite <- Heq, H1 in Hcut. injection Hcut as _ ->.
      destruct (Cut_app (x +:+ b') c') as (b1 & y & Hcut).
      rewrite string_app_assoc in Hcut. congruence.
  - split; [done|]. intros (a & b & c & Heq).
    destruct (Cut_app a (b +:+ "::" +:+ c)) as (a1 & x & Hcut).
    congruence.
Qed.

(** X10: [ImportPath] returns exactly for the decks that have two
    separators, that is three parts; for every other deck it ends the
    process with the error that names the deck. *)
Theorem ImportPath_needs_three_parts t :
  match ImportPath t with
  | Ok _ => ∃ a b c, deck t = a +:+ "::" +:+ b +:+ "::" +:+ c
  | Fatal e =>
      e = TooFewDeckParts (deck t) ∧
      ¬ ∃ a b c, deck t = a +:+ "::" +:+ b +:+ "::" +:+ c
  | Panic | Timeout => False
  end.
Proof. apply ImportPath_cases. Qed.

(** X11: for a deck made of parts joined by the separator, none of which
    has a colon in it, and of which the parts after the second are ASCII,
    [ImportPath] drops the first two parts, joins the others with dots and
    lowers the letters A to Z. *)
Theorem ImportPath_of_segments t a b segs :
  deck t = String.concat "::" (a :: b :: segs) →
  segs ≠ [] →
  colon_free a = true → colon_free b = true →
  Forall (λ s, colon_free s = true) segs →
  Forall (λ s, ascii_only s = true) segs →
  ImportPath t = Ok (String.concat "." (lower_bytes <$> segs)).
Proof.
  intros Hdeck Hne Ha Hb Hsegs Hascii. unfold ImportPath. rewrite Hdeck.
  destruct segs as [|s segs]; [done|].
  rewrite (concat_cons _ a), (Cut_colon_free a) by done.
  rewrite (concat_cons _ b), (Cut_colon_free b) by done.
  rewrite ReplaceAll_concat by done. unfold ToLower.
  by rewrite ascii_only_concat, lower_bytes_concat.
Qed.
End ImportPath_properties.

Lemma ImportPath_of_segments_witness :
  ImportPath (H := Examples.page_externals)
    (NewTask "https://pkg.go.dev/example/sub" "Root::pkg::Example::Sub")
  = Ok "example.sub".
Proof.
  apply (ImportPath_of_segments (H := Examples.page_externals)
           _ "Root" "pkg" ["Example"; "Sub"]);
    try reflexivity; try done; by repeat constructor.
Defined.

(** ** [HtmlDownloader] *)

Section downloader_properties.
Implicit Types (task : Task) (world : list http_response) (inq : list Task).

Lemma HtmlDownloader_loop_skips world : ∀ task inq,
  HtmlDownloader_loop world task inq =
    HtmlDownloader_loop (filter (λ r, is_rate_limit r = false) world) task inq.
Proof.
  induction world as [|r world IH]; intros task inq; [done|].
  rewrite filter_cons. destruct r as [e|code body]; cbn [is_rate_limit].
  - rewrite decide_True by done. cbn [HtmlDownloader_loop]. by rewrite IH.
  - cbn [HtmlDownloader_loop].
    destruct (code =? 200)%Z eqn:H200.
    + apply Z.eqb_eq in H200 as ->. rewrite decide_True by done.
      cbn [HtmlDownloader_loop Z.eqb Pos.eqb].
      destruct body as [e|h]; [by rewrite IH|].
      destruct inq as [|task' inq]; [done|]. by rewrite IH.
    + destruct (code =? 429)%Z eqn:H429.
      * rewrite decide_False by done. apply IH.
      * rewrite decide_True by done. cbn [HtmlDownloader_loop].
        by rewrite H200, H429.
Qed.

(** X12: rate-limit responses do not show.  A worker that is answered
    429 asks again for the same task and sends nothing, so it sends the
    same tasks and ends in the same way as on the answers without the
    429s. *)
Theorem HtmlDownloader_skips_rate_limits world inq :
  HtmlDownloader world inq =
    HtmlDownloader (filter (λ r, is_rate_limit r = false) world) inq.
Proof. destruct inq as [|task inq]; [done|]. apply HtmlDownloader_loop_skips. Qed.

(** X13: when every request is answered 200 with a body that can be
    read, and there is one answer per task, the worker sends every task
    once, in the order of the input, each with the body of its answer, and
    then waits for input. *)
Theorem HtmlDownloader_one_per_task bodies inq :
  length bodies = length inq →
  HtmlDownloader ((λ h, Response 200 (inr h)) <$> bodies) inq
  = (zip_with with_html bodies inq, Waiting).
Proof.
  destruct inq as [|task inq]; [by destruct bodies|].
  revert task inq. induction bodies as [|h bodies IH]; intros task inq; [done|].
  intros [= Hlen]. cbn.
  destruct inq as [|task' inq]; [by destruct bodies|].
  cbn in IH. by rewrite (IH task' inq Hlen).
Qed.

Lemma HtmlDownloader_one_per_task_witness :
  HtmlDownloader [Response 200 (inr [Byte.x3c]); Response 200 (inr [])]
    [NewTask "u1" "Go::std::fmt"; NewTask "u2" "Go::std::os"]
  = ([mkTask "u1" "Go::std::fmt" [Byte.x3c] [] None;
      mkTask "u2" "Go::std::os" [] [] None], Waiting).
Proof.
  exact (HtmlDownloader_one_per_task [[Byte.x3c]; []]
           [NewTask "u1" "Go::std::fmt"; NewTask "u2" "Go::std::os"] eq_refl).
Defined.

Lemma HtmlDownloader_loop_sends world : ∀ task task0 inq,
  same_request task task0 →
  Forall (λ t, (same_request t task0 ∨ ∃ t0, t0 ∈ inq ∧ same_request t t0) ∧
               (err t = None → Response 200 (inr (html t)) ∈ world))
         (HtmlDownloader_loop world task inq).1.
Proof.
  induction world as [|r world IH]; intros task task0 inq Hsame;
    [by constructor|].
  assert (∀ task', same_request task' task0 →
    Forall (λ t, (same_request t task0 ∨ ∃ t0, t0 ∈ inq ∧ same_request t t0) ∧
                 (err t = None → Response 200 (inr (html t)) ∈ r :: world))
           (HtmlDownloader_loop world task' inq).1) as Hgo.
  { intros task' Hsame'. eapply Forall_impl; [by apply IH|].
    cbn. intros t [? Hbody]. split; [done|]. intros ?. right. auto. }
  destruct r as [e|code body]; cbn [HtmlDownloader_loop].
  - cbn. constructor; [by split; [left|]|]. by apply Hgo.
  - destruct (code =? 200)%Z eqn:H200.
    + apply Z.eqb_eq in H200 as ->. destruct body as [e|h]; cbn.
      * constructor; [by split; [left|]|]. by apply Hgo.
      * constructor; [split; [by left|intros _; by left]|].
        destruct inq as [|task' inq]; [by constructor|].
        eapply Forall_impl; [by apply (IH task' task' inq)|].
        cbn. intros t [[Ht|(t0 & Hin & Ht)] Hbody]; (split; [|intros ?; right; auto]).
        -- right. exists task'. split; [by left|done].
        -- right. exists t0. split; [by right|done].
    + destruct (code =? 429)%Z; [by apply Hgo|by constructor].
Qed.

(** X14: the worker sends nothing but the tasks it received.  Every task
    it sends has the url, the deck and the notes of a task of its input;
    and a task that it sends without an error carries the body of a 200
    answer. *)
Theorem HtmlDownloader_sends_received world inq :
  Forall (λ t, (∃ t0, t0 ∈ inq ∧ same_request t t0) ∧
               (err t = None → Response 200 (inr (html t)) ∈ world))
         (HtmlDownloader world inq).1.
Proof.
  destruct inq as [|task inq]; [by constructor|]. cbn [HtmlDownloader].
  eapply Forall_impl; [by apply (HtmlDownloader_loop_sends world task task inq)|].
  cbn. intros t [[Ht|(t0 & Hin & Ht)] Hbody]; (split; [|done]).
  - exists task. split; [by left|done].
  - exists t0. split; [by right|done].
Qed.

Lemma HtmlDownloader_loop_bad_status pre code body world t : ∀ task inq,
  (HtmlDownloader_loop pre task inq).2 = Unanswered t →
  code ≠ 200%Z → code ≠ 429%Z →
  HtmlDownloader_loop (pre ++ Response code body :: world) task inq
  = ((HtmlDownloader_loop pre task inq).1, Exited (BadStatus code)).
Proof.
  intros task inq Hend H200 H429. revert task inq Hend.
  induction pre as [|r pre IH]; intros task inq Hend.
  - cbn. apply Z.eqb_neq in H200, H429. by rewrite H200, H429.
  - destruct r as [e|code' body']; cbn [app HtmlDownloader_loop] in *.
    + cbn in Hend. by rewrite (IH _ _ Hend).
    + destruct (code' =? 200)%Z.
      * destruct body' as [e|h]; cbn in Hend |- *.
        -- by rewrite (IH _ _ Hend).
        -- destruct inq as [|task' inq]; [done|]. by rewrite (IH _ _ Hend).
      * destruct (code' =? 429)%Z; [by apply IH|done].
Qed.

(** X15: a status other than 200 and 429 ends the process.  When the
    worker holds a task and its request is answered with such a status,
    nothing is sent for the task, nothing is requested any more, and the
    run ends with the error that names the status. *)
Theorem HtmlDownloader_bad_status pre code body world inq t :
  (HtmlDownloader pre inq).2 = Unanswered t →
  code ≠ 200%Z → code ≠ 429%Z →
  HtmlDownloader (pre ++ Response code body :: world) inq
  = ((HtmlDownloader pre inq).1, Exited (BadStatus code)).
Proof.
  destruct inq as [|task inq]; [done|]. apply HtmlDownloader_loop_bad_status.
Qed.

Lemma HtmlDownloader_bad_status_witness :
  HtmlDownloader
    [Response 200 (inr []); Response 429 (inr []); Response 404 (inr []);
     Response 200 (inr [])]
    [NewTask "u1" "Go::std::fmt"; NewTask "u2" "Go::std::os"]
  = ([mkTask "u1" "Go::std::fmt" [] [] None], Exited (BadStatus 404)).
Proof.
  by apply (HtmlDownloader_bad_status
              [Response 200 (inr []); Response 429 (inr [])] 404 (inr [])
              [Response 200 (inr [])]
              [NewTask "u1" "Go::std::fmt"; NewTask "u2" "Go::std::os"]
              (NewTask "u2" "Go::std::os")).
Defined.
End downloader_properties.

(** ** [NoteUploader] *)

Section uploader_properties.
Implicit Types (answers : list (option RestErr)) (inq : list Task).

(** X16: a transient failure makes the uploader send the same note
    again.  After [k] answers with status 500 and one accepted answer the
    note has been sent [k + 1] times, and the uploader goes on with the
    next note of the task and the answers that are left. *)
Theorem upload_retries_transient k a answers note rest :
  accepted a →
  upload (replicate k (Some (mkRestErr 500)) ++ a :: answers) (note :: rest)
  = (replicate (S k) (Notes_Add note) ++ (upload answers rest).1,
     (upload answers rest).2).
Proof.
  intros Ha. induction k as [|k IH].
  - cbn. destruct a as [e|]; cbn in Ha.
    + rewrite Ha. cbn. by destruct (upload answers rest).
    + by destruct (upload answers rest).
  - cbn [replicate app]. cbn [upload]. cbn [StatusCode Z.eqb Pos.eqb].
    by rewrite IH.
Qed.

Lemma upload_retries_transient_witness :
  upload [Some (mkRestErr 500); Some (mkRestErr 500); None; Some (mkRestErr 200)]
         [mkNote "Go::std::fmt" "Golang" "f" "b" "";
          mkNote "Go::std::fmt" "Golang" "g" "c" ""]
  = ([Notes_Add (mkNote "Go::std::fmt" "Golang" "f" "b" "");
      Notes_Add (mkNote "Go::std::fmt" "Golang" "f" "b" "");
      Notes_Add (mkNote "Go::std::fmt" "Golang" "f" "b" "");
      Notes_Add (mkNote "Go::std::fmt" "Golang" "g" "c" "")], inr []).
Proof.
  exact (upload_retries_transient 2 None [Some (mkRestErr 200)]
           (mkNote "Go::std::fmt" "Golang" "f" "b" "")
           [mkNote "Go::std::fmt" "Golang" "g" "c" ""] I).
Defined.

Lemma upload_accepting n ns :
  length ns ≤ n →
  upload (replicate n None) ns
  = (Notes_Add <$> ns, inr (replicate (n - length ns) None)).
Proof.
  revert n. induction ns as [|note ns IH]; intros n Hn.
  - by destruct n.
  - destruct n as [|n]; [cbn in Hn; lia|]. cbn [replicate upload length].
    rewrite IH by (cbn in Hn; lia). done.
Qed.

Lemma NoteUploader_loop_accepting decks inq : ∀ n,
  length (inq ≫= calls_for decks) ≤ n →
  NoteUploader_loop decks (replicate n None) inq
  = (inq ≫= calls_for decks, Drained).
Proof.
  induction inq as [|task inq IH]; intros n Hn; [done|].
  change ((task :: inq) ≫= calls_for decks)
    with (calls_for decks task ++ (inq ≫= calls_for decks)) in *.
  rewrite length_app in Hn. unfold calls_for in *.
  cbn [NoteUploader_loop]. case_bool_decide as Hin.
  - cbn [app] in *. rewrite length_fmap in Hn.
    rewrite upload_accepting by lia. rewrite IH by lia. done.
  - rewrite length_app, length_fmap in Hn. cbn [length] in Hn.
    destruct n as [|n]; [lia|]. cbn [replicate].
    rewrite upload_accepting by lia. rewrite IH by lia. done.
Qed.

(** X17: when the service accepts every call, the uploader makes for
    every task, in the order of the input, the call that creates its deck
    if the snapshot lacks the deck and then one call per note, in the
    order of the notes, and ends waiting for input. *)
Theorem NoteUploader_accepting_service decks inq n :
  length (inq ≫= calls_for decks) ≤ n →
  NoteUploader (Some decks) (replicate n None) inq
  = (inq ≫= calls_for decks, Drained).
Proof. apply NoteUploader_loop_accepting. Qed.

Lemma NoteUploader_accepting_service_witness :
  NoteUploader (Some ["Go::std::os"]) (replicate 5 None)
    [AddNote "f" "b" "" (NewTask "u1" "Go::std::fmt"); NewTask "u2" "Go::std::os"]
  = ([Decks_Create "Go::std::fmt";
      Notes_Add (mkNote "Go::std::fmt" "Golang" "f" "b" "")], Drained).
Proof.
  apply (NoteUploader_accepting_service ["Go::std::os"]
           [AddNote "f" "b" "" (NewTask "u1" "Go::std::fmt");
            NewTask "u2" "Go::std::os"] 5).
  vm_compute. lia.
Defined.





End uploader_properties.

(** ** [HtmlProcessor]: the cards *)

Section card_properties.
Context `{Externals}.
Implicit Types (st : Store * Task).

Lemma declaration_card_one_note fuel root span_selector block st st' :
  declaration_card fuel root span_selector block st = Ok st' →
  ∃ front, st'.2 = AddNote front front "" st.2.
Proof.
  destruct st as [σ task]. unfold declaration_card. intros Hrun.
  apply bind_Ok_inv in Hrun as (σ1 & _ & Hrun).
  apply bind_Ok_inv in Hrun as (ns & _ & Hrun).
  apply bind_Ok_inv in Hrun as ([cpy σ2] & _ & Hrun).
  apply bind_Ok_inv in Hrun as (front & _ & Hrun).
  injection Hrun as <-. by exists front.
Qed.

Lemma extends_AddNote d ns P front back t :
  extends d ns P t → P (mkNote d "Golang" front back "") →
  extends d ns P (AddNote front back "" t).
Proof.
  intros (Hd & new & Hnew & HP) Hnote. split; [done|].
  exists (new ++ [mkNote d "Golang" front back ""]). cbn.
  rewrite Hnew, Hd, <- app_assoc. split; [done|].
  apply Forall_app. split; [done|]. by constructor.
Qed.

Lemma declaration_cards_extends d ns P fuel root bsel ssel st st' :
  (∀ front, P (mkNote d "Golang" front front "")) →
  declaration_cards fuel root bsel ssel st = Ok st' →
  extends d ns P st.2 → extends d ns P st'.2.
Proof.
  intros HP. unfold declaration_cards.
  apply (foldM_invariant (λ st1, extends d ns P st1.2)).
  intros block st1 st2 (front & ->)%declaration_card_one_note Hext.
  by apply extends_AddNote.
Qed.

Lemma paired_loop_extends d ns P fuel root containers headers n i st st' :
  (∀ front back, P (mkNote d "Golang" front back "")) →
  paired_loop fuel root containers headers n i st = Ok st' →
  extends d ns P st.2 → extends d ns P st'.2.
Proof.
  intros HP. revert i st. induction n as [|n IH]; intros i st; cbn.
  - by intros [= <-].
  - intros Hrun Hext.
    apply bind_Ok_inv in Hrun as (container & _ & Hrun).
    apply bind_Ok_inv in Hrun as (header & _ & Hrun).
    apply bind_Ok_inv in Hrun as (st1 & Hcard & Hrun).
    apply paired_card_one_note in Hcard as (front & back & Heq).
    eapply IH; [done|]. rewrite Heq. by apply extends_AddNote.
Qed.

Lemma paired_cards_extends d ns P fuel root csel hsel mismatch st st' :
  (∀ front back, P (mkNote d "Golang" front back "")) →
  paired_cards fuel root csel hsel mismatch st = Ok st' →
  extends d ns P st.2 → extends d ns P st'.2.
Proof.
  intros HP. unfold paired_cards. case_bool_decide; [done|].
  by apply paired_loop_extends.
Qed.

(** X19: the notes that the extraction stage adds to a task are cards of
    the task's deck.  When the stage sends a task on, the notes the task
    came with are still its first notes, in order, and every note after
    them names the deck of the task and the model Golang and has an empty
    implementation field. *)
Theorem process_adds_cards fuel task task' :
  process fuel task = Ok task' →
  ∃ new, notes task' = notes task ++ new ∧ Forall (card_of (deck task)) new.
Proof.
  unfold process. intros Hrun.
  apply bind_Ok_inv in Hrun as ([root σ] & _ & Hrun).
  apply bind_Ok_inv in Hrun as (σ1 & _ & Hrun).
  apply bind_Ok_inv in Hrun as (st1 & Hvars & Hrun).
  apply bind_Ok_inv in Hrun as (st2 & Hconsts & Hrun).
  apply bind_Ok_inv in Hrun as (st3 & Hfuncs & Hrun).
  apply bind_Ok_inv in Hrun as (st4 & Htypes & Hrun).
  injection Hrun as <-.
  assert (extends (deck task) (notes task) (card_of (deck task)) task) as H0.
  { split; [done|]. exists []. by rewrite app_nil_r. }
  assert (∀ front back,
            card_of (deck task) (mkNote (deck task) "Golang" front back ""))
    as Hcard by done.
  pose proof (declaration_cards_extends _ _ _ _ _ _ _ _ _
                (λ front, Hcard front front) Hvars H0) as H1.
  pose proof (declaration_cards_extends _ _ _ _ _ _ _ _ _
                (λ front, Hcard front front) Hconsts H1) as H2.
  pose proof (paired_cards_extends _ _ _ _ _ _ _ _ _ _ Hcard Hfuncs H2) as H3.
  pose proof (paired_cards_extends _ _ _ _ _ _ _ _ _ _ Hcard Htypes H3) as H4.
  apply H4.
Qed.

Lemma declaration_card_front fuel root span_selector block σ task st' :
  declaration_card fuel root span_selector block (σ, task) = Ok st' →
  ∃ front σ1,
    declaration_front fuel root span_selector task block σ = Ok (front, σ1) ∧
    st' = (σ1, AddNote front front "" task).
Proof.
  unfold declaration_card, declaration_front.
  destruct (prefix_ids span_selector block task σ) as [σ1| | |]; cbn; [|done..].
  destruct (following_paragraphs fuel σ1 block) as [ns| | |]; cbn; [|done..].
  destruct (HTMLTrees.DeepCopySubtrees fuel root ns σ1) as [[cpy σ2]| | |];
    cbn; [|done..].
  destruct (HTMLString σ2 cpy) as [front| | |]; cbn; [|done..].
  intros [= <-]. by exists front, σ2.
Qed.

Lemma fronts_in_order_length fuel root span_selector task blocks σ fronts σ' :
  fronts_in_order fuel root span_selector task blocks σ fronts σ' →
  length fronts = length blocks.
Proof. induction 1; cbn; congruence. Qed.

Lemma fronts_in_order_AddNote fuel root span_selector front back impl task
    blocks σ fronts σ' :
  fronts_in_order fuel root span_selector (AddNote front back impl task)
    blocks σ fronts σ' →
  fronts_in_order fuel root span_selector task blocks σ fronts σ'.
Proof.
  induction 1 as [|block blocks σ f σ1 fronts σ' Hfront _ IH];
    [constructor|].
  econstructor; [exact Hfront|exact IH].
Qed.

Lemma declaration_cards_fronts fuel root span_selector blocks : ∀ σ task st',
  foldM (declaration_card fuel root span_selector) blocks (σ, task) = Ok st' →
  ∃ fronts,
    fronts_in_order fuel root span_selector task blocks σ fronts st'.1 ∧
    notes st'.2
    = notes task ++ ((λ front, mkNote (deck task) "Golang" front front "")
                       <$> fronts) ∧
    deck st'.2 = deck task.
Proof.
  induction blocks as [|block blocks IH]; intros σ task st'; cbn.
  - intros [= <-]. exists []. cbn. rewrite app_nil_r.
    split; [constructor|done].
  - intros (st1 & Hcard & Hrest)%bind_Ok_inv.
    apply declaration_card_front in Hcard as (front & σ1 & Hfront & ->).
    apply IH in Hrest as (fronts & Horder & Hnotes & Hdeck).
    exists (front :: fronts). split; [|split].
    + econstructor; [done|]. by eapply fronts_in_order_AddNote.
    + rewrite Hnotes. cbn. by rewrite <- app_assoc.
    + by rewrite Hdeck.
Qed.

(** X20: in the categories of the variables and of the constants the
    stage adds one card for every block that the selector of the
    category finds, in the order of the selection.  The selection is made
    once, in the store the category starts from.  The new notes follow the
    notes the task had, and the i-th of them is the card of the i-th block
    found: its front and its back are both the text made for that block,
    in the store as the blocks before it left it. *)
Theorem declaration_cards_one_per_block fuel root bsel ssel st st' :
  declaration_cards fuel root bsel ssel st = Ok st' →
  ∃ fronts,
    fronts_in_order fuel root ssel st.2 (css_Select bsel st.1 root) st.1
      fronts st'.1 ∧
    notes st'.2
    = notes st.2 ++ ((λ front, mkNote (deck st.2) "Golang" front front "")
                       <$> fronts) ∧
    length fronts = length (css_Select bsel st.1 root).
Proof.
  destruct st as [σ task]. unfold declaration_cards. cbn [fst snd].
  intros (fronts & Horder & Hnotes & _)%declaration_cards_fronts.
  exists fronts. split; [done|]. split; [done|].
  by eapply fronts_in_order_length.
Qed.

(** X21: a worker of the extraction stage sends one task for every task
    it receives, in the order of its input, up to the first task whose
    processing does not return; there the worker ends as the processing of
    that task ended, and sends nothing more. *)
Theorem HtmlProcessor_in_order fuel inq :
  ∃ served rest,
    inq = served ++ rest ∧
    Forall2 (λ t t', process fuel t = Ok t') served (HtmlProcessor fuel inq).1 ∧
    match rest with
    | [] => (HtmlProcessor fuel inq).2 = Ok ()
    | t :: _ =>
        (HtmlProcessor fuel inq).2 = outcome (process fuel t) ∧
        (HtmlProcessor fuel inq).2 ≠ Ok ()
    end.
Proof.
  induction inq as [|task inq (served & rest & Heq & Hall & Hend)].
  - exists [], []. by split_and!.
  - cbn [HtmlProcessor]. destruct (process fuel task) as [task'| |e|] eqn:Hp.
    + destruct (HtmlProcessor fuel inq) as [out e] eqn:Hrun. cbn in *.
      exists (task :: served), rest. rewrite Heq. split_and!; [done| |done].
      by constructor.
    + exists [], (task :: inq). cbn. rewrite Hp. by split_and!.
    + exists [], (task :: inq). cbn. rewrite Hp. by split_and!.
    + exists [], (task :: inq). cbn. rewrite Hp. by split_and!.
Qed.

(** X22: a page without declarations is no error.  When the page parses,
    the link normalization returns, and none of the selectors finds a
    node, the stage sends the task on as it came, without a note; the
    deck of the task is not looked at. *)
Theorem process_without_matches fuel task root σ σ1 :
  html_Parse (html task) = Some (root, σ) →
  HTMLTrees.Modify fuel (absolute_hrefs fuel (url_Parse (url task)))
    (Some root) σ = Ok σ1 →
  (∀ selector, css_Select selector σ1 root = []) →
  process fuel task = Ok task.
Proof.
  intros Hparse Hmod Hsel.
  assert (∀ bsel ssel,
    declaration_cards fuel root bsel ssel (σ1, task) = Ok (σ1, task)) as Hd.
  { intros bsel ssel. unfold declaration_cards. cbn [fst]. by rewrite Hsel. }
  assert (∀ csel hsel mismatch,
    paired_cards fuel root csel hsel mismatch (σ1, task) = Ok (σ1, task)) as Hp.
  { intros csel hsel mismatch. unfold paired_cards. cbn [fst].
    rewrite !Hsel. by rewrite bool_decide_false by (intros Hne; by apply Hne). }
  unfold process, function_cards, type_cards. rewrite Hparse.
  cbn [mbind result_bind]. rewrite Hmod.
  cbn [mbind result_bind]. rewrite Hd.
  cbn [mbind result_bind]. rewrite Hd.
  cbn [mbind result_bind]. rewrite Hp.
  cbn [mbind result_bind]. by rewrite Hp.
Qed.

(** X23: the deck of a task is looked at when a function or a type is
    found.  In these categories, when the selections agree in length and
    are not empty, a task whose deck has fewer than three parts ends the
    process with the error that names the deck, at the first container and
    before a card is made for it. *)
Theorem paired_cards_need_import_path fuel root csel hsel mismatch st :
  length (css_Select hsel st.1 root) = length (css_Select csel st.1 root) →
  css_Select csel st.1 root ≠ [] →
  (¬ ∃ a b c, deck st.2 = a +:+ "::" +:+ b +:+ "::" +:+ c) →
  paired_cards fuel root csel hsel mismatch st
  = Fatal (TooFewDeckParts (deck st.2)).
Proof.
  intros Hlen Hne Hdeck. unfold paired_cards.
  rewrite bool_decide_false by (intros Hneq; by apply Hneq).
  destruct (css_Select csel st.1 root) as [|c cs]; [done|].
  destruct (css_Select hsel st.1 root) as [|h hs]; [done|].
  cbn [length paired_loop lookup list_lookup of_option mbind result_bind].
  destruct st as [σ task]. unfold paired_card.
  pose proof (ImportPath_cases task) as Hcases.
  destruct (ImportPath task) as [ip| |e|]; try done.
  destruct Hcases as [-> _]. done.
Qed.
End card_properties.

Section card_examples.
Import Examples.

Lemma process_adds_cards_witness :
  ∃ task',
    process (H := page_externals) 10 task_retried = Ok task' ∧
    ∃ new, notes task' = notes task_retried ++ new ∧
      Forall (card_of "Go::std::fmt") new.
Proof.
  eexists. split; [vm_compute; reflexivity|].
  apply (process_adds_cards (H := page_externals) 10 task_retried).
  vm_compute. reflexivity.
Defined.

Lemma declaration_cards_one_per_block_witness :
  ∃ st',
    declaration_cards (H := block_externals) 10 0
      "section.Documentation-variables div.Documentation-declaration"
      "span[data-kind='variable']" (store_block, NewTask "u" "Go::std::fmt")
    = Ok st' ∧
    ∃ fronts,
      fronts_in_order (H := block_externals) 10 0 "span[data-kind='variable']"
        (NewTask "u" "Go::std::fmt") [1] store_block fronts st'.1 ∧
      notes st'.2
      = (λ front, mkNote "Go::std::fmt" "Golang" front front "") <$> fronts ∧
      length fronts = 1.
Proof.
  eexists. split; [vm_compute; reflexivity|].
  apply (declaration_cards_one_per_block (H := block_externals) 10 0
           "section.Documentation-variables div.Documentation-declaration"
           "span[data-kind='variable']" (store_block, NewTask "u" "Go::std::fmt")).
  vm_compute. reflexivity.
Defined.

Lemma paired_cards_need_import_path_witness :
  function_cards (H := page_externals) 10 0 (store_page, NewTask "u" "fmt")
  = Fatal (TooFewDeckParts "fmt").
Proof.
  apply (paired_cards_need_import_path (H := page_externals) 10 0
           "div.Documentation-function"
           "div.Documentation-function h4.Documentation-functionHeader"
           UnexpectedAmountOfFuncHeaders (store_page, NewTask "u" "fmt")).
  - reflexivity.
  - done.
  - intros (a & b & c & Heq). cbn in Heq.
    destruct a as [|? [|? [|? [|? a]]]]; cbn in Heq; try discriminate Heq.
Defined.

Lemma process_without_matches_witness :
  process (H := blank_externals) 10 (NewTask "u" "fmt") = Ok (NewTask "u" "fmt").
Proof.
  apply (process_without_matches (H := blank_externals) 10
           (NewTask "u" "fmt") 0 store_div store_div); reflexivity.
Defined.
End card_examples.

(** ** [HtmlProcessor]: the trailing paragraphs *)

Section trailing_paragraphs.
Implicit Types (σ : Store) (g : forest).

Lemma skip_one_Some σ c nc next nnext :
  nodes σ !! c = Some nc → NextSibling nc = Some next →
  nodes σ !! next = Some nnext →
  skip_one σ c = Ok (NextSibling nnext).
Proof.
  intros Hc Hnext Hn. unfold skip_one.
  rewrite (node_at_Some _ _ _ Hc). cbn. rewrite Hnext. cbn.
  by rewrite (node_at_Some _ _ _ Hn).
Qed.

Lemma paragraphs_from_cons fuel σ c nodes :
  paragraphs_from (S fuel) σ (Some c) nodes =
    (nc ← node_at σ c;
     if String.eqb (Data nc) "p" then
       c' ← skip_one σ c; paragraphs_from fuel σ c' (nodes ++ [c])
     else Ok nodes).
Proof. reflexivity. Qed.

(** The loop from a sibling chain on, and the step over a spacer followed
    by the loop. *)
Lemma paragraphs_from_spec σ g :
  forest_at σ g →
  (∀ fuel acc, length (siblings g) < fuel →
     paragraphs_from fuel σ (head_addr g) acc =
       match siblings g with
       | [] => Ok acc
       | (c, d) :: sibs =>
           if String.eqb d "p" then
             match trailing sibs with
             | Some ps => Ok (acc ++ c :: ps)
             | None => Panic
             end
           else Ok acc
       end) ∧
  (∀ fuel acc c nc, length (siblings g) < fuel →
     nodes σ !! c = Some nc → NextSibling nc = head_addr g →
     (c' ← skip_one σ c; paragraphs_from fuel σ c' acc) =
       match trailing (siblings g) with
       | Some ps => Ok (acc ++ ps)
       | None => Panic
       end).
Proof.
  induction 1 as [|a n attrs kids rest Hn Ha Hk Hr _ _ _ [IHloop IHskip]].
  - split.
    + intros [|fuel] acc Hfuel; [cbn in Hfuel; lia|done].
    + intros fuel acc c nc _ Hc Hnext. unfold skip_one.
      rewrite (node_at_Some _ _ _ Hc). cbn. by rewrite Hnext.
  - assert (∀ fuel acc, length (siblings (fcons a (content_of n attrs) kids rest)) < fuel →
      paragraphs_from fuel σ (Some a) acc =
        if String.eqb (Data n) "p" then
          match trailing (siblings rest) with
          | Some ps => Ok (acc ++ a :: ps)
          | None => Panic
          end
        else Ok acc) as Hloop.
    { intros [|fuel] acc Hfuel; [lia|]. cbn in Hfuel.
      rewrite paragraphs_from_cons.
      rewrite (node_at_Some _ _ _ Hn). cbn [mbind result_bind].
      destruct (String.eqb (Data n) "p"); [|done].
      rewrite (IHskip fuel (acc ++ [a]) a n) by (done || lia).
      destruct (trailing (siblings rest)); [|done].
      by rewrite <- app_assoc. }
    split; [exact Hloop|].
    intros fuel acc c nc Hfuel Hc Hnext. cbn in Hfuel.
    rewrite (skip_one_Some σ c nc a n) by done. cbn [mbind result_bind].
    rewrite Hr. cbn [siblings trailing].
    rewrite IHloop by lia.
    destruct (siblings rest) as [|[c' d] sibs]; [by rewrite app_nil_r|].
    destruct (String.eqb d "p"); [|by rewrite app_nil_r].
    by destruct (trailing sibs).
Qed.

(** X24: the trailing paragraphs of a declaration block.  With the later
    siblings of the block at hand, the collection returns the block
    followed by the siblings at the second, fourth, ... place as long as
    their Data is p, stepping over the sibling before each of them
    whatever it is; it faults when the block, or a paragraph that it
    collects, has no next sibling. *)
Theorem following_paragraphs_collects fuel σ block n rest :
  nodes σ !! block = Some n →
  NextSibling n = head_addr rest →
  forest_at σ rest →
  length (siblings rest) < fuel →
  following_paragraphs fuel σ block =
    match trailing (siblings rest) with
    | Some ps => Ok (block :: ps)
    | None => Panic
    end.
Proof.
  intros Hn Hnext Hrest Hfuel. unfold following_paragraphs.
  exact (proj2 (paragraphs_from_spec σ rest Hrest) fuel [block] block n
           Hfuel Hn Hnext).
Qed.

Lemma following_paragraphs_collects_witness :
  following_paragraphs 5 Examples.store_block 1 = Ok [1; 3].
Proof.
  apply (following_paragraphs_collects 5 Examples.store_block 1
           (Examples.elem "div" (Some 0) None None None (Some 2) None)
           (fcons 2 (mkContent TextNode 0 " " []) fnil
              (fcons 3 (mkContent ElementNode 0 "p" []) fnil
                 (fcons 4 (mkContent TextNode 0 " " []) fnil fnil)))).
  - reflexivity.
  - reflexivity.
  - apply (reify_chain_sound 5 Examples.store_block (Some 2)). reflexivity.
  - cbn. lia.
Defined.
End trailing_paragraphs.

(** ** [HtmlProcessor]: the rewrites in place *)

Section link_normalization_properties.
Context `{Externals}.

Lemma set_AttrVal_Some node i v σ n a arr x :
  nodes σ !! node = Some n → Attr n = Some a →
  arrays σ !! a = Some arr → arr !! i = Some x →
  set_AttrVal node i v σ =
    Ok (mkStore (nodes σ)
          (<[a := <[i := mkAttribute (AttrNamespace x) (Key x) v]> arr]>
             (arrays σ))).
Proof.
  intros Hn Ha Harr Hx. unfold set_AttrVal.
  rewrite (node_at_Some _ _ _ Hn). cbn. rewrite Ha. cbn. rewrite Harr. cbn.
  by rewrite Hx.
Qed.

Lemma href_loop_cons fuel base node i σ :
  href_loop (S fuel) base node i σ =
    (n ← node_at σ node;
     attrs ← of_option (slice_of σ (Attr n));
     if bool_decide (i < length attrs) then
       attr ← of_option (attrs !! i);
       σ ← (if String.eqb (Key attr) "href" then
              match url_Parse (Val attr) with
              | Some link =>
                  target ← url_ResolveReference base link;
                  set_AttrVal node i (url_String target) σ
              | None => Ok σ
              end
            else Ok σ);
       href_loop fuel base node (i + 1 + 1) σ
     else Ok σ).
Proof. reflexivity. Qed.

(** One round of the loop on an attribute that is there. *)
Lemma href_step base node i σ n attrs x :
  (∀ link, ∃ target, url_ResolveReference base link = Ok target) →
  nodes σ !! node = Some n →
  slice_of σ (Attr n) = Some attrs →
  attrs !! i = Some x →
  ∃ σ1,
    (if String.eqb (Key x) "href" then
       match url_Parse (Val x) with
       | Some link =>
           target ← url_ResolveReference base link;
           set_AttrVal node i (url_String target) σ
       | None => Ok σ
       end
     else Ok σ) = Ok σ1 ∧
    nodes σ1 = nodes σ ∧
    slice_of σ1 (Attr n) = Some (<[i := resolved base x]> attrs) ∧
    (∀ a, Attr n ≠ Some a → arrays σ1 !! a = arrays σ !! a).
Proof.
  intros Hres Hn Hs Hx. unfold resolved.
  assert (slice_of σ (Attr n) = Some (<[i := x]> attrs)) as Hsame
    by by rewrite list_insert_id.
  destruct (String.eqb (Key x) "href"); [|by exists σ].
  destruct (url_Parse (Val x)) as [link|]; [|by exists σ].
  destruct (Hres link) as [target ->]. cbn [mbind result_bind].
  destruct (Attr n) as [a|] eqn:Ha; [|by destruct attrs].
  cbn in Hs.
  rewrite (set_AttrVal_Some _ _ _ _ _ _ _ _ Hn Ha Hs Hx).
  eexists. split; [done|]. cbn. split_and!; [done| |].
  - apply list_lookup_insert_eq. by eapply lookup_lt_Some.
  - intros a' Ha'. rewrite list_lookup_insert_ne; [done|congruence].
Qed.

Lemma href_loop_spec base node n :
  (∀ link, ∃ target, url_ResolveReference base link = Ok target) →
  ∀ fuel i σ attrs,
    nodes σ !! node = Some n →
    slice_of σ (Attr n) = Some attrs →
    length attrs - i < fuel →
    ∃ σ',
      href_loop fuel base node i σ = Ok σ' ∧
      nodes σ' = nodes σ ∧
      slice_of σ' (Attr n)
        = Some (imap (λ j x, if (i <=? j) && Nat.even (j - i)
                             then resolved base x else x) attrs) ∧
      (∀ a, Attr n ≠ Some a → arrays σ' !! a = arrays σ !! a).
Proof.
  intros Hres. induction fuel as [|fuel IH]; intros i σ attrs Hn Hs Hfuel;
    [lia|].
  rewrite href_loop_cons, (node_at_Some _ _ _ Hn). cbn [mbind result_bind].
  rewrite Hs. cbn [mbind result_bind of_option].
  case_bool_decide as Hlt.
  - destruct (lookup_lt_is_Some_2 attrs i Hlt) as [x Hx].
    rewrite Hx. cbn [mbind result_bind of_option].
    destruct (href_step base node i σ n attrs x Hres Hn Hs Hx)
      as (σ1 & -> & Hn1 & Hs1 & Harr1).
    cbn [mbind result_bind].
    destruct (IH (i + 1 + 1) σ1 (<[i := resolved base x]> attrs))
      as (σ' & Hrun & Hn' & Hs' & Harr');
      [by rewrite Hn1|done|rewrite length_insert; lia|].
    exists σ'. split; [done|]. split; [congruence|]. split.
    + rewrite Hs'. f_equal. apply list_eq. intros j.
      rewrite !list_lookup_imap.
      destruct (decide (j = i)) as [->|Hne].
      * rewrite list_lookup_insert_eq by done. rewrite Hx. cbn.
        rewrite (proj2 (Nat.leb_gt _ _)) by lia.
        rewrite Nat.leb_refl, Nat.sub_diag. done.
      * rewrite list_lookup_insert_ne by done.
        destruct (attrs !! j) as [y|]; [|done]. cbn. f_equal.
        destruct (decide (j < i + 2)) as [Hj|Hj].
        -- rewrite (proj2 (Nat.leb_gt _ _)) by lia. cbn.
           destruct (decide (j < i)).
           ++ by rewrite (proj2 (Nat.leb_gt _ _)) by lia.
           ++ replace (j - i) with 1 by lia. by rewrite andb_false_r.
        -- rewrite !(proj2 (Nat.leb_le _ _)) by lia. cbn.
           replace (j - i) with (S (S (j - (i + 1 + 1)))) by lia. done.
    + intros a Ha. by rewrite Harr', Harr1.
  - exists σ. split; [done|]. split; [done|]. split; [|done].
    rewrite Hs. f_equal. apply list_eq. intros j. rewrite list_lookup_imap.
    destruct (attrs !! j) as [y|] eqn:Hy; [|done]. cbn.
    apply lookup_lt_Some in Hy. by rewrite (proj2 (Nat.leb_gt _ _)) by lia.
Qed.

(** X25: what the link normalization does to a node.  When resolving
    against the base does not fault, the closure handed to [Modify]
    returns, leaves the nodes and every other attribute array as they
    are, and has looked at the attributes at the even positions only:
    there the value of an href that parses is now the resolved reference;
    an href whose value does not parse, an attribute with another key, and
    any attribute at an odd position are as they were. *)
Theorem absolute_hrefs_even_positions fuel base node σ n attrs :
  (∀ link, ∃ target, url_ResolveReference base link = Ok target) →
  nodes σ !! node = Some n →
  slice_of σ (Attr n) = Some attrs →
  length attrs < fuel →
  ∃ σ',
    absolute_hrefs fuel base node σ = Ok σ' ∧
    nodes σ' = nodes σ ∧
    slice_of σ' (Attr n)
      = Some (imap (λ j x, if Nat.even j then resolved base x else x) attrs) ∧
    (∀ a, Attr n ≠ Some a → arrays σ' !! a = arrays σ !! a).
Proof.
  intros Hres Hn Hs Hfuel.
  destruct (href_loop_spec base node n Hres fuel 0 σ attrs Hn Hs)
    as (σ' & Hrun & Hn' & Hs' & Harr'); [lia|].
  exists σ'. split_and!; try done. rewrite Hs'. f_equal.
  apply imap_ext. intros j x _. cbn. by rewrite Nat.sub_0_r.
Qed.
End link_normalization_properties.

Lemma absolute_hrefs_even_positions_witness :
  ∃ σ',
    absolute_hrefs (H := Examples.page_externals) 3 (Some "https://pkg.go.dev")
      0 (mkStore [Examples.elem "a" None None None None None (Some 0)]
                 [[mkAttribute "" "href" "/fmt"; mkAttribute "" "href" "/os"]])
    = Ok σ' ∧
    slice_of σ' (Some 0)
    = Some [mkAttribute "" "href" "https://pkg.go.dev/fmt";
            mkAttribute "" "href" "/os"].
Proof.
  destruct (absolute_hrefs_even_positions (H := Examples.page_externals) 3
              (Some "https://pkg.go.dev") 0
              (mkStore [Examples.elem "a" None None None None None (Some 0)]
                 [[mkAttribute "" "href" "/fmt"; mkAttribute "" "href" "/os"]])
              _ _ (λ link, ex_intro _ _ eq_refl) eq_refl eq_refl
              (le_n 3))
    as (σ' & Hrun & _ & Hs & _).
  by exists σ'.
Defined.

Section attribute_lookup.

Lemma find_first {A} (f : A → bool) (l : list A) x :
  find f l = Some x ↔
  ∃ pre post, l = pre ++ x :: post ∧ f x = true ∧ Forall (λ y, f y = false) pre.
Proof.
  induction l as [|y l IH]; cbn.
  - split; [done|]. by intros ([|??] & ? & ? & _).
  - destruct (f y) eqn:Hy.
    + split.
      * intros [= ->]. by exists [], l.
      * intros ([|z pre] & post & Heq & Hx & Hpre).
        -- by injection Heq as -> _.
        -- injection Heq as -> _. apply Forall_cons in Hpre as [Hz _].
           congruence.
    + rewrite IH. split.
      * intros (pre & post & -> & Hx & Hpre). exists (y :: pre), post.
        split_and!; [done..|]. by constructor.
      * intros ([|z pre] & post & Heq & Hx & Hpre).
        -- injection Heq as -> _. congruence.
        -- injection Heq as -> ->. apply Forall_cons in Hpre as [_ Hpre].
           by exists pre, post.
Qed.

(** X26: [GetHtmlAttributeByKey] returns an attribute exactly when the
    node has one with the key, and then it returns the first of them, as a
    value of its own; with the same key twice the later attribute is never
    returned.  (Without such an attribute the function returns an error,
    which here is the exit that its callers make of it.) *)
Theorem GetHtmlAttributeByKey_first σ node key n attrs attr :
  nodes σ !! node = Some n →
  slice_of σ (Attr n) = Some attrs →
  GetHtmlAttributeByKey σ node key = Ok attr ↔
  ∃ pre post,
    attrs = pre ++ attr :: post ∧ Key attr = key ∧
    Forall (λ x, Key x ≠ key) pre.
Proof.
  intros Hn Hs. unfold GetHtmlAttributeByKey, GetHtmlAttribute.
  rewrite (node_at_Some _ _ _ Hn). cbn. rewrite Hs. cbn.
  transitivity (find (λ attr, String.eqb (Key attr) key) attrs = Some attr).
  { destruct (find _ attrs); split; congruence. }
  rewrite find_first. do 2 (apply exist_proper; intros ?).
  rewrite String.eqb_eq. do 2 (apply and_iff_compat_l).
  apply Forall_proper; [|done]. intros y. by rewrite String.eqb_neq.
Qed.

Lemma GetHtmlAttributeByKey_first_witness :
  GetHtmlAttributeByKey
    (mkStore [Examples.elem "span" None None None None None (Some 0)]
             [[mkAttribute "" "class" "c"; mkAttribute "" "id" "Println";
               mkAttribute "" "id" "other"]])
    0 "id"
  = Ok (mkAttribute "" "id" "Println").
Proof.
  apply (GetHtmlAttributeByKey_first _ 0 "id"
           (Examples.elem "span" None None None None None (Some 0))
           [mkAttribute "" "class" "c"; mkAttribute "" "id" "Println";
            mkAttribute "" "id" "other"]); [reflexivity..|].
  exists [mkAttribute "" "class" "c"], [mkAttribute "" "id" "other"].
  split_and!; [reflexivity..|]. by repeat constructor.
Defined.
End attribute_lookup.

Section source_link_prefix.
Context `{Externals}.

Lemma with_Data_with_Data d d' n : with_Data d (with_Data d' n) = with_Data d n.
Proof. done. Qed.

Lemma prefixed_by_lookup_None σ0 name seen σ l :
  prefixed_by σ0 name seen σ → nodes σ0 !! l = None → nodes σ !! l = None.
Proof.
  intros (_ & Hlen & _) Hl. apply lookup_ge_None. rewrite Hlen.
  by apply lookup_ge_None.
Qed.

Lemma add_prefix_step σ0 name seen σ a :
  prefixed_by σ0 name seen σ →
  match add_prefix name a σ with
  | Ok σ1 => has_first_child σ0 a ∧ prefixed_by σ0 name (seen ++ [a]) σ1
  | Panic => ¬ has_first_child σ0 a
  | Fatal _ | Timeout => False
  end.
Proof.
  intros Hinv. unfold add_prefix, node_at.
  destruct (nodes σ0 !! a) as [n|] eqn:Ha; cycle 1.
  { rewrite (prefixed_by_lookup_None _ _ _ _ _ Hinv Ha). cbn.
    intros (fc & nfc & Hfc & _). unfold first_child in Hfc.
    by rewrite Ha in Hfc. }
  rewrite (proj2 (proj2 Hinv) _ _ Ha). cbn [of_option mbind result_bind].
  cbn [FirstChild with_Data].
  assert (first_child σ0 a = FirstChild n) as Hchild.
  { unfold first_child. by rewrite Ha. }
  destruct (FirstChild n) as [fc|] eqn:Hfc; cycle 1.
  { cbn. intros (fc & nfc & Hsome & _). congruence. }
  cbn [of_option mbind result_bind].
  destruct (nodes σ0 !! fc) as [nfc|] eqn:Hnfc; cycle 1.
  { rewrite (prefixed_by_lookup_None _ _ _ _ _ Hinv Hnfc). cbn.
    intros (fc' & nfc & Hsome & Hnode). congruence. }
  pose proof (proj2 (proj2 Hinv) _ _ Hnfc) as Hcur. rewrite Hcur.
  cbn [of_option mbind result_bind].
  rewrite (update_Some _ _ _ _ Hcur).
  rewrite with_Data_with_Data. cbn [Data with_Data].
  destruct Hinv as (Harr & Hlen & Hnodes).
  split; [unfold has_first_child; eauto|]. split_and!.
  - done.
  - cbn. by rewrite length_insert.
  - intros l nl Hl. cbn. rewrite filter_app, length_app, filter_cons.
    rewrite Hchild.
    destruct (decide (l = fc)) as [->|Hne].
    + rewrite decide_True by done. cbn.
      rewrite list_lookup_insert_eq by (rewrite Hlen; by eapply lookup_lt_Some).
      replace nl with nfc by congruence.
      by rewrite Nat.add_1_r.
    + rewrite decide_False by congruence. cbn.
      rewrite list_lookup_insert_ne by done. rewrite Nat.add_0_r.
      by apply Hnodes.
Qed.

Lemma doc_src_add_prefix_loop σ0 name anchors : ∀ seen σ,
  prefixed_by σ0 name seen σ →
  match foldM (add_prefix name) anchors σ with
  | Ok σ' =>
      Forall (has_first_child σ0) anchors ∧
      prefixed_by σ0 name (seen ++ anchors) σ'
  | Panic => Exists (λ a, ¬ has_first_child σ0 a) anchors
  | Fatal _ | Timeout => False
  end.
Proof.
  induction anchors as [|a anchors IH]; intros seen σ Hinv.
  - cbn. by rewrite app_nil_r.
  - cbn [foldM]. pose proof (add_prefix_step σ0 name seen σ a Hinv) as Hstep.
    destruct (add_prefix name a σ) as [σ1| | |]; cbn [mbind result_bind];
      try done.
    + destruct Hstep as [Hfc Hstep].
      specialize (IH (seen ++ [a]) σ1 Hstep).
      destruct (foldM _ anchors σ1) as [σ'| | |]; try done.
      * destruct IH as [Hall IH]. rewrite <- app_assoc in IH.
        split; [by constructor|done].
      * by apply Exists_cons_tl.
    + by apply Exists_cons_hd.
Qed.

(** X27: what [doc_src_add_prefix] does.  Without a source-link anchor
    under the header it ends the process.  Otherwise it goes through the
    anchors that the selector finds.  It returns exactly when every one of
    them has a first child: then the Data of the first child of every
    anchor has the name and a dot put in front of it (once for every anchor
    that has this first child), whether that child is a text node or an
    element, and every other field of every node, and every attribute, is
    as it was.  It faults exactly when one of the anchors has no first
    child.  It ends in no other way. *)
Theorem doc_src_add_prefix_spec root name σ :
  let anchors := css_Select "a.Documentation-source" σ root in
  match doc_src_add_prefix root name σ with
  | Ok σ' =>
      anchors ≠ [] ∧ Forall (has_first_child σ) anchors ∧
      prefixed_by σ name anchors σ'
  | Fatal e => e = NoNodesFound ∧ anchors = []
  | Panic => anchors ≠ [] ∧ Exists (λ a, ¬ has_first_child σ a) anchors
  | Timeout => False
  end.
Proof.
  intros anchors. unfold doc_src_add_prefix. fold anchors.
  case_bool_decide as Hlen.
  - split; [done|]. by apply nil_length_inv.
  - assert (prefixed_by σ name [] σ) as Hinv.
    { split_and!; [done..|]. intros l n Hl. cbn. rewrite Hl. by destruct n. }
    pose proof (doc_src_add_prefix_loop σ name anchors [] σ Hinv) as Hloop.
    change (foldM _ anchors σ) with (foldM (add_prefix name) anchors σ).
    destruct (foldM _ anchors σ) as [σ'| | |]; try done.
    + split; [|done]. by intros ->.
    + split; [|done]. by intros ->.
Qed.
End source_link_prefix.
